(** * mermaid-vibes: the SVG enhancement and particle animation pipeline

    A shallow embedding of [components/MermaidRenderer] (svgUtils.ts,
    particleUtils.ts, constants.ts, index.tsx, exportUtils.ts, theme.ts)
    together with the properties of the specification that are stated about
    it and further properties of the code.

    Conventions of the embedding.
    - A JavaScript [number] is a rational [Q]: the arithmetic of the source
      is read exactly (no rounding).  Where the source can meet [NaN]
      ([%] by zero, [parseFloat] of text that is not a number) the number is
      an [option Q] and [None] is [NaN].  The start times of the particle
      windows are the one place where the rounding of the doubles decides
      a property; the module [Double] embeds the scheduling code with
      IEEE 754 doubles for it.
    - An attribute value that is the text of a number as [String(n)]
      writes it is kept as that number ([VNum]), so [toString] followed by
      [parseFloat] is the identity on numbers.  [VStr] holds any other
      text, and [parseFloat] reads its leading decimal literal, as in
      [12px].
    - The graphic tree is a rose tree.  An element handle is the list of
      child indices leading from the [svg] root to the element; the [svg]
      element is the root, and its own ancestors in the host page carry no
      class that a selector of this code names.
    - Strings are ASCII; [\s] is the ASCII white space. *)

From Stdlib Require Import QArith Qminmax Lqa Lia ZArith List String Ascii Bool.
From stdpp Require Import gmap strings.
Import ListNotations.

Local Open Scope Q_scope.
Local Open Scope string_scope.

(** ** Numbers *)

Definition Qltb (x y : Q) : bool := negb (Qle_bool y x).

(** [Math.trunc]: rounding toward zero. *)
Definition Qtrunc (q : Q) : Z := Z.quot (Qnum q) (Zpos (Qden q)).

(** The [%] operator of JavaScript on numbers: the result takes the sign of
    the dividend, and a zero divisor gives [NaN]. *)
Definition jsRem (a b : Q) : option Q :=
  if Qeq_bool b 0 then None
  else Some (a - b * inject_Z (Qtrunc (a / b))).

(** Numbers that may be [NaN]. *)
Definition Num := option Q.

Definition jsLift2 (f : Q -> Q -> Q) (a b : Num) : Num :=
  match a, b with
  | Some x, Some y => Some (f x y)
  | _, _ => None
  end.

Definition jsMax : Num -> Num -> Num := jsLift2 Qmax.
Definition jsSub : Num -> Num -> Num := jsLift2 Qminus.
Definition jsAdd : Num -> Num -> Num := jsLift2 Qplus.
Definition jsDiv : Num -> Num -> Num := jsLift2 Qdiv.

(** [a !== b] on numbers: [NaN] differs from everything, itself included. *)
Definition jsStrictNe (a b : Num) : bool :=
  match a, b with
  | Some x, Some y => negb (Qeq_bool x y)
  | _, _ => true
  end.

(** ** Strings *)

Fixpoint startsWith (s p : string) : bool :=
  match p, s with
  | EmptyString, _ => true
  | String c p', String d s' => if Ascii.eqb c d then startsWith s' p' else false
  | String _ _, EmptyString => false
  end.

(** [hay.includes(needle)] *)
Fixpoint includes (hay needle : string) : bool :=
  startsWith hay needle ||
  match hay with
  | EmptyString => false
  | String _ r => includes r needle
  end.

Definition lowerAscii (c : ascii) : ascii :=
  let n := nat_of_ascii c in
  if (Nat.leb 65 n && Nat.leb n 90)%bool then ascii_of_nat (n + 32) else c.

Fixpoint toLowerCase (s : string) : string :=
  match s with
  | EmptyString => EmptyString
  | String c r => String (lowerAscii c) (toLowerCase r)
  end.

(** ASCII white space: space, tab, line feed, vertical tab, form feed,
    carriage return. *)
Definition isSpace (c : ascii) : bool :=
  let n := nat_of_ascii c in
  (Nat.eqb n 32 || (Nat.leb 9 n && Nat.leb n 13))%bool.

Definition isNewline (c : ascii) : bool := Nat.eqb (nat_of_ascii c) 10.

Fixpoint trimStart (s : string) : string :=
  match s with
  | EmptyString => EmptyString
  | String c r => if isSpace c then trimStart r else s
  end.

Fixpoint revString (s acc : string) : string :=
  match s with
  | EmptyString => acc
  | String c r => revString r (String c acc)
  end.

Definition trimEnd (s : string) : string :=
  revString (trimStart (revString s EmptyString)) EmptyString.

Definition trim (s : string) : string := trimEnd (trimStart s).

(** ** The graphic tree *)

Inductive AttrVal :=
| VNum (q : Q)
| VStr (s : string).

(** What an element carries itself: tag, class tokens, attributes other
    than [class] and [style], the inline style declaration, and its own
    text. *)
Record Head := mkHead {
  tagName : string;
  classList : list string;
  attributes : gmap string AttrVal;
  style : gmap string string;
  text : string;
}.

#[warnings="-register-all"]
Inductive Element :=
| Node (hd : Head) (kids : list Element).

Definition head (e : Element) : Head := match e with Node h _ => h end.
Definition children (e : Element) : list Element := match e with Node _ ks => ks end.

Definition Handle := list nat.

Definition onHead (g : Head -> Head) (e : Element) : Element :=
  match e with Node h ks => Node (g h) ks end.

Definition createElement (tag : string) : Element :=
  Node (mkHead tag [] ∅ ∅ "") [].

Definition getAttribute (n : string) (h : Head) : option AttrVal :=
  attributes h !! n.

Definition setAttribute (n : string) (v : AttrVal) (h : Head) : Head :=
  mkHead (tagName h) (classList h) (<[n:=v]> (attributes h)) (style h) (text h).

Definition removeAttribute (n : string) (h : Head) : Head :=
  mkHead (tagName h) (classList h) (delete n (attributes h)) (style h) (text h).

(** [el.setAttribute('class', c)] for a single token [c]. *)
Definition setClass (c : string) (h : Head) : Head :=
  mkHead (tagName h) [c] (attributes h) (style h) (text h).

Definition setTextContent (s : string) (h : Head) : Head :=
  mkHead (tagName h) (classList h) (attributes h) (style h) s.

Definition classList_contains (c : string) (h : Head) : bool :=
  bool_decide (c ∈ classList h).

(** [classList.add]: a token that is present is not added again. *)
Definition classList_add (c : string) (h : Head) : Head :=
  if classList_contains c h then h
  else mkHead (tagName h) (classList h ++ [c]) (attributes h) (style h) (text h).

(** [el.style.removeProperty(p)] *)
Definition style_removeProperty (p : string) (h : Head) : Head :=
  mkHead (tagName h) (classList h) (attributes h) (delete p (style h)) (text h).

(** [v || d] on what [getAttribute] returns: [null] and the empty text are
    falsy. *)
Definition attrOr (o : option AttrVal) (d : AttrVal) : AttrVal :=
  match o with
  | None => d
  | Some (VStr EmptyString) => d
  | Some v => v
  end.

(** *** [parseFloat]

    On text, [parseFloat] skips leading white space and reads the longest
    prefix that is a decimal literal: an optional sign, then [Infinity], or
    digits with an optional fraction, or a fraction alone, each with an
    optional exponent.  Text with no such prefix gives [NaN]. *)
Inductive Parsed :=
| PNaN
| PInfinity (negative : bool)
| PFinite (q : Q).

Definition digitValue (c : ascii) : option Z :=
  let n := nat_of_ascii c in
  if (Nat.leb 48 n && Nat.leb n 57)%bool then Some (Z.of_nat (n - 48)) else None.

(** The digits at the head of [s]: their value after the digits read so
    far ([acc], [count] of them), how many there are, and the text after
    them. *)
Fixpoint readDigits (s : string) (acc : Z) (count : nat) : Z * nat * string :=
  match s with
  | EmptyString => (acc, count, s)
  | String c r =>
      match digitValue c with
      | Some d => readDigits r (10 * acc + d)%Z (S count)
      | None => (acc, count, s)
      end
  end.

(** The exponent part at the head of [s], 0 when there is none: [e] or
    [E], an optional sign and at least one digit. *)
Definition readExponent (s : string) : Z :=
  match s with
  | String c r =>
      if (Ascii.eqb c "e" || Ascii.eqb c "E")%bool then
        let '(negative, r) :=
          match r with
          | String "+" r' => (false, r')
          | String "-" r' => (true, r')
          | _ => (false, r)
          end in
        let '(v, n, _) := readDigits r 0%Z 0%nat in
        match n with
        | O => 0%Z
        | S _ => if negative then (- v)%Z else v
        end
      else 0%Z
  | EmptyString => 0%Z
  end.

Definition readUnsigned (s : string) : Parsed :=
  if startsWith s "Infinity" then PInfinity false
  else
    let '(i, ni, r) := readDigits s 0%Z 0%nat in
    match ni, r with
    | S _, String "." r' =>
        let '(f, nf, r'') := readDigits r' 0%Z 0%nat in
        PFinite ((inject_Z i + inject_Z f / 10 ^ Z.of_nat nf)
                 * 10 ^ readExponent r'')
    | S _, _ => PFinite (inject_Z i * 10 ^ readExponent r)
    | O, String "." r' =>
        let '(f, nf, r'') := readDigits r' 0%Z 0%nat in
        match nf with
        | O => PNaN
        | S _ => PFinite (inject_Z f / 10 ^ Z.of_nat nf * 10 ^ readExponent r'')
        end
    | O, _ => PNaN
    end.

Definition negateParsed (p : Parsed) : Parsed :=
  match p with
  | PNaN => PNaN
  | PInfinity s => PInfinity (negb s)
  | PFinite q => PFinite (- q)
  end.

Definition parseFloatText (s : string) : Parsed :=
  match trimStart s with
  | String "+" r => readUnsigned r
  | String "-" r => negateParsed (readUnsigned r)
  | t => readUnsigned t
  end.

(** The numbers of the embedding are finite, so the infinite result, which
    only text that names [Infinity] gives, is read as [NaN]; the statements
    about text name the result of [parseFloatText]. *)
Definition parseFloat (v : AttrVal) : Num :=
  match v with
  | VNum q => Some q
  | VStr s =>
      match parseFloatText s with
      | PFinite q => Some q
      | _ => None
      end
  end.

Definition toString (n : Num) : AttrVal :=
  match n with
  | Some q => VNum q
  | None => VStr "NaN"
  end.

(** [textContent]: the element's own text followed by that of its
    descendants. *)
Fixpoint textContent (e : Element) : string :=
  match e with
  | Node h ks =>
      text h ++
      (fix go (l : list Element) : string :=
         match l with
         | [] => EmptyString
         | k :: r => textContent k ++ go r
         end) ks
  end.

Fixpoint getEl (h : Handle) (e : Element) : option Element :=
  match h with
  | [] => Some e
  | i :: h' =>
      match children e !! i with
      | Some k => getEl h' k
      | None => None
      end
  end.

(** The element at handle [h] replaced by [f] of it. *)
Fixpoint updateAt (h : Handle) (f : Element -> Element) (e : Element) : Element :=
  match h with
  | [] => f e
  | i :: h' => Node (head e) (alter (updateAt h' f) i (children e))
  end.

Definition parentHandle (h : Handle) : option Handle :=
  match h with
  | [] => None
  | _ :: _ => Some (removelast h)
  end.

(** [el.parentElement], for an element of the tree below the root. *)
Definition parentElement (svg : Element) (h : Handle) : option Element :=
  match parentHandle h with
  | Some p => getEl p svg
  | None => None
  end.

Definition appendChild (c : Element) (e : Element) : Element :=
  match e with Node h ks => Node h (ks ++ [c]) end.

(** [insertBefore(c, e.firstChild)] *)
Definition insertFirst (c : Element) (e : Element) : Element :=
  match e with Node h ks => Node h (c :: ks) end.

(** ** Selectors *)

(** A compound selector: an optional type selector and class selectors. *)
Record Compound := mkCompound {
  selTag : option string;
  selClasses : list string;
}.

(** A complex selector: a compound, or [anc dsc] with the descendant
    combinator. *)
Inductive Complex :=
| Simple (c : Compound)
| Desc (anc : Compound) (dsc : Compound).

(** A selector list: complex selectors separated by commas. *)
Definition Selector := list Complex.

Definition matchesCompound (c : Compound) (h : Head) : bool :=
  (match selTag c with
   | Some t => String.eqb t (tagName h)
   | None => true
   end) &&
  forallb (fun k => classList_contains k h) (selClasses c).

(** [ancs] are the heads of the ancestors, the parent first. *)
Definition matchesComplex (s : Complex) (ancs : list Head) (h : Head) : bool :=
  match s with
  | Simple c => matchesCompound c h
  | Desc a c => matchesCompound c h && existsb (matchesCompound a) ancs
  end.

Definition matchesSelector (sel : Selector) (ancs : list Head) (h : Head) : bool :=
  existsb (fun s => matchesComplex s ancs h) sel.

Fixpoint flatMapI {A B : Type} (f : nat -> A -> list B) (i : nat) (l : list A) : list B :=
  match l with
  | [] => []
  | k :: r => f i k ++ flatMapI f (S i) r
  end.

(** The handles, in document order, of [e] and its descendants that satisfy
    [P]; [ancs] are the heads of the ancestors of [e], the parent first. *)
Fixpoint selectAll (P : list Head -> Element -> bool) (ancs : list Head)
    (e : Element) : list Handle :=
  match e with
  | Node h ks =>
      (if P ancs e then [[]] else []) ++
      flatMapI (fun i k => map (cons i) (selectAll P (h :: ancs) k)) 0%nat ks
  end.

(** The handles of the proper descendants of [e] that satisfy [P]. *)
Definition selectBelow (P : list Head -> Element -> bool) (e : Element) : list Handle :=
  flatMapI (fun i k => map (cons i) (selectAll P [head e] k)) 0%nat (children e).

Definition selectorPred (sel : Selector) : list Head -> Element -> bool :=
  fun ancs e => matchesSelector sel ancs (head e).

(** [svg.querySelectorAll(sel)]: the matching descendants of [svg], in
    document order. *)
Definition querySelectorAll (svg : Element) (sel : Selector) : list Handle :=
  selectBelow (selectorPred sel) svg.

(** [list.forEach(el => g el)] for a callback that touches only the element
    it is given. *)
Definition forEachHead (hs : list Handle) (g : Head -> Head) (svg : Element) : Element :=
  fold_left (fun t h => updateAt h (onHead g) t) hs svg.

Definition tagSel (t : string) : Complex := Simple (mkCompound (Some t) []).
Definition classSel (c : string) : Complex := Simple (mkCompound None [c]).

(** ** constants.ts *)

Record ParticleConfig := {
  particleCount : nat;
  minDuration : Q;
  maxDuration : Q;
  durationMultiplier : Q;
}.

Definition PARTICLE_CONFIG : ParticleConfig := {|
  particleCount := 1;
  minDuration := 2000;
  maxDuration := 3500;
  durationMultiplier := 15;
|}.

Record CircleStyle := {
  radius : Q;
  fill : string;
  opacity : Q;
}.

Record ParticleStyle := {
  outerGlow : CircleStyle;
  core : CircleStyle;
  innerGlow : CircleStyle;
}.

(** The fills are [ACCENT.cyanLight], [PRIMARY.teal] and
    [PRIMARY.tealLight] of theme.ts. *)
Definition PARTICLE_STYLE : ParticleStyle := {|
  outerGlow := {| radius := 8; fill := "#D9F5EA"; opacity := 15 # 100 |};
  core := {| radius := 3; fill := "#179895"; opacity := 5 # 10 |};
  innerGlow := {| radius := 15 # 10; fill := "#679b9a"; opacity := 4 # 10 |};
|}.

Module MERMAID_SELECTORS.

Definition desc (a : string) (t : string) : Complex :=
  Desc (mkCompound None [a]) (mkCompound (Some t) []).

(** ['.node rect, .node polygon, .node circle, .node ellipse'] *)
Definition nodes : Selector :=
  [desc "node" "rect"; desc "node" "polygon"; desc "node" "circle"; desc "node" "ellipse"].

Definition nodeLabels : Selector := [classSel "nodeLabel"].

(** The edge selectors, in order of priority. *)
Definition edges : list Selector :=
  [ [classSel "flowchart-link"];
    [classSel "messageLine0"];
    [classSel "messageLine1"];
    [Simple (mkCompound None ["messageLine0"; "dashed"])];
    [Simple (mkCompound None ["messageLine1"; "dashed"])];
    [desc "edgePath" "path"];
    [Simple (mkCompound (Some "path") ["edge"])];
    [Simple (mkCompound (Some "path") ["relation"])] ].

Definition edgeLabels : Selector := [classSel "edgeLabel"].

Definition edgeLabelRects : Selector := [desc "edgeLabel" "rect"].

Definition markers : Selector := [tagSel "marker"].

End MERMAID_SELECTORS.

Module EDGE_LABEL_MIN_SIZE.
Definition width : Q := 90.
Definition height : Q := 50.
Definition borderRadius : Q := 12.
End EDGE_LABEL_MIN_SIZE.

(** ** svgUtils.ts *)

Definition enhanceNode (node : Head) : Head :=
  let node := classList_add "animated-node" node in
  if String.eqb (tagName node) "rect"
  then setAttribute "ry" (VNum 10) (setAttribute "rx" (VNum 10) node)
  else node.

Definition enhanceNodes (svg : Element) : Element :=
  let nodes := querySelectorAll svg MERMAID_SELECTORS.nodes in
  forEachHead nodes enhanceNode svg.

Definition enhanceLabels (svg : Element) : Element :=
  let nodeLabels := querySelectorAll svg MERMAID_SELECTORS.nodeLabels in
  let edgeLabels := querySelectorAll svg MERMAID_SELECTORS.edgeLabels in
  forEachHead (nodeLabels ++ edgeLabels) (classList_add "animated-label") svg.

(** The callback of [enhanceEdgeLabelBoxes] on one rectangle. *)
Definition enhanceEdgeLabelRect (rect : Head) : Head :=
  let minWidth := EDGE_LABEL_MIN_SIZE.width in
  let minHeight := EDGE_LABEL_MIN_SIZE.height in
  let borderRadius := EDGE_LABEL_MIN_SIZE.borderRadius in
  let width := parseFloat (attrOr (getAttribute "width" rect) (VNum 0)) in
  let height := parseFloat (attrOr (getAttribute "height" rect) (VNum 0)) in
  let paddedMinWidth := minWidth + 20 in
  let paddedMinHeight := minHeight + 10 in
  let newWidth := jsMax width (Some paddedMinWidth) in
  let rect :=
    if jsStrictNe newWidth width then
      let rect := setAttribute "width" (toString newWidth) rect in
      let x := parseFloat (attrOr (getAttribute "x" rect) (VNum 0)) in
      setAttribute "x" (toString (jsSub x (jsDiv (jsSub newWidth width) (Some 2)))) rect
    else rect in
  let newHeight := jsMax height (Some paddedMinHeight) in
  let rect :=
    if jsStrictNe newHeight height then
      let rect := setAttribute "height" (toString newHeight) rect in
      let y := parseFloat (attrOr (getAttribute "y" rect) (VNum 0)) in
      setAttribute "y" (toString (jsSub y (jsDiv (jsSub newHeight height) (Some 2)))) rect
    else rect in
  setAttribute "ry" (VNum borderRadius) (setAttribute "rx" (VNum borderRadius) rect).

Definition enhanceEdgeLabelBoxes (svg : Element) : Element :=
  let edgeLabelRects := querySelectorAll svg MERMAID_SELECTORS.edgeLabelRects in
  forEachHead edgeLabelRects enhanceEdgeLabelRect svg.

(** The filter of the fallback of [findEdgePaths], on the handle of a path:
    [parent?.classList.contains('node')] is falsy and
    [parent?.tagName?.toLowerCase()] is [undefined] when there is no
    parent. *)
Definition isEdgeFallback (svg : Element) (path : Handle) : bool :=
  let parent := parentElement svg path in
  let isNotNode :=
    negb (match parent with
          | Some p => classList_contains "node" (head p)
          | None => false
          end) in
  let isNotMarker :=
    match parent with
    | Some p => negb (String.eqb (toLowerCase (tagName (head p))) "marker")
    | None => true
    end in
  isNotNode && isNotMarker.

Fixpoint firstNonEmpty (svg : Element) (sels : list Selector) : option (list Handle) :=
  match sels with
  | [] => None
  | selector :: rest =>
      match querySelectorAll svg selector with
      | [] => firstNonEmpty svg rest
      | edges => Some edges
      end
  end.

Definition findEdgePaths (svg : Element) : list Handle :=
  match firstNonEmpty svg MERMAID_SELECTORS.edges with
  | Some edges => edges
  | None =>
      let allPaths := querySelectorAll svg [tagSel "path"] in
      List.filter (isEdgeFallback svg) allPaths
  end.

Definition enhanceEdges (svg : Element) : list Handle * Element :=
  let edges := findEdgePaths svg in
  (edges, forEachHead edges (classList_add "animated-edge") svg).

(** Appends the particle group to the root; its handle is the index of the
    new last child. *)
Definition createParticleLayer (svg : Element) : Handle * Element :=
  let particleGroup := onHead (setClass "particle-layer") (createElement "g") in
  ([length (children svg)], appendChild particleGroup svg).

Definition isArrowMarkerId (id : option AttrVal) : bool :=
  match id with
  | Some (VStr id) =>
      negb (String.eqb id "") &&
      (includes id "arrowhead" || includes id "flowchart" || includes id "arrow")
  | _ => false
  end.

(** The callback of [fixArrowMarkers] on one marker. *)
Definition fixArrowMarker (marker : Head) : Head :=
  let id := getAttribute "id" marker in
  if isArrowMarkerId id then
    let currentRefX := parseFloat (attrOr (getAttribute "refX" marker) (VNum 5)) in
    let adjustedRefX := jsSub currentRefX (Some (25 # 10)) in
    setAttribute "refX" (toString adjustedRefX) marker
  else marker.

Definition fixArrowMarkers (svg : Element) : Element :=
  let markers := querySelectorAll svg [tagSel "marker"] in
  forEachHead markers fixArrowMarker svg.

Definition configureSVGRendering (svg : Element) : Element :=
  onHead (style_removeProperty "overflow") svg.

Record Enhanced := {
  enh_edges : list Handle;
  enh_particleGroup : Handle;
  enh_svg : Element;
}.

Definition enhanceSVG (svg : Element) : Enhanced :=
  let svg := configureSVGRendering svg in
  let svg := enhanceNodes svg in
  let svg := enhanceLabels svg in
  let svg := enhanceEdgeLabelBoxes svg in
  let '(edges, svg) := enhanceEdges svg in
  let svg := fixArrowMarkers svg in
  let '(particleGroup, svg) := createParticleLayer svg in
  {| enh_edges := edges; enh_particleGroup := particleGroup; enh_svg := svg |}.

(** ** particleUtils.ts *)

Definition createCircle (radius : Q) (fill : string) (opacity : Q)
    (className : string) : Element :=
  let circle := createElement "circle" in
  let circle := onHead (setAttribute "r" (VNum radius)) circle in
  let circle := onHead (setAttribute "fill" (VStr fill)) circle in
  let circle := onHead (setAttribute "opacity" (VNum opacity)) circle in
  let circle := onHead (setClass className) circle in
  let circle := onHead (setAttribute "cx" (VNum 0)) circle in
  let circle := onHead (setAttribute "cy" (VNum 0)) circle in
  circle.

(** [parent.appendChild(c)] for the element at handle [parent]; the result
    carries the handle of the new child. *)
Definition appendChildAt (parent : Handle) (c : Element) (svg : Element)
    : Handle * Element :=
  let n := match getEl parent svg with
           | Some p => length (children p)
           | None => 0%nat
           end in
  ((parent ++ [n])%list, updateAt parent (appendChild c) svg).

Record Particle := {
  p_outerGlow : Handle;
  p_core : Handle;
  p_innerGlow : Handle;
}.

Definition createParticle (particleGroup : Handle) (style : ParticleStyle)
    (svg : Element) : Particle * Element :=
  let outerGlow :=
    createCircle (radius (outerGlow style)) (fill (outerGlow style))
                 (opacity (outerGlow style)) "particle-outer-glow" in
  let core :=
    createCircle (radius (core style)) (fill (core style))
                 (opacity (core style)) "edge-particle" in
  let innerGlow :=
    createCircle (radius (innerGlow style)) (fill (innerGlow style))
                 (opacity (innerGlow style)) "particle-inner-glow" in
  let '(hOuter, svg) := appendChildAt particleGroup outerGlow svg in
  let '(hCore, svg) := appendChildAt particleGroup core svg in
  let '(hInner, svg) := appendChildAt particleGroup innerGlow svg in
  ({| p_outerGlow := hOuter; p_core := hCore; p_innerGlow := hInner |}, svg).

(** [Math.max(minDuration, Math.min(maxDuration, pathLength * durationMultiplier))] *)
Definition calculateDuration (pathLength : Q) : Q :=
  Qmax (minDuration PARTICLE_CONFIG)
       (Qmin (maxDuration PARTICLE_CONFIG)
             (pathLength * durationMultiplier PARTICLE_CONFIG)).

Record ParticleAnimation := {
  element : Handle;
  glowElement : Handle;
  path : Handle;
  pathLength : Q;
  duration : Q;
  offset : Q;
  startTime : Q;
}.

Definition easeInOutCubic (t : Q) : Q :=
  if Qltb t (5 # 10)
  then 4 * t * t * t
  else 1 - ((-2 * t + 2) ^ 3) / 2.

Definition calculateOpacity (progress : Q) : Q :=
  let fadeInEnd := 15 # 100 in
  let fadeOutStart := 85 # 100 in
  if Qltb progress fadeInEnd then progress / fadeInEnd
  else if Qltb fadeOutStart progress then (1 - progress) / (1 - fadeOutStart)
  else 1.

Record Loop := {
  loop_animations : list ParticleAnimation;
  sequenceStartTime : Q;
  totalSequenceDuration : Q;
}.

(** The page as the animation sees it: the graphic tree, the frame
    callbacks that the host has still to run (by request id), the next
    request id, and the variable [animationFrameId] that the closures of
    [startParticleAnimation] share. *)
Record World := {
  w_svg : Element;
  w_frames : list nat;
  w_nextFrame : nat;
  animationFrameId : option nat;
}.

Definition Cleanup := World -> World.

(** [for (let i = 0; i < l.length; i += 2) ... l[i]] *)
Fixpoint evenIndexed {A : Type} (l : list A) : list A :=
  match l with
  | [] => []
  | a :: r =>
      a :: match r with
           | [] => []
           | _ :: r' => evenIndexed r'
           end
  end.

Fixpoint forEachIndexed {A St : Type} (f : A -> nat -> St -> St) (i : nat)
    (l : list A) (s : St) : St :=
  match l with
  | [] => s
  | a :: r => forEachIndexed f (S i) r (f a i s)
  end.

Section Geometry.

(** The geometry of the laid-out paths, which the layout engine fixes:
    [path.getTotalLength()] and [path.getPointAtLength(d)], the latter
    [None] when it throws. *)
Variable getTotalLength : Handle -> Q.
Variable getPointAtLength : Handle -> Q -> option (Q * Q).

Fixpoint particleLoop (n : nat) (path : Handle) (pathLength duration : Q)
    (cumulativeStartTime : Q) (particleGroup : Handle)
    (animations : list ParticleAnimation) (svg : Element)
    : list ParticleAnimation * Element :=
  match n with
  | O => (animations, svg)
  | S n' =>
      let '(p, svg) := createParticle particleGroup PARTICLE_STYLE svg in
      let animations := (animations ++ [
        {| element := p_core p;
           glowElement := p_innerGlow p;
           path := path;
           pathLength := pathLength;
           duration := duration;
           offset := 0;
           startTime := cumulativeStartTime |} ])%list in
      let animations := (animations ++ [
        {| element := p_outerGlow p;
           glowElement := p_outerGlow p;
           path := path;
           pathLength := pathLength;
           duration := duration;
           offset := 0;
           startTime := cumulativeStartTime |} ])%list in
      particleLoop n' path pathLength duration cumulativeStartTime
                   particleGroup animations svg
  end.

Record PathParticles := {
  pp_animations : list ParticleAnimation;
  nextStartTime : Q;
  pp_svg : Element;
}.

Definition createParticlesForPath (path : Handle) (cumulativeStartTime : Q)
    (particleGroup : Handle) (svg : Element) : PathParticles :=
  let pathLength := getTotalLength path in
  let duration := calculateDuration pathLength in
  let '(animations, svg) :=
    particleLoop (particleCount PARTICLE_CONFIG) path pathLength duration
                 cumulativeStartTime particleGroup [] svg in
  {| pp_animations := animations;
     nextStartTime := cumulativeStartTime + duration;
     pp_svg := svg |}.

Definition isInActiveWindow (animation : ParticleAnimation)
    (currentTime totalSequenceDuration sequenceStartTime : Q) : option Q :=
  let timeSinceSequenceStart := currentTime - sequenceStartTime in
  match jsRem timeSinceSequenceStart totalSequenceDuration with
  | None => None
  | Some cycleTime =>
      let particleStartInSequence := startTime animation - sequenceStartTime in
      let particleEndInSequence := particleStartInSequence + duration animation in
      if Qle_bool particleStartInSequence cycleTime
         && Qltb cycleTime particleEndInSequence
      then Some cycleTime else None
  end.

(** [isInActiveWindow] gives the cycle time when the particle is in its
    window.  The number [0] is the text ['0']. *)
Definition updateParticlePosition (animation : ParticleAnimation)
    (currentTime : Q) (isCore : bool)
    (totalSequenceDuration sequenceStartTime : Q) (svg : Element) : Element :=
  match isInActiveWindow animation currentTime totalSequenceDuration
                         sequenceStartTime with
  | None =>
      let svg := updateAt (element animation)
                   (onHead (setAttribute "opacity" (VNum 0))) svg in
      if isCore && bool_decide (glowElement animation <> element animation)
      then updateAt (glowElement animation)
             (onHead (setAttribute "opacity" (VNum 0))) svg
      else svg
  | Some cycleTime =>
      let particleStartInSequence := startTime animation - sequenceStartTime in
      let progressInParticle :=
        (cycleTime - particleStartInSequence) / duration animation in
      let easedProgress := easeInOutCubic progressInParticle in
      let distance := easedProgress * pathLength animation in
      let opacity := calculateOpacity progressInParticle in
      match getPointAtLength (path animation) distance with
      | None => svg
      | Some (x, y) =>
          let svg := updateAt (element animation)
                       (onHead (setAttribute "cx" (VNum x))) svg in
          let svg := updateAt (element animation)
                       (onHead (setAttribute "cy" (VNum y))) svg in
          let svg := updateAt (element animation)
                       (onHead (setAttribute "opacity" (VNum opacity))) svg in
          if isCore && bool_decide (glowElement animation <> element animation)
          then
            let svg := updateAt (glowElement animation)
                         (onHead (setAttribute "cx" (VNum x))) svg in
            let svg := updateAt (glowElement animation)
                         (onHead (setAttribute "cy" (VNum y))) svg in
            updateAt (glowElement animation)
              (onHead (setAttribute "opacity" (VNum opacity))) svg
          else svg
      end
  end.

(** The loop of [startParticleAnimation] over the even indices. *)
Definition sequenceDuration (animations : list ParticleAnimation)
    (sequenceStartTime : Q) : Q :=
  fold_left
    (fun totalSequenceDuration anim =>
       let endTime := startTime anim + duration anim - sequenceStartTime in
       if Qltb totalSequenceDuration endTime then endTime
       else totalSequenceDuration)
    (evenIndexed animations) 0.

(** One run of the closure [animate]: every particle is updated for the
    time [currentTime] that [Date.now()] gives, and the next frame is
    requested. *)
Definition animate (l : Loop) (currentTime : Q) (w : World) : World :=
  let svg :=
    forEachIndexed
      (fun anim index svg =>
         let isCore := Nat.eqb (index mod 2) 0 in
         updateParticlePosition anim currentTime isCore
           (totalSequenceDuration l) (sequenceStartTime l) svg)
      0%nat (loop_animations l) (w_svg w) in
  let id := w_nextFrame w in
  {| w_svg := svg;
     w_frames := (w_frames w ++ [id])%list;
     w_nextFrame := S id;
     animationFrameId := Some id |}.

(** [cancelAnimationFrame(id)] *)
Definition cancelAnimationFrame (id : nat) (w : World) : World :=
  {| w_svg := w_svg w;
     w_frames := List.filter (fun j => negb (Nat.eqb j id)) (w_frames w);
     w_nextFrame := w_nextFrame w;
     animationFrameId := animationFrameId w |}.

Record Started := {
  st_cleanup : Cleanup;
  st_loop : option Loop;
  st_world : World;
}.

(** [currentTime] is the value of [Date.now()] in the first run of
    [animate].  The result carries the cleanup function, the loop that
    was started (none for an empty list) and the page. *)
Definition startParticleAnimation (animations : list ParticleAnimation)
    (currentTime : Q) (w : World) : Started :=
  match animations with
  | [] => {| st_cleanup := fun w => w; st_loop := None; st_world := w |}
  | first :: _ =>
      let sequenceStartTime := startTime first in
      let totalSequenceDuration := sequenceDuration animations sequenceStartTime in
      let l := {| loop_animations := animations;
                  sequenceStartTime := sequenceStartTime;
                  totalSequenceDuration := totalSequenceDuration |} in
      {| st_cleanup :=
           fun w =>
             match animationFrameId w with
             | Some id => if Nat.eqb id 0 then w else cancelAnimationFrame id w
             | None => w
             end;
         st_loop := Some l;
         st_world := animate l currentTime w |}
  end.

(** The host runs the oldest pending frame callback, if there is one and
    a loop owns it. *)
Definition runFrame (l : option Loop) (currentTime : Q) (w : World) : World :=
  match l, w_frames w with
  | Some l, _ :: rest =>
      animate l currentTime
        {| w_svg := w_svg w;
           w_frames := rest;
           w_nextFrame := w_nextFrame w;
           animationFrameId := animationFrameId w |}
  | _, _ => w
  end.

(** ** index.tsx: the particle setup *)

Fixpoint createAllParticles (edges : list Handle) (cumulativeStartTime : Q)
    (particleGroup : Handle) (animations : list ParticleAnimation)
    (svg : Element) : list ParticleAnimation * Q * Element :=
  match edges with
  | [] => (animations, cumulativeStartTime, svg)
  | edge :: rest =>
      let result :=
        createParticlesForPath edge cumulativeStartTime particleGroup svg in
      createAllParticles rest (nextStartTime result) particleGroup
        (animations ++ pp_animations result)%list (pp_svg result)
  end.

(** [now] is [Date.now()] at setup, [currentTime] is [Date.now()] in the
    first frame. *)
Definition setupParticleAnimations (now currentTime : Q) (w : World) : Started :=
  let enh := enhanceSVG (w_svg w) in
  let '(animations, _, svg) :=
    createAllParticles (enh_edges enh) now (enh_particleGroup enh) []
                       (enh_svg enh) in
  startParticleAnimation animations currentTime
    {| w_svg := svg;
       w_frames := w_frames w;
       w_nextFrame := w_nextFrame w;
       animationFrameId := None |}.

End Geometry.

(** ** The words of the specification *)

(** [clamp(x, lo, hi)]: [x] limited to the interval from [lo] to [hi]. *)
Definition clamp (x lo hi : Q) : Q :=
  if Qltb x lo then lo else if Qltb hi x then hi else x.

(** The Particle Scheduler as the specification describes it: a running
    cursor; for each edge in order a window that starts at the cursor and
    lasts [clamp(pathLength * 15, 2000, 3500)], after which the cursor
    advances by that duration.  A window is (start, duration). *)
Fixpoint schedule (pathLengths : list Q) (cursor : Q) : list (Q * Q) :=
  match pathLengths with
  | [] => []
  | len :: rest =>
      let duration := clamp (len * 15) 2000 3500 in
      (cursor, duration) :: schedule rest (cursor + duration)
  end.

Definition Qsum (l : list Q) : Q := fold_right Qplus 0 l.

(** [t] lies in the half-open window that starts at [s] and lasts [d]. *)
Definition inWindow (s d t : Q) : Prop := s <= t /\ t < s + d.

Definition getHead (h : Handle) (svg : Element) : option Head :=
  match getEl h svg with
  | Some e => Some (head e)
  | None => None
  end.

(** The attribute [n] of the element at [h], if the element exists. *)
Definition attrAt (n : string) (h : Handle) (svg : Element) : option (option AttrVal) :=
  getAttribute n <$> getHead h svg.

Definition window (a : ParticleAnimation) : Q * Q := (startTime a, duration a).

(** What a record says about scheduling: its edge and its window. *)
Definition summary (a : ParticleAnimation) : Handle * (Q * Q) := (path a, window a).

(** The windows that the loop of [setupParticleAnimations] hands out, edge
    by edge, from the cursor on. *)
Fixpoint windowsFrom (getTotalLength : Handle -> Q) (edges : list Handle)
    (cursor : Q) : list (Handle * (Q * Q)) :=
  match edges with
  | [] => []
  | edge :: rest =>
      let duration := calculateDuration (getTotalLength edge) in
      (edge, (cursor, duration)) :: windowsFrom getTotalLength rest (cursor + duration)
  end.

Fixpoint finalCursor (getTotalLength : Handle -> Q) (edges : list Handle)
    (cursor : Q) : Q :=
  match edges with
  | [] => cursor
  | edge :: rest =>
      finalCursor getTotalLength rest
        (cursor + calculateDuration (getTotalLength edge))
  end.

Definition twice {A : Type} (x : A) : list A := [x; x].

(** ** Sample data *)

Definition elem (tag : string) (classes : list string)
    (attrs : list (string * AttrVal)) (kids : list Element) : Element :=
  Node (mkHead tag classes (list_to_map attrs) ∅ "") kids.

Definition textElem (tag : string) (classes : list string)
    (attrs : list (string * AttrVal)) (content : string) : Element :=
  Node (mkHead tag classes (list_to_map attrs) ∅ content) [].

(** A flowchart with one edge and a particle on it. *)
Definition sampleAnimated : Element :=
  elem "svg" [] []
    [ elem "path" ["flowchart-link"] [] [];
      elem "g" ["particle-layer"] []
        [ elem "circle" ["particle-outer-glow"] [("cx", VNum 0); ("cy", VNum 0)] [];
          elem "circle" ["edge-particle"] [("cx", VNum 0); ("cy", VNum 0)] [];
          elem "circle" ["particle-inner-glow"] [("cx", VNum 0); ("cy", VNum 0)] [] ] ].

Definition sampleCore (start : Q) : ParticleAnimation :=
  {| element := [1; 1]%nat;
     glowElement := [1; 2]%nat;
     path := [0%nat];
     pathLength := 100;
     duration := 2000;
     offset := 0;
     startTime := start |}.

(** A straight horizontal path: the point at length [d] is [(d, 0)]. *)
Definition samplePoint (_ : Handle) (d : Q) : option (Q * Q) := Some (d, 0).

(** A flowchart with two edges and a particle on each. *)
Definition sampleTwoAnimated : Element :=
  elem "svg" [] []
    [ elem "path" ["flowchart-link"] [] [];
      elem "path" ["flowchart-link"] [] [];
      elem "g" ["particle-layer"] []
        [ elem "circle" ["particle-outer-glow"] [("cx", VNum 0); ("cy", VNum 0)] [];
          elem "circle" ["edge-particle"] [("cx", VNum 0); ("cy", VNum 0)] [];
          elem "circle" ["particle-inner-glow"] [("cx", VNum 0); ("cy", VNum 0)] [];
          elem "circle" ["particle-outer-glow"] [("cx", VNum 7); ("cy", VNum 9)] [];
          elem "circle" ["edge-particle"] [("cx", VNum 7); ("cy", VNum 9)] [];
          elem "circle" ["particle-inner-glow"] [("cx", VNum 7); ("cy", VNum 9)] [] ] ].

(** The records of the two particles: the first runs from [start] for
    2000 ms, the second for the 2000 ms after that. *)
Definition sampleTwoCores (start : Q) : list ParticleAnimation :=
  [ {| element := [2; 1]%nat; glowElement := [2; 0]%nat; path := [0%nat];
       pathLength := 100; duration := 2000; offset := 0; startTime := start |};
    {| element := [2; 4]%nat; glowElement := [2; 3]%nat; path := [1%nat];
       pathLength := 100; duration := 2000; offset := 0;
       startTime := start + 2000 |} ].

(** ** Views of the tree used to state the classifier's properties *)

(** How often the handle [h] occurs in [hs]. *)
Fixpoint occ (h : Handle) (hs : list Handle) : nat :=
  match hs with
  | [] => 0%nat
  | x :: r => if decide (x = h) then S (occ h r) else occ h r
  end.

(** The class tokens that the classifier adds. *)
Definition ADDED : list string :=
  ["animated-node"; "animated-label"; "animated-edge"].

(** What the selectors of this code can see of an element: its tag and its
    class tokens other than the added ones. *)
Definition stripHead (h : Head) : Head :=
  mkHead (tagName h)
         (List.filter (fun c => negb (bool_decide (c ∈ ADDED))) (classList h))
         ∅ ∅ "".

Fixpoint stripTree (e : Element) : Element :=
  match e with
  | Node h ks => Node (stripHead h) (map stripTree ks)
  end.

(** A selector names none of the added class tokens. *)
Definition compoundSafe (c : Compound) : bool :=
  forallb (fun k => negb (bool_decide (k ∈ ADDED))) (selClasses c).

Definition complexSafe (s : Complex) : bool :=
  match s with
  | Simple c => compoundSafe c
  | Desc a c => compoundSafe a && compoundSafe c
  end.

Definition selectorSafe (sel : Selector) : bool := forallb complexSafe sel.

(** The predicate [P] sees of the tree only what [stripHead] keeps. *)
Definition stripInv (P : list Head -> Element -> bool) : Prop :=
  forall ancs e, P ancs e = P (map stripHead ancs) (stripTree e).

(** The element at [h] lies inside a node container: some proper ancestor
    carries the class [node]. *)
Fixpoint insideNode (svg : Element) (h : Handle) : bool :=
  match h with
  | [] => false
  | i :: h' =>
      classList_contains "node" (head svg) ||
      match children svg !! i with
      | Some k => insideNode k h'
      | None => false
      end
  end.

(** The element at [h] lies inside a connector-marker definition. *)
Fixpoint insideMarker (svg : Element) (h : Handle) : bool :=
  match h with
  | [] => false
  | i :: h' =>
      String.eqb (toLowerCase (tagName (head svg))) "marker" ||
      match children svg !! i with
      | Some k => insideMarker k h'
      | None => false
      end
  end.

(** ** The callbacks of the classifier, field by field *)

(** [classList.add] on the token list. *)
Definition addTok (c : string) (l : list string) : list string :=
  if bool_decide (c ∈ l) then l else (l ++ [c])%list.

(** A change of an element that leaves tag and text alone and changes the
    class tokens, the attributes and the inline style each on its own. *)
Definition actOn (fc : list string -> list string)
    (fa : gmap string AttrVal -> gmap string AttrVal)
    (fs : gmap string string -> gmap string string) (x : Head) : Head :=
  mkHead (tagName x) (fc (classList x)) (fa (attributes x)) (fs (style x)) (text x).

(** What [enhanceNode] does to the attributes of an element with tag [t]. *)
Definition nodeAttrs (t : string) (a : gmap string AttrVal) : gmap string AttrVal :=
  if String.eqb t "rect" then <["ry" := VNum 10]> (<["rx" := VNum 10]> a) else a.

(** What one of the two blocks of [enhanceEdgeLabelRect] leaves in the
    size attribute, from the value [vd] that it finds there. *)
Definition growD (vd : option AttrVal) (min : Q) : option AttrVal :=
  let d := parseFloat (attrOr vd (VNum 0)) in
  let nd := jsMax d (Some min) in
  if jsStrictNe nd d then Some (toString nd) else vd.

(** ... and in the position attribute, from the size value [vd] and the
    position value [vp]. *)
Definition growP (vd vp : option AttrVal) (min : Q) : option AttrVal :=
  let d := parseFloat (attrOr vd (VNum 0)) in
  let nd := jsMax d (Some min) in
  if jsStrictNe nd d
  then Some (toString (jsSub (parseFloat (attrOr vp (VNum 0)))
                             (jsDiv (jsSub nd d) (Some 2))))
  else vp.

(** One block of [enhanceEdgeLabelRect] on the attributes: the size
    attribute [dim] raised to [min], the position attribute [pos] moved by
    half of the growth. *)
Definition grow (dim pos : string) (min : Q) (a : gmap string AttrVal)
    : gmap string AttrVal :=
  let d := parseFloat (attrOr (a !! dim) (VNum 0)) in
  let nd := jsMax d (Some min) in
  if jsStrictNe nd d then
    let a := <[dim := toString nd]> a in
    let p := parseFloat (attrOr (a !! pos) (VNum 0)) in
    <[pos := toString (jsSub p (jsDiv (jsSub nd d) (Some 2)))]> a
  else a.

(** The same block on the element, for the size [d] read beforehand. *)
Definition growHead (d : Num) (dim pos : string) (min : Q) (rect : Head) : Head :=
  let nd := jsMax d (Some min) in
  if jsStrictNe nd d then
    let rect := setAttribute dim (toString nd) rect in
    let p := parseFloat (attrOr (getAttribute pos rect) (VNum 0)) in
    setAttribute pos (toString (jsSub p (jsDiv (jsSub nd d) (Some 2)))) rect
  else rect.

(** What [enhanceEdgeLabelRect] does to the attributes. *)
Definition boxAttrs (a : gmap string AttrVal) : gmap string AttrVal :=
  let a := grow "width" "x" (EDGE_LABEL_MIN_SIZE.width + 20) a in
  let a := grow "height" "y" (EDGE_LABEL_MIN_SIZE.height + 10) a in
  <["ry" := VNum EDGE_LABEL_MIN_SIZE.borderRadius]>
    (<["rx" := VNum EDGE_LABEL_MIN_SIZE.borderRadius]> a).

(** What [fixArrowMarker] leaves in [refX], from the values of [id] and
    [refX] that it finds. *)
Definition markerRef (vid vref : option AttrVal) : option AttrVal :=
  if isArrowMarkerId vid
  then Some (toString (jsSub (parseFloat (attrOr vref (VNum 5))) (Some (25 # 10))))
  else vref.

(** What [fixArrowMarker] does to the attributes. *)
Definition markerAttrs (a : gmap string AttrVal) : gmap string AttrVal :=
  if isArrowMarkerId (a !! "id")
  then <["refX" := toString (jsSub (parseFloat (attrOr (a !! "refX") (VNum 5)))
                                   (Some (25 # 10)))]> a
  else a.

(** The attribute names that the node and label-box callbacks read or
    write. *)
Definition BOX_KEYS : list string := ["width"; "x"; "height"; "y"; "rx"; "ry"].

(** A function on attribute maps is supported on [K]: it reads and writes
    only names of [K]. *)
Definition supported (K : list string)
    (F : gmap string AttrVal -> gmap string AttrVal) : Prop :=
  (forall a n, n ∉ K -> F a !! n = a !! n) /\
  (forall a b n, (forall k, k ∈ K -> a !! k = b !! k) -> n ∈ K ->
     F a !! n = F b !! n).

(** The attribute names that [fixArrowMarker] reads or writes. *)
Definition MARKER_KEYS : list string := ["id"; "refX"].

(** What one run of the classifier passes before the marker repair does to
    an element: [fc], [fn], [fl], [fb], [fe] say whether it is the root,
    a node shape, a label, an edge-label rectangle, an edge. *)
Definition passHead (fc fn fl fb fe : bool) (x : Head) : Head :=
  let x := if fc then style_removeProperty "overflow" x else x in
  let x := if fn then enhanceNode x else x in
  let x := if fl then classList_add "animated-label" x else x in
  let x := if fb then enhanceEdgeLabelRect x else x in
  if fe then classList_add "animated-edge" x else x.

(** The three parts of [passHead]: on the class tokens, on the attributes
    of an element with tag [t], on the inline style. *)
Definition passClasses (fn fl fe : bool) (l : list string) : list string :=
  let l := if fn then addTok "animated-node" l else l in
  let l := if fl then addTok "animated-label" l else l in
  if fe then addTok "animated-edge" l else l.

Definition passAttrs (fn fb : bool) (t : string) (a : gmap string AttrVal)
    : gmap string AttrVal :=
  let a := if fn then nodeAttrs t a else a in
  if fb then boxAttrs a else a.

Definition passStyle (fc : bool) (s : gmap string string) : gmap string string :=
  if fc then delete "overflow" s else s.

(** The passes of [enhanceSVG] before the marker repair and the particle
    layer. *)
Definition enhanceCore (svg : Element) : list Handle * Element :=
  let svg := configureSVGRendering svg in
  let svg := enhanceNodes svg in
  let svg := enhanceLabels svg in
  let svg := enhanceEdgeLabelBoxes svg in
  enhanceEdges svg.

(** The group that [createParticleLayer] appends. *)
Definition particleLayer : Element :=
  onHead (setClass "particle-layer") (createElement "g").

(** The handles that a run of the classifier acts on, as found in [svg]. *)
Definition nodeHandles (svg : Element) : list Handle :=
  querySelectorAll svg MERMAID_SELECTORS.nodes.

Definition labelHandles (svg : Element) : list Handle :=
  (querySelectorAll svg MERMAID_SELECTORS.nodeLabels
   ++ querySelectorAll svg MERMAID_SELECTORS.edgeLabels)%list.

Definition boxHandles (svg : Element) : list Handle :=
  querySelectorAll svg MERMAID_SELECTORS.edgeLabelRects.

Definition markerHandles (svg : Element) : list Handle :=
  querySelectorAll svg [tagSel "marker"].

Definition hit (h : Handle) (hs : list Handle) : bool :=
  negb (Nat.eqb (occ h hs) 0).

(** What the passes before the marker repair do to the element at [h] of
    [svg]. *)
Definition passAt (svg : Element) (h : Handle) : Head -> Head :=
  passHead (bool_decide (h = [])) (hit h (nodeHandles svg))
           (hit h (labelHandles svg)) (hit h (boxHandles svg))
           (hit h (findEdgePaths svg)).

(** The head of the parent of the element at [h]. *)
Definition parentHead (svg : Element) (h : Handle) : option Head :=
  match parentHandle h with
  | Some p => getHead p svg
  | None => None
  end.

(** The test of the fallback of [findEdgePaths] on the head of the parent. *)
Definition edgeOk (parent : option Head) : bool :=
  negb (match parent with
        | Some p => classList_contains "node" p
        | None => false
        end) &&
  match parent with
  | Some p => negb (String.eqb (toLowerCase (tagName p)) "marker")
  | None => true
  end.

(** ** Sample diagrams *)

(** A flowchart as the layout engine draws it: an arrowhead marker, two
    nodes, an edge, an edge label with its box. *)
Definition sampleFlowchart : Element :=
  elem "svg" [] []
    [ elem "defs" [] []
        [ elem "marker" [] [("id", VStr "flowchart-pointEnd"); ("refX", VNum 5)]
            [ elem "path" ["arrowMarkerPath"] [] [] ] ];
      elem "g" ["node"] []
        [ elem "rect" ["basic"] [("width", VNum 150); ("height", VNum 54)] [];
          textElem "span" ["nodeLabel"] [] "Start" ];
      elem "g" ["node"] []
        [ elem "rect" ["basic"] [("width", VNum 150); ("height", VNum 54)] [];
          textElem "span" ["nodeLabel"] [] "End" ];
      elem "path" ["flowchart-link"] [] [];
      elem "g" ["edgeLabel"] []
        [ elem "rect" [] [("x", VNum 10); ("y", VNum 20); ("width", VNum 30);
                          ("height", VNum 100)] [];
          textElem "text" [] [] "Yes" ] ].

(** A diagram with none of the edge classes: a node whose outline is a path
    inside a label container, and one connector path. *)
Definition sampleNested : Element :=
  elem "svg" [] []
    [ elem "g" ["node"] []
        [ elem "g" ["label-container"] []
            [ elem "path" [] [] [] ] ];
      elem "path" ["transition"] [] [] ].

(** A numeric attribute as the code reads it: [parseFloat(el.getAttribute(n) || '0')]. *)
Definition numAttr (n : string) (hd : Head) : Num :=
  parseFloat (attrOr (getAttribute n hd) (VNum 0)).

(** ** index.tsx: theming *)

Record CustomTheme := {
  primaryColor : option string;
  secondaryColor : option string;
  backgroundColor : option string;
  textColor : option string;
  particleColor : option string;
  strokeWidth : option Q;
  fontSize : option Q;
}.

(** Truthiness of an optional string: present and not empty. *)
Definition truthyString (o : option string) : option string :=
  match o with
  | Some EmptyString => None
  | Some s => Some s
  | None => None
  end.

(** Truthiness of an optional number: present and not zero. *)
Definition truthyNumber (o : option Q) : option Q :=
  match o with
  | Some q => if Qeq_bool q 0 then None else Some q
  | None => None
  end.

Definition nl : string := String (ascii_of_nat 10) EmptyString.

(** A line of a template literal of [applyCustomTheme]: a line break, ten
    spaces, the rule. *)
Definition ruleLine (s : string) : string := nl ++ "          " ++ s.

(** The end of such a template literal: a line break and eight spaces. *)
Definition ruleEnd : string := nl ++ "        ".

Section Theming.

(** [String(n)] for a number [n] placed in a template literal. *)
Variable numberToString : Q -> string.

(** The text that [applyCustomTheme] builds in [customStyles]. *)
Definition customStyles (theme : CustomTheme) : string :=
  let customStyles := "" in
  let customStyles :=
    match truthyString (primaryColor theme) with
    | Some c =>
        customStyles
        ++ ruleLine (".animated-node { stroke: " ++ c ++ " !important; }")
        ++ ruleLine (".animated-edge { stroke: " ++ c ++ " !important; }")
        ++ ruleLine (".actor { stroke: " ++ c ++ " !important; }")
        ++ ruleLine (".messageLine0, .messageLine1 { stroke: " ++ c ++ " !important; }")
        ++ ruleEnd
    | None => customStyles
    end in
  let customStyles :=
    match truthyNumber (strokeWidth theme) with
    | Some w =>
        customStyles
        ++ ruleLine (".animated-node { stroke-width: " ++ numberToString w ++ " !important; }")
        ++ ruleLine (".animated-edge { stroke-width: " ++ numberToString w ++ " !important; }")
        ++ ruleEnd
    | None => customStyles
    end in
  let customStyles :=
    match truthyString (textColor theme) with
    | Some c =>
        customStyles
        ++ ruleLine (".nodeLabel, .edgeLabel, .actor text, .messageText { fill: "
                     ++ c ++ " !important; }")
        ++ ruleEnd
    | None => customStyles
    end in
  let customStyles :=
    match truthyNumber (fontSize theme) with
    | Some f =>
        customStyles
        ++ ruleLine (".nodeLabel, .edgeLabel text, .actor text { font-size: "
                     ++ numberToString f ++ "px !important; }")
        ++ ruleEnd
    | None => customStyles
    end in
  customStyles.

(** [theme] is [None] when the [theme] prop is not given. *)
Definition applyCustomTheme (theme : option CustomTheme) (svg : Element) : Element :=
  match theme with
  | None => svg
  | Some theme =>
      let styleElement := createElement "style" in
      let customStyles := customStyles theme in
      if negb (String.eqb customStyles "") then
        let styleElement := onHead (setTextContent customStyles) styleElement in
        appendChild styleElement svg
      else svg
  end.

End Theming.

(** The texts of the style blocks that are children of the graphic, in
    order. *)
Definition styleBlocks (svg : Element) : list string :=
  map (fun e => text (head e))
      (List.filter (fun e => String.eqb (tagName (head e)) "style") (children svg)).

(** The theming step run once for each theme of a sequence on the same
    graphic. *)
Definition applyThemes (numberToString : Q -> string) (themes : list CustomTheme)
    (svg : Element) : Element :=
  fold_left (fun svg theme => applyCustomTheme numberToString (Some theme) svg)
            themes svg.

Definition themeOf (primary : string) : CustomTheme :=
  {| primaryColor := Some primary; secondaryColor := None;
     backgroundColor := None; textColor := None; particleColor := None;
     strokeWidth := None; fontSize := None |}.

(** A stand-in for [String(n)] where no number is printed. *)
Definition noNumber (_ : Q) : string := "".

(** ** index.tsx: the actor-image augmenter *)

(** *** Regular expressions *)

(** The pieces that the regular expression of [preprocessChart] is made
    of: a literal text, and [c+] for a character class [c], greedy and
    backtracking, inside a capturing group or not. *)
Inductive RegexItem :=
| Lit (s : string)
| Plus (capture : bool) (class : ascii -> bool).

Fixpoint dropStr (n : nat) (s : string) {struct n} : string :=
  match n, s with
  | O, _ => s
  | S n', String _ r => dropStr n' r
  | S _, EmptyString => EmptyString
  end.

Fixpoint takeStr (n : nat) (s : string) {struct n} : string :=
  match n, s with
  | O, _ => EmptyString
  | S n', String c r => String c (takeStr n' r)
  | S _, EmptyString => EmptyString
  end.

(** The length of the longest prefix of [s] whose characters are in the
    class. *)
Fixpoint runLength (class : ascii -> bool) (s : string) : nat :=
  match s with
  | EmptyString => 0%nat
  | String c r => if class c then S (runLength class r) else 0%nat
  end.

(** A match of the items at the start of [s]: the captured texts and the
    text after the match.  [c+] takes the longest run first and gives
    characters back one by one until the rest matches. *)
Fixpoint matchItems (items : list RegexItem) (s : string)
    : option (list string * string) :=
  match items with
  | [] => Some ([], s)
  | Lit l :: rest =>
      if startsWith s l then matchItems rest (dropStr (String.length l) s)
      else None
  | Plus capture class :: rest =>
      (fix try (k : nat) : option (list string * string) :=
         match k with
         | O => None
         | S k' =>
             match matchItems rest (dropStr k s) with
             | Some (captures, after) =>
                 Some (if capture then takeStr k s :: captures else captures, after)
             | None => try k'
             end
         end) (runLength class s)
  end.

(** [/participant\s+img:([^\s]+)\s+([^\n]+)/] *)
Definition PARTICIPANT_IMG : list RegexItem :=
  [ Lit "participant"; Plus false isSpace; Lit "img:";
    Plus true (fun c => negb (isSpace c)); Plus false isSpace;
    Plus true (fun c => negb (isNewline c)) ].

(** *** preprocessChart *)

(** [chart.replace(/.../g, callback)] from left to right, with the
    [imageMappings] that the callback fills: [skip] characters of [s]
    belong to the match just replaced. *)
Fixpoint replaceParticipants (s : string) (skip : nat)
    (imageMappings : gmap string string) : string * gmap string string :=
  match s with
  | EmptyString => (EmptyString, imageMappings)
  | String c r =>
      match skip with
      | S k => replaceParticipants r k imageMappings
      | O =>
          match matchItems PARTICIPANT_IMG s with
          | Some ([imgPath; actorName], after) =>
              let trimmedName := trim actorName in
              let imageMappings := <[trimmedName := imgPath]> imageMappings in
              let '(out, imageMappings) :=
                replaceParticipants r
                  (String.length s - String.length after - 1) imageMappings in
              ("participant " ++ actorName ++ out, imageMappings)
          | _ =>
              let '(out, imageMappings) := replaceParticipants r 0 imageMappings in
              (String c out, imageMappings)
          end
      end
  end.

Record Preprocessed := {
  cleanedChart : string;
  imageMappings : gmap string string;
}.

Definition preprocessChart (chart : string) : Preprocessed :=
  let '(cleanedChart, imageMappings) := replaceParticipants chart 0 ∅ in
  {| cleanedChart := cleanedChart; imageMappings := imageMappings |}.

(** *** addActorImages *)

(** [el.querySelector(sel)], as a handle relative to [el]. *)
Definition querySelector (el : Element) (sel : Selector) : option Handle :=
  match querySelectorAll el sel with
  | [] => None
  | h :: _ => Some h
  end.

(** [el.getAttribute('class') || ''] *)
Definition className (hd : Head) : string := String.concat " " (classList hd).

(** A handle after a new first child of the root was inserted. *)
Definition shiftHandle (h : Handle) : Handle :=
  match h with
  | [] => []
  | i :: r => S i :: r
  end.

Definition isActorCandidate (g : Element) : bool :=
  let hasRect := match querySelector g [tagSel "rect"] with Some _ => true | None => false end in
  let hasText := match querySelector g [tagSel "text"] with Some _ => true | None => false end in
  let className := className (head g) in
  hasRect && hasText &&
  (includes className "actor" ||
   match querySelector g [tagSel "line"] with Some _ => true | None => false end).

Definition setAttributes (l : list (string * AttrVal)) (hd : Head) : Head :=
  fold_left (fun hd nv => setAttribute (fst nv) (snd nv) hd) l hd.

Section ActorImages.

(** The text that [Math.random().toString(36).substr(2, 9)] gives at its
    [k]-th use. *)
Variable randomText : nat -> string.

(** The body of the [forEach] of [addActorImages] for one actor: the new
    tree, the number of random texts used, and whether a [defs] element
    was inserted before the first child of the root. *)
Definition attachActorImage (imageMappings : gmap string string)
    (actor : Handle) (k : nat) (svg : Element) : Element * nat * bool :=
  match getEl actor svg with
  | None => (svg, k, false)
  | Some actorEl =>
      match querySelector actorEl [tagSel "text"],
            querySelector actorEl [tagSel "rect"] with
      | Some textRel, Some rectRel =>
          let textElement := (actor ++ textRel)%list in
          let rect := (actor ++ rectRel)%list in
          let actorName :=
            match getEl textElement svg with
            | Some t => trim (textContent t)
            | None => ""
            end in
          match truthyString (imageMappings !! actorName),
                getHead rect svg with
          | Some imgPath, Some rectHead =>
              let x := numAttr "x" rectHead in
              let y := numAttr "y" rectHead in
              let height := numAttr "height" rectHead in
              let logoSize := 48 in
              let padding := 20 in
              let imageX := jsAdd x (Some padding) in
              let imageY := jsAdd y (jsDiv (jsSub height (Some logoSize)) (Some 2)) in
              let borderRadius := 8 in
              let clipPathId := "actor-logo-clip-" ++ randomText k in
              let '(defs, svg, shifted) :=
                match querySelector svg [tagSel "defs"] with
                | Some d => (d, svg, false)
                | None => ([0%nat], insertFirst (createElement "defs") svg, true)
                end in
              let actor := if shifted then shiftHandle actor else actor in
              let textElement := if shifted then shiftHandle textElement else textElement in
              let clipRect :=
                onHead (setAttributes
                          [("x", toString imageX); ("y", toString imageY);
                           ("width", VNum logoSize); ("height", VNum logoSize);
                           ("rx", VNum borderRadius); ("ry", VNum borderRadius)])
                       (createElement "rect") in
              let clipPath :=
                appendChild clipRect
                  (onHead (setAttribute "id" (VStr clipPathId))
                          (createElement "clipPath")) in
              let svg := updateAt defs (appendChild clipPath) svg in
              let image :=
                onHead (fun hd =>
                          setAttribute "clip-path" (VStr ("url(#" ++ clipPathId ++ ")"))
                            (setClass "actor-logo"
                               (setAttributes
                                  [("href", VStr imgPath);
                                   ("x", toString imageX); ("y", toString imageY);
                                   ("width", VNum logoSize); ("height", VNum logoSize)]
                                  hd)))
                       (createElement "image") in
              let textX :=
                match getHead textElement svg with
                | Some t => numAttr "x" t
                | None => None
                end in
              let textShift := logoSize + 4 in
              let svg :=
                updateAt textElement
                  (onHead (setAttribute "x"
                             (toString (jsAdd textX (Some (textShift / 2)))))) svg in
              (updateAt actor (appendChild image) svg, S k, shifted)
          | _, _ => (svg, k, false)
          end
      | _, _ => (svg, k, false)
      end
  end.

(** The [forEach] over the actor candidates.  The handles were taken
    before the loop; [shifts] counts the [defs] elements inserted since,
    each of which moves every element of the list one place on. *)
Fixpoint forEachActor (imageMappings : gmap string string)
    (actors : list Handle) (k shifts : nat) (svg : Element) : Element :=
  match actors with
  | [] => svg
  | actor :: rest =>
      let actor := Nat.iter shifts shiftHandle actor in
      let '(svg, k, shifted) := attachActorImage imageMappings actor k svg in
      forEachActor imageMappings rest k
        (if shifted then S shifts else shifts) svg
  end.

Definition addActorImages (svg : Element) (imageMappings : gmap string string)
    : Element :=
  if Nat.eqb (size imageMappings) 0 then svg
  else
    let allGroups := querySelectorAll svg [tagSel "g"] in
    let actorCandidates :=
      List.filter
        (fun g => match getEl g svg with
                  | Some e => isActorCandidate e
                  | None => false
                  end)
        allGroups in
    forEachActor imageMappings actorCandidates 0 0 svg.

End ActorImages.



(** A rendering of the scenario in the markup of the layout engine for
    sequence diagrams: each actor on top is a group with its lifeline and
    a box with the name; the message is a line with its text; the actors
    are mirrored at the bottom without lifeline. *)
Definition scenarioRendered : Element :=
  elem "svg" [] []
    [ elem "g" [] []
        [ elem "line" ["actor-line"] [] [];
          elem "g" [] []
            [ elem "rect" ["actor"; "actor-top"]
                [("x", VNum 0); ("y", VNum 0); ("width", VNum 300); ("height", VNum 120)] [];
              textElem "text" ["actor"; "actor-box"] [("x", VNum 150); ("y", VNum 60)] "A" ] ];
      elem "g" [] []
        [ elem "line" ["actor-line"] [] [];
          elem "g" [] []
            [ elem "rect" ["actor"; "actor-top"]
                [("x", VNum 450); ("y", VNum 0); ("width", VNum 300); ("height", VNum 120)] [];
              textElem "text" ["actor"; "actor-box"] [("x", VNum 600); ("y", VNum 60)] "B" ] ];
      elem "line" ["messageLine0"] [] [];
      textElem "text" ["messageText"] [] "hi";
      elem "g" [] []
        [ elem "rect" ["actor"; "actor-bottom"]
            [("x", VNum 0); ("y", VNum 300); ("width", VNum 300); ("height", VNum 120)] [];
          textElem "text" ["actor"; "actor-box"] [("x", VNum 150); ("y", VNum 360)] "A" ];
      elem "g" [] []
        [ elem "rect" ["actor"; "actor-bottom"]
            [("x", VNum 450); ("y", VNum 300); ("width", VNum 300); ("height", VNum 120)] [];
          textElem "text" ["actor"; "actor-box"] [("x", VNum 600); ("y", VNum 360)] "B" ] ].

Definition sampleRandomText (k : nat) : string := "k3j9x0q1z".

(** Every character of [s] is in the class. *)
Fixpoint allChars (class : ascii -> bool) (s : string) : bool :=
  match s with
  | EmptyString => true
  | String c r => class c && allChars class r
  end.

(** [s] does not begin with a character of the class. *)
Definition stopsRun (class : ascii -> bool) (s : string) : bool :=
  match s with
  | EmptyString => true
  | String c _ => negb (class c)
  end.

Definition nonEmpty (s : string) : bool :=
  match s with
  | EmptyString => false
  | String _ _ => true
  end.

(** A declaration [participant img:<locator> <displayName>]: white space
    [ws1] and [ws2] between the three parts, a locator without white
    space, a name that does not begin with white space and runs to the end
    of its line, where [rest] begins. *)
Definition wellFormedDeclaration (ws1 loc ws2 name rest : string) : bool :=
  nonEmpty ws1 && allChars isSpace ws1 &&
  nonEmpty loc && allChars (fun c => negb (isSpace c)) loc &&
  nonEmpty ws2 && allChars isSpace ws2 &&
  nonEmpty name && allChars (fun c => negb (isNewline c)) name &&
  stopsRun isSpace name &&
  stopsRun (fun c => negb (isNewline c)) rest.

(** ** exportUtils.ts: inlining of images and styles *)

(** How a promise settles. *)
Inductive Outcome (A : Type) :=
| Resolved (value : A)
| Rejected (reason : string).

Arguments Resolved {A} value.
Arguments Rejected {A} reason.

(** [await p; k] inside an async function or a [try] block. *)
Definition await {A B : Type} (p : Outcome A) (k : A -> Outcome B) : Outcome B :=
  match p with
  | Resolved a => k a
  | Rejected reason => Rejected reason
  end.

Notation "'do' x <- p ; k" := (await p (fun x => k))
  (at level 10, x name, p at level 100, k at level 200).

(** [try { body } catch (e) { handler e }] around awaited code. *)
Definition tryCatch {A : Type} (body : Outcome A) (handler : string -> Outcome A)
    : Outcome A :=
  match body with
  | Resolved a => Resolved a
  | Rejected reason => handler reason
  end.

(** What an async function hands to [return]: a value, or a promise that
    it does not await and whose settlement its own promise takes over. *)
Inductive Returned (A : Type) :=
| Value (a : A)
| Promise (p : Outcome A).

Arguments Value {A} a.
Arguments Promise {A} p.

(** The promise of an async function whose body ran to [r]. *)
Definition settle {A : Type} (r : Outcome (Returned A)) : Outcome A :=
  match r with
  | Resolved (Value a) => Resolved a
  | Resolved (Promise p) => p
  | Rejected reason => Rejected reason
  end.

(** The browser as the export code meets it.  A response, a blob and a
    loaded image are named by texts. *)
Record Browser := {
  (** [fetch(url)]: rejected on a network error or a blocked request *)
  fetch : string -> Outcome string;
  (** [response.blob()] *)
  blob : string -> Outcome string;
  (** [FileReader.readAsDataURL(blob)]: [onerror] rejects, [onloadend]
      resolves with the result *)
  readAsDataURL : string -> Outcome string;
  (** [new Image()] with [src = url]: [onload] or [onerror] *)
  loadImage : string -> Outcome string;
  (** [canvas.getContext('2d')] is not null *)
  getContext2d : string -> bool;
  (** [ctx.drawImage(img, 0, 0); canvas.toDataURL('image/png')], which
      throws on a tainted canvas *)
  drawAndEncode : string -> Outcome string;
}.

(** The transparent 1x1 pixel of [urlToDataUri]. *)
Definition PLACEHOLDER : string :=
  "data:image/png;base64,iVBORw0KGgoAAAANSUhEUgAAAAEAAAABCAYAAAAfFcSJAAAADUlEQVR42mNk+M9QDwADhgGAWjR9awAAAABJRU5ErkJggg==".

Definition loadImageAsDataUri (b : Browser) (url : string) : Outcome string :=
  do img <- loadImage b url;
  if getContext2d b img then drawAndEncode b img
  else Rejected "Failed to get canvas context".

(** The [try] block awaits [fetch] and [response.blob()] and returns the
    promise of the file reader without awaiting it; the [catch] block
    awaits what it returns. *)
Definition urlToDataUri (b : Browser) (url : string) : Outcome string :=
  settle
    (tryCatch
       (do response <- fetch b url;
        do blob <- blob b response;
        Resolved (Promise (readAsDataURL b blob)))
       (fun error =>
          tryCatch
            (do dataUri <- loadImageAsDataUri b url;
             Resolved (Value dataUri))
            (fun imgError => Resolved (Value PLACEHOLDER)))).

(** The other copy of exportUtils.ts in the repository, whose [catch]
    block returns the locator itself. *)
Module Bundled.

Definition urlToDataUri (b : Browser) (url : string) : Outcome string :=
  settle
    (tryCatch
       (do response <- fetch b url;
        do blob <- blob b response;
        Resolved (Promise (readAsDataURL b blob)))
       (fun error => Resolved (Value url))).

End Bundled.

(** [document.styleSheets]: the rules of each sheet, or [None] for a sheet
    whose [cssRules] cannot be read. *)
Definition StyleSheets := list (option (list string)).

Fixpoint collectStyles (sheets : StyleSheets) : list string :=
  match sheets with
  | [] => []
  | Some rules :: rest => (rules ++ collectStyles rest)%list
  | None :: rest => collectStyles rest
  end.

(** [href] of an image as [inlineStyles] reads it:
    [getAttribute('href') || getAttribute('xlink:href')]. *)
Definition imageHref (hd : Head) : option AttrVal :=
  match getAttribute "href" hd with
  | Some (VStr EmptyString) | None => getAttribute "xlink:href" hd
  | Some v => Some v
  end.

(** The images that [inlineStyles] converts: those whose [href] starts
    with [http]. *)
Definition externalImages (svg : Element) : list (Handle * string) :=
  flat_map
    (fun img =>
       match getHead img svg with
       | Some hd =>
           match imageHref hd with
           | Some (VStr href) => if startsWith href "http" then [(img, href)] else []
           | _ => []
           end
       | None => []
       end)
    (querySelectorAll svg [tagSel "image"]).

(** [Promise.all] over the conversions, each followed by its [then]
    callback on the clone. *)
Fixpoint convertImages (b : Browser) (images : list (Handle * string))
    (svg : Element) : Outcome Element :=
  match images with
  | [] => Resolved svg
  | (img, href) :: rest =>
      do dataUri <- urlToDataUri b href;
      convertImages b rest
        (updateAt img
           (onHead (fun hd => removeAttribute "xlink:href"
                                (setAttribute "href" (VStr dataUri) hd))) svg)
  end.

Definition inlineStyles (b : Browser) (sheets : StyleSheets) (svg : Element)
    : Outcome Element :=
  let svgClone := svg in
  let allStyles := collectStyles sheets in
  let styleElement :=
    onHead (setTextContent (String.concat nl allStyles)) (createElement "style") in
  let svgClone := insertFirst styleElement svgClone in
  convertImages b (externalImages svgClone) svgClone.

(** A page in which the request for the image is answered and the body is
    read, but the file reader fails on the blob. *)
Definition readerFails : Browser := {|
  fetch := fun url => Resolved "response";
  blob := fun r => Resolved "blob";
  readAsDataURL := fun _ => Rejected "NotReadableError";
  loadImage := fun url => Resolved "img";
  getContext2d := fun _ => true;
  drawAndEncode := fun _ => Resolved "data:image/png;base64,AAAA";
|}.

Definition sampleWithLogo : Element :=
  elem "svg" [] []
    [ elem "g" [] []
        [ elem "rect" ["actor"] [] [];
          elem "image" ["actor-logo"] [("href", VStr "https://x/a.png")] [] ] ].

(** ** Views of the animation used to state further properties *)

(** The host runs the pending frame callback once for each of the frame
    times, in order. *)
Definition runFrames (getPointAtLength : Handle -> Q -> option (Q * Q))
    (l : option Loop) (times : list Q) (w : World) : World :=
  fold_left (fun w t => runFrame getPointAtLength l t w) times w.

(** The element [y] is the element [x] except for the attributes named in
    [K]. *)
Definition sameBut (K : list string) (x y : Head) : Prop :=
  tagName y = tagName x /\ classList y = classList x /\
  style y = style x /\ text y = text x /\
  forall n, n ∉ K -> getAttribute n y = getAttribute n x.

(** The attributes that the animation loop writes. *)
Definition PARTICLE_KEYS : list string := ["cx"; "cy"; "opacity"].

(** A page with the sample particle on its edge, no frame pending, whose
    next animation frame request gets the id 1. *)
Definition sampleAnimatedPage : World :=
  {| w_svg := sampleAnimated; w_frames := []; w_nextFrame := 1;
     animationFrameId := None |}.

(** The trees agree at every handle except for the attributes in [K]. *)
Definition treeSameBut (K : list string) (svg svg' : Element) : Prop :=
  forall h, option_Forall2 (sameBut K) (getHead h svg) (getHead h svg').


(** What holds of the page while the loop runs: one frame is pending,
    its id is the one that the closure variable holds, and it is not 0. *)
Definition loopInv (w : World) : Prop :=
  exists id, w_frames w = [id] /\ animationFrameId w = Some id /\
             (0 < id)%nat /\ w_nextFrame w = S id.


(** The heads of the ancestors of the element at [h] in [e], the parent
    first, followed by [ancs], the ancestors of [e] itself. *)
Fixpoint ancestorsAt (h : Handle) (e : Element) (ancs : list Head) : list Head :=
  match h with
  | [] => ancs
  | i :: h' =>
      match children e !! i with
      | Some k => ancestorsAt h' k (head e :: ancs)
      | None => ancs
      end
  end.

(** The trimmed texts of the [text] elements of the graphic: the names
    under which [addActorImages] can look up an image. *)
Definition textNames (svg : Element) : list string :=
  flat_map
    (fun h => match getEl h svg with
              | Some e => [trim (textContent e)]
              | None => []
              end)
    (querySelectorAll svg [tagSel "text"]).

(** ** index.tsx: the label of a node, for the event callbacks *)

(** [s.split('\n')] *)
Fixpoint splitLines (s : string) : list string :=
  match s with
  | EmptyString => [EmptyString]
  | String c r =>
      if isNewline c then EmptyString :: splitLines r
      else match splitLines r with
           | l :: ls => String c l :: ls
           | [] => [String c EmptyString]
           end
  end.

(** [text && text.length > 0 && text.length < 200] *)
Definition isMeaningful (text : string) : bool :=
  negb (String.eqb text "") && Nat.ltb 0 (String.length text)
  && Nat.ltb (String.length text) 200.

(** ['text', '.nodeLabel', '.label', 'tspan', 'foreignObject'] *)
Definition labelSelectors : list Selector :=
  [ [tagSel "text"]; [classSel "nodeLabel"]; [classSel "label"];
    [tagSel "tspan"]; [tagSel "foreignObject"] ].

(** The loop of [findNodeLabel] over the label selectors. *)
Fixpoint labelBySelectors (searchElement : Element) (selectors : list Selector)
    : option string :=
  match selectors with
  | [] => None
  | selector :: rest =>
      match querySelector searchElement selector with
      | Some labelElement =>
          let text :=
            trim (match getEl labelElement searchElement with
                  | Some e => textContent e
                  | None => ""
                  end) in
          if isMeaningful text then Some text
          else labelBySelectors searchElement rest
      | None => labelBySelectors searchElement rest
      end
  end.

(** [findNodeLabel(element)] for the element at the handle [element];
    [None] is [undefined]. *)
Definition findNodeLabel (svg : Element) (element : Handle) : option string :=
  match getEl element svg with
  | None => None
  | Some el =>
      let tag := tagName (head el) in
      let searchElement :=
        if String.eqb tag "rect" || String.eqb tag "circle"
           || String.eqb tag "path" || String.eqb tag "image"
        then parentElement svg element
        else Some el in
      match searchElement with
      | None => None
      | Some searchElement =>
          match labelBySelectors searchElement labelSelectors with
          | Some text => Some text
          | None =>
              let allText := trim (textContent searchElement) in
              match List.find (fun line => Nat.ltb 0 (String.length (trim line)))
                              (splitLines allText) with
              | Some firstLine =>
                  if negb (String.eqb firstLine "")
                     && Nat.ltb (String.length firstLine) 200
                  then Some (trim firstLine)
                  else None
              | None => None
              end
          end
      end
  end.

(** A node group whose label is plain text of two lines in an element
    that no label selector matches. *)
Definition sampleLabelled : Element :=
  elem "svg" [] []
    [ elem "g" ["node"] []
        [ elem "rect" ["basic"] [] [];
          textElem "div" [] [] ("  " ++ nl ++ " Start here " ++ nl ++ "now") ] ].

(** ** Views of the export used to state further properties *)

(** The style element that [inlineStyles] puts before the first child of
    the clone. *)
Definition inlinedStyle (sheets : StyleSheets) : Element :=
  onHead (setTextContent (String.concat nl (collectStyles sheets)))
         (createElement "style").

(** What the [then] callback of [inlineStyles] does to an image. *)
Definition withDataUri (dataUri : string) (hd : Head) : Head :=
  removeAttribute "xlink:href" (setAttribute "href" (VStr dataUri) hd).

(** A page in which the request for the image is blocked and the image
    element cannot load it either. *)
Definition fetchBlocked : Browser := {|
  fetch := fun url => Rejected "TypeError: Failed to fetch";
  blob := fun r => Resolved "blob";
  readAsDataURL := fun _ => Resolved "data:image/png;base64,AAAA";
  loadImage := fun url => Rejected "Failed to load image";
  getContext2d := fun _ => true;
  drawAndEncode := fun _ => Resolved "data:image/png;base64,BBBB";
|}.

(** ** theme.ts *)

From Stdlib Require DecimalString.

(** The value of a character as a digit of radix 16. *)
Definition hexDigit (c : ascii) : option Z :=
  let n := nat_of_ascii c in
  if (Nat.leb 48 n && Nat.leb n 57)%bool then Some (Z.of_nat n - 48)%Z
  else if (Nat.leb 97 n && Nat.leb n 102)%bool then Some (Z.of_nat n - 87)%Z
  else if (Nat.leb 65 n && Nat.leb n 70)%bool then Some (Z.of_nat n - 55)%Z
  else None.

(** The value of the longest prefix of [s] made of digits of radix 16;
    [acc] is the value of the digits read so far, [None] when there is
    none yet. *)
Fixpoint hexPrefix (s : string) (acc : option Z) : option Z :=
  match s with
  | EmptyString => acc
  | String c r =>
      match hexDigit c with
      | Some d => hexPrefix r (Some (16 * default 0%Z acc + d)%Z)
      | None => acc
      end
  end.

(** [parseInt(s, 16)]: leading white space is skipped, a sign is read, a
    prefix [0x] or [0X] is dropped, and the digits that follow are read up
    to the first character that is not one; [None] is [NaN]. *)
Definition parseInt16 (s : string) : option Z :=
  let s := trimStart s in
  let '(sign, s) :=
    match s with
    | String "-" r => ((-1)%Z, r)
    | String "+" r => (1%Z, r)
    | _ => (1%Z, s)
    end in
  let s := if startsWith s "0x" || startsWith s "0X" then dropStr 2 s else s in
  Z.mul sign <$> hexPrefix s None.

(** [s.slice(a, b)] for [0 <= a <= b]. *)
Definition slice (a b : nat) (s : string) : string := takeStr (b - a) (dropStr a s).

(** An integer, or [NaN], in a template literal. *)
Definition showInt (n : option Z) : string :=
  match n with
  | Some z => DecimalString.NilZero.string_of_int (Z.to_int z)
  | None => "NaN"
  end.

Section HexToRgba.

(** [String(alpha)] for the number [alpha] in the template literal. *)
Variable numberToString : Q -> string.

Definition hexToRgba (hex : string) (alpha : Q) : string :=
  let r := parseInt16 (slice 1 3 hex) in
  let g := parseInt16 (slice 3 5 hex) in
  let b := parseInt16 (slice 5 7 hex) in
  "rgba(" ++ showInt r ++ ", " ++ showInt g ++ ", " ++ showInt b ++ ", "
  ++ numberToString alpha ++ ")".

End HexToRgba.

(** [PRIMARY.teal] *)
Definition PRIMARY_teal : string := "#179895".

(** ** Further sample data *)

(** An edge label whose box has no usable width. *)
Definition sampleAutoBox : Element :=
  elem "svg" [] []
    [ elem "g" ["edgeLabel"] []
        [ elem "rect" [] [("x", VNum 10); ("width", VStr "auto");
                          ("height", VNum 100)] [];
          textElem "text" [] [] "Yes" ] ].



From Stdlib Require Import SpecFloat.

(** ** The particle scheduler in double precision

    A JavaScript [number] is an IEEE 754 double.  For most of the code the
    reading of the numbers as rationals is enough; the start times of the
    particle windows, however, are sums that begin at [Date.now()], a
    number of the order of [2 ^ 40], where the doubles are [2 ^ -12]
    apart, and each sum is rounded to a double.  This module embeds the
    scheduling code of particleUtils.ts and index.tsx again with the
    numbers as doubles: [spec_float] with the operations of the standard
    library's specification of IEEE 754 arithmetic (round to nearest, ties
    to even) at precision 53 and exponent bound 1024. *)
Module Double.

Definition number : Type := spec_float.

Definition prec : Z := 53.
Definition emax : Z := 1024.

(** The double nearest to [m * 2 ^ e]. *)
Definition ofBinary (m e : Z) : number := binary_normalize prec emax m e false.

Definition ofInt (z : Z) : number := ofBinary z 0.


Definition add : number -> number -> number := SFadd prec emax.
Definition sub : number -> number -> number := SFsub prec emax.
Definition mul : number -> number -> number := SFmul prec emax.

(** [a < b], [a > b] and [a >= b]: all false when a side is [NaN]. *)
Definition lt (a b : number) : bool := SFltb a b.
Definition gt (a b : number) : bool := SFltb b a.
Definition ge (a b : number) : bool := SFleb b a.

(** [Math.max] and [Math.min]: [NaN] if a side is [NaN]; [+0] counts as
    larger than [-0]. *)
Definition Math_max (a b : number) : number :=
  match a, b with
  | S754_nan, _ | _, S754_nan => S754_nan
  | S754_zero sa, S754_zero sb => S754_zero (sa && sb)
  | _, _ => if SFltb a b then b else a
  end.

Definition Math_min (a b : number) : number :=
  match a, b with
  | S754_nan, _ | _, S754_nan => S754_nan
  | S754_zero sa, S754_zero sb => S754_zero (sa || sb)
  | _, _ => if SFltb b a then b else a
  end.

(** [a % b]: the remainder of the division that truncates, which is
    exact; it has the sign of the dividend. *)
Definition rem (a b : number) : number :=
  match a, b with
  | S754_nan, _ | _, S754_nan => S754_nan
  | S754_infinity _, _ => S754_nan
  | _, S754_zero _ => S754_nan
  | _, S754_infinity _ => a
  | S754_zero _, _ => a
  | S754_finite sa ma ea, S754_finite _ mb eb =>
      let e := Z.min ea eb in
      let x := (Zpos ma * 2 ^ (ea - e))%Z in
      let y := (Zpos mb * 2 ^ (eb - e))%Z in
      let r := (x mod y)%Z in
      binary_normalize prec emax (if sa then (- r)%Z else r) e sa
  end.

(** *** constants.ts: [PARTICLE_CONFIG] *)

Definition minDuration : number := ofInt 2000.
Definition maxDuration : number := ofInt 3500.
Definition durationMultiplier : number := ofInt 15.

(** *** particleUtils.ts *)

(** [Math.max(minDuration, Math.min(maxDuration, pathLength * durationMultiplier))] *)
Definition calculateDuration (pathLength : number) : number :=
  Math_max minDuration (Math_min maxDuration (mul pathLength durationMultiplier)).

Record ParticleAnimation := {
  element : Handle;
  glowElement : Handle;
  path : Handle;
  pathLength : number;
  duration : number;
  offset : number;
  startTime : number;
}.

Record Loop := {
  loop_animations : list ParticleAnimation;
  sequenceStartTime : number;
  totalSequenceDuration : number;
}.

Section Geometry.

(** [path.getTotalLength()] *)
Variable getTotalLength : Handle -> number.

Fixpoint particleLoop (n : nat) (path : Handle) (pathLength duration : number)
    (cumulativeStartTime : number) (particleGroup : Handle)
    (animations : list ParticleAnimation) (svg : Element)
    : list ParticleAnimation * Element :=
  match n with
  | O => (animations, svg)
  | S n' =>
      let '(p, svg) := createParticle particleGroup PARTICLE_STYLE svg in
      let animations := (animations ++ [
        {| element := p_core p;
           glowElement := p_innerGlow p;
           path := path;
           pathLength := pathLength;
           duration := duration;
           offset := ofInt 0;
           startTime := cumulativeStartTime |} ])%list in
      let animations := (animations ++ [
        {| element := p_outerGlow p;
           glowElement := p_outerGlow p;
           path := path;
           pathLength := pathLength;
           duration := duration;
           offset := ofInt 0;
           startTime := cumulativeStartTime |} ])%list in
      particleLoop n' path pathLength duration cumulativeStartTime
                   particleGroup animations svg
  end.

Record PathParticles := {
  pp_animations : list ParticleAnimation;
  nextStartTime : number;
  pp_svg : Element;
}.

Definition createParticlesForPath (path : Handle) (cumulativeStartTime : number)
    (particleGroup : Handle) (svg : Element) : PathParticles :=
  let pathLength := getTotalLength path in
  let duration := calculateDuration pathLength in
  let '(animations, svg) :=
    particleLoop (particleCount PARTICLE_CONFIG) path pathLength duration
                 cumulativeStartTime particleGroup [] svg in
  {| pp_animations := animations;
     nextStartTime := add cumulativeStartTime duration;
     pp_svg := svg |}.

(** The test of [updateParticlePosition] that decides whether the
    particle is shown in the frame at [currentTime]. *)
Definition isInActiveWindow (animation : ParticleAnimation)
    (currentTime totalSequenceDuration sequenceStartTime : number) : bool :=
  let timeSinceSequenceStart := sub currentTime sequenceStartTime in
  let cycleTime := rem timeSinceSequenceStart totalSequenceDuration in
  let particleStartInSequence := sub (startTime animation) sequenceStartTime in
  let particleEndInSequence :=
    add particleStartInSequence (duration animation) in
  ge cycleTime particleStartInSequence && lt cycleTime particleEndInSequence.

(** The loop of [startParticleAnimation] over the even indices. *)
Definition sequenceDuration (animations : list ParticleAnimation)
    (sequenceStartTime : number) : number :=
  fold_left
    (fun totalSequenceDuration anim =>
       let endTime :=
         sub (add (startTime anim) (duration anim)) sequenceStartTime in
       if gt endTime totalSequenceDuration then endTime
       else totalSequenceDuration)
    (evenIndexed animations) (ofInt 0).

(** [startParticleAnimation] up to the first call of [animate]: the
    list, the start and the duration of the loop that the frames use;
    no loop for an empty list. *)
Definition startParticleAnimation (animations : list ParticleAnimation)
    : option Loop :=
  match animations with
  | [] => None
  | first :: _ =>
      let sequenceStartTime := startTime first in
      Some {| loop_animations := animations;
              sequenceStartTime := sequenceStartTime;
              totalSequenceDuration :=
                sequenceDuration animations sequenceStartTime |}
  end.

(** *** index.tsx: the particle setup *)

Fixpoint createAllParticles (edges : list Handle) (cumulativeStartTime : number)
    (particleGroup : Handle) (animations : list ParticleAnimation)
    (svg : Element) : list ParticleAnimation * number * Element :=
  match edges with
  | [] => (animations, cumulativeStartTime, svg)
  | edge :: rest =>
      let result :=
        createParticlesForPath edge cumulativeStartTime particleGroup svg in
      createAllParticles rest (nextStartTime result) particleGroup
        (animations ++ pp_animations result)%list (pp_svg result)
  end.

(** [now] is [Date.now()] at setup. *)
Definition setupParticleAnimations (now : number) (svg : Element)
    : option Loop :=
  let enh := enhanceSVG svg in
  let '(animations, _, _) :=
    createAllParticles (enh_edges enh) now (enh_particleGroup enh) []
                       (enh_svg enh) in
  startParticleAnimation animations.

End Geometry.

(** What a record says about scheduling: its edge, the start and the
    length of its window. *)
Definition summary (a : ParticleAnimation) : Handle * (number * number) :=
  (path a, (startTime a, duration a)).

(** The windows that the loop of [setupParticleAnimations] hands out. *)
Fixpoint windowsFrom (getTotalLength : Handle -> number) (edges : list Handle)
    (cursor : number) : list (Handle * (number * number)) :=
  match edges with
  | [] => []
  | edge :: rest =>
      let duration := calculateDuration (getTotalLength edge) in
      (edge, (cursor, duration))
        :: windowsFrom getTotalLength rest (add cursor duration)
  end.

(** The end of a record's window as the loop of [startParticleAnimation]
    computes it. *)
Definition endTime (sequenceStartTime : number) (a : ParticleAnimation) : number :=
  sub (add (startTime a) (duration a)) sequenceStartTime.

End Double.




(** ** The declarations of the participant micro-syntax

    The form that the pattern of [preprocessChart] recognises, in the
    words of the specification: [participant], white space, [img:], a
    locator without white space, white space, and a display name that runs
    to the end of its line. *)







(** * Properties *)

(** ** Numbers *)

Lemma Qltb_lt x y : Qltb x y = true <-> x < y.
Proof.
  unfold Qltb. rewrite negb_true_iff. split.
  - intros H. apply Qnot_le_lt. intros Hle.
    apply Qle_bool_iff in Hle. congruence.
  - intros H. destruct (Qle_bool y x) eqn:E; [|reflexivity].
    apply Qle_bool_iff in E. apply Qle_not_lt in E. contradiction.
Qed.

Lemma Qltb_ge x y : Qltb x y = false <-> y <= x.
Proof.
  unfold Qltb. rewrite negb_false_iff. apply Qle_bool_iff.
Qed.

Lemma Qltb_spec x y : reflect (x < y) (Qltb x y).
Proof.
  destruct (Qltb x y) eqn:E; constructor.
  - now apply Qltb_lt.
  - apply Qltb_ge in E. now apply Qle_not_lt.
Qed.

(** ** Durations *)

Lemma calculateDuration_cases L :
  (L * 15 <= 2000 /\ calculateDuration L == 2000) \/
  (2000 <= L * 15 <= 3500 /\ calculateDuration L == L * 15) \/
  (3500 <= L * 15 /\ calculateDuration L == 3500).
Proof.
  unfold calculateDuration; cbn [minDuration maxDuration durationMultiplier PARTICLE_CONFIG].
  destruct (Q.min_spec 3500 (L * 15)) as [[H1 E1]|[H1 E1]];
    destruct (Q.max_spec 2000 (Qmin 3500 (L * 15))) as [[H2 E2]|[H2 E2]];
    rewrite E2; rewrite E1 in *.
  - right; right. split; [lra | reflexivity].
  - lra.
  - right; left. split; [lra | reflexivity].
  - left. split; [lra | reflexivity].
Qed.

Lemma calculateDuration_bounds L : 2000 <= calculateDuration L <= 3500.
Proof.
  destruct (calculateDuration_cases L) as [[H E]|[[H E]|[H E]]]; rewrite E; lra.
Qed.

Lemma calculateDuration_pos L : 0 < calculateDuration L.
Proof. pose proof (calculateDuration_bounds L). lra. Qed.

Lemma clamp_cases x lo hi :
  lo <= hi ->
  (x <= lo /\ clamp x lo hi == lo) \/
  (lo <= x <= hi /\ clamp x lo hi == x) \/
  (hi <= x /\ clamp x lo hi == hi).
Proof.
  intros Hlh. unfold clamp.
  destruct (Qltb_spec x lo) as [H|H].
  - left. split; [lra | reflexivity].
  - destruct (Qltb_spec hi x) as [H'|H'].
    + right; right. split; [lra | reflexivity].
    + right; left. split; [lra | reflexivity].
Qed.

Lemma calculateDuration_is_clamp L :
  calculateDuration L == clamp (L * 15) 2000 3500.
Proof.
  destruct (calculateDuration_cases L) as [[H E]|[[H E]|[H E]]];
    destruct (clamp_cases (L * 15) 2000 3500) as [[H' E']|[[H' E']|[H' E']]];
    try lra; rewrite E, E'; lra.
Qed.

(** C2 (as amended): for every non-negative path length the duration is
    the clamp of [pathLength * 15] to the interval from 2000 to 3500; it is
    2000 for length 0, 3500 for every length of at least 3500/15, and 2000
    (not 1500) for length 100. *)
Theorem calculateDuration_clamp (L : Q) (H : 0 <= L) :
  calculateDuration L == clamp (L * 15) 2000 3500 /\
  (L == 0 -> calculateDuration L == 2000) /\
  (3500 / 15 <= L -> calculateDuration L == 3500) /\
  (L == 100 -> calculateDuration L == 2000).
Proof.
  split; [apply calculateDuration_is_clamp|].
  assert (Hc : 3500 / 15 == 700 # 3) by reflexivity.
  destruct (calculateDuration_cases L) as [[H1 E]|[[H1 E]|[H1 E]]];
    rewrite E; repeat split; intros Hx; try rewrite Hc in Hx; lra.
Qed.

Lemma calculateDuration_clamp_witness :
  0 <= 100 /\
  (calculateDuration 100 == clamp (100 * 15) 2000 3500 /\
   (100 == 0 -> calculateDuration 100 == 2000) /\
   (3500 / 15 <= 100 -> calculateDuration 100 == 3500) /\
   (100 == 100 -> calculateDuration 100 == 2000)).
Proof.
  assert (H : 0 <= 100) by (unfold Qle; simpl; lia).
  split; [exact H | exact (calculateDuration_clamp 100 H)].
Defined.

(** C2, as the specification words it, fails at path length 100: the
    duration there is not 1500. *)
Lemma calculateDuration_100_not_1500 :
  ~ (calculateDuration 100 == 1500).
Proof.
  vm_compute. discriminate.
Qed.

Example calculateDuration_100 : calculateDuration 100 = 2000.
Proof. reflexivity. Qed.

Example calculateDuration_0 : calculateDuration 0 = 2000.
Proof. reflexivity. Qed.

Example calculateDuration_1000 : calculateDuration 1000 = 3500.
Proof. reflexivity. Qed.

Example calculateDuration_200 : calculateDuration 200 == 3000.
Proof. reflexivity. Qed.


(** ** Opacity and easing *)

Lemma calculateOpacity_fadeIn p :
  p < 15 # 100 -> calculateOpacity p == p * (100 # 15).
Proof.
  intros H. unfold calculateOpacity.
  destruct (Qltb_spec p (15 # 100)) as [_|N]; [|contradiction].
  unfold Qdiv. reflexivity.
Qed.

Lemma calculateOpacity_full p :
  15 # 100 <= p <= 85 # 100 -> calculateOpacity p == 1.
Proof.
  intros [H1 H2]. unfold calculateOpacity.
  destruct (Qltb_spec p (15 # 100)) as [N|_]; [lra|].
  destruct (Qltb_spec (85 # 100) p) as [N|_]; [lra|].
  reflexivity.
Qed.

Lemma calculateOpacity_fadeOut p :
  85 # 100 < p -> calculateOpacity p == (1 - p) * (100 # 15).
Proof.
  intros H. unfold calculateOpacity.
  destruct (Qltb_spec p (15 # 100)) as [N|_]; [lra|].
  destruct (Qltb_spec (85 # 100) p) as [_|N]; [|contradiction].
  unfold Qdiv.
  assert (E : / (1 - (85 # 100)) == 100 # 15) by reflexivity.
  rewrite E. reflexivity.
Qed.

Lemma calculateOpacity_increasing p q :
  0 <= p -> p < q -> q <= 15 # 100 -> calculateOpacity p < calculateOpacity q.
Proof.
  intros H0 Hpq Hq.
  rewrite (calculateOpacity_fadeIn p) by lra.
  destruct (Qlt_le_dec q (15 # 100)) as [Hlt|Hge].
  - rewrite (calculateOpacity_fadeIn q) by lra. lra.
  - rewrite (calculateOpacity_full q) by lra. lra.
Qed.

Lemma calculateOpacity_decreasing p q :
  85 # 100 <= p -> p < q -> q <= 1 -> calculateOpacity q < calculateOpacity p.
Proof.
  intros Hp Hpq Hq.
  rewrite (calculateOpacity_fadeOut q) by lra.
  destruct (Qlt_le_dec (85 # 100) p) as [Hlt|Hge].
  - rewrite (calculateOpacity_fadeOut p) by lra. lra.
  - rewrite (calculateOpacity_full p) by lra. lra.
Qed.

Lemma calculateOpacity_range p :
  0 <= p <= 1 -> 0 <= calculateOpacity p <= 1.
Proof.
  intros [H0 H1].
  destruct (Qlt_le_dec p (15 # 100)) as [Ha|Ha].
  - rewrite calculateOpacity_fadeIn by assumption. lra.
  - destruct (Qlt_le_dec (85 # 100) p) as [Hb|Hb].
    + rewrite calculateOpacity_fadeOut by assumption. lra.
    + rewrite calculateOpacity_full by lra. lra.
Qed.

Example easeInOutCubic_0 : easeInOutCubic 0 == 0.
Proof. reflexivity. Qed.

Example easeInOutCubic_half : easeInOutCubic (1 # 2) == 1 # 2.
Proof. reflexivity. Qed.

Example easeInOutCubic_1 : easeInOutCubic 1 == 1.
Proof. reflexivity. Qed.

(** ** Handles and updates *)

Lemma getHead_nil svg : getHead [] svg = Some (head svg).
Proof. reflexivity. Qed.

Lemma getEl_cons i h e :
  getEl (i :: h) e = match children e !! i with Some k => getEl h k | None => None end.
Proof. reflexivity. Qed.

Lemma getHead_cons i h e :
  getHead (i :: h) e =
  match children e !! i with Some k => getHead h k | None => None end.
Proof.
  unfold getHead. rewrite getEl_cons. destruct (children e !! i); reflexivity.
Qed.

(** An update of the head at one handle is seen at that handle and at no
    other. *)
Lemma getHead_updateAt_eq (g : Head -> Head) h svg :
  getHead h (updateAt h (onHead g) svg) = g <$> getHead h svg.
Proof.
  revert svg. induction h as [|i h IH]; intros svg.
  - destruct svg; reflexivity.
  - cbn [updateAt]. rewrite !getHead_cons. cbn [children].
    rewrite list_lookup_alter_eq.
    destruct (children svg !! i) as [k|]; cbn; [apply IH | reflexivity].
Qed.

Lemma getHead_updateAt_ne (g : Head -> Head) h h' svg :
  h <> h' -> getHead h (updateAt h' (onHead g) svg) = getHead h svg.
Proof.
  revert h svg. induction h' as [|i h' IH]; intros h svg Hne.
  - destruct h as [|j h]; [congruence|]. destruct svg; reflexivity.
  - cbn [updateAt]. destruct h as [|j h].
    + destruct svg; reflexivity.
    + rewrite !getHead_cons. cbn [children].
      destruct (decide (i = j)) as [->|Hij].
      * rewrite list_lookup_alter_eq.
        destruct (children svg !! j) as [k|]; cbn; [|reflexivity].
        apply IH. congruence.
      * rewrite list_lookup_alter_ne by congruence. reflexivity.
Qed.

Lemma getHead_updateAt (g : Head -> Head) h h' svg :
  getHead h (updateAt h' (onHead g) svg) =
  if decide (h = h') then g <$> getHead h svg else getHead h svg.
Proof.
  destruct (decide (h = h')) as [->|Hne].
  - apply getHead_updateAt_eq.
  - now apply getHead_updateAt_ne.
Qed.

Lemma getAttribute_setAttribute n m v hd :
  getAttribute n (setAttribute m v hd) =
  if decide (m = n) then Some v else getAttribute n hd.
Proof.
  unfold getAttribute, setAttribute; cbn. apply lookup_insert.
Qed.

Lemma attrAt_set n m v h h' svg :
  attrAt n h (updateAt h' (onHead (setAttribute m v)) svg) =
  if decide (h = h' /\ m = n) then (fun _ => Some v) <$> getHead h svg
  else attrAt n h svg.
Proof.
  unfold attrAt. rewrite getHead_updateAt.
  destruct (decide (h = h')) as [->|Hne].
  - destruct (getHead h' svg) as [hd|]; cbn.
    + rewrite getAttribute_setAttribute.
      destruct (decide (m = n)) as [->|Hmn].
      * rewrite decide_True by auto. reflexivity.
      * rewrite decide_False by tauto. reflexivity.
    + destruct (decide (h' = h' /\ m = n)); reflexivity.
  - rewrite decide_False by tauto. reflexivity.
Qed.

Lemma attrAt_set_other n m v h h' svg :
  m <> n -> attrAt n h (updateAt h' (onHead (setAttribute m v)) svg) = attrAt n h svg.
Proof.
  intros Hne. rewrite attrAt_set. rewrite decide_False by tauto. reflexivity.
Qed.

Lemma attrAt_set_same n v h svg hd :
  getHead h svg = Some hd ->
  attrAt n h (updateAt h (onHead (setAttribute n v)) svg) = Some (Some v).
Proof.
  intros H. rewrite attrAt_set. rewrite decide_True by auto.
  rewrite H. reflexivity.
Qed.

Lemma getHead_set_is_Some m v h h' svg :
  is_Some (getHead h svg) ->
  is_Some (getHead h (updateAt h' (onHead (setAttribute m v)) svg)).
Proof.
  intros [hd H]. rewrite getHead_updateAt.
  destruct (decide (h = h')); rewrite H; cbn; eauto.
Qed.

(** The two branches of the easing. *)
Lemma easeInOutCubic_low t : t < 1 # 2 -> easeInOutCubic t == 4 * (t * t * t).
Proof.
  intros H. unfold easeInOutCubic.
  destruct (Qltb_spec t (5 # 10)) as [_|N]; [ring | lra].
Qed.

Lemma easeInOutCubic_high t :
  1 # 2 <= t -> easeInOutCubic t == 1 - 4 * ((1 - t) * (1 - t) * (1 - t)).
Proof.
  intros H. unfold easeInOutCubic.
  destruct (Qltb_spec t (5 # 10)) as [N|_]; [lra|].
  field.
Qed.

(** ** The animation driver *)

Section Driver.

Variable getPointAtLength : Handle -> Q -> option (Q * Q).

#[local] Abbreviation update := (updateParticlePosition getPointAtLength).

(** An element that is neither the particle nor its glow companion is not
    touched by the update of that particle. *)
Lemma updateParticlePosition_untouched a now isCore total seqStart svg h :
  h <> element a -> h <> glowElement a ->
  getHead h (update a now isCore total seqStart svg) = getHead h svg.
Proof.
  intros He Hg. unfold updateParticlePosition.
  destruct (isInActiveWindow a now total seqStart) as [c|].
  - destruct (getPointAtLength _ _) as [[x y]|]; [|reflexivity].
    destruct (isCore && bool_decide _);
      rewrite !getHead_updateAt_ne by assumption; reflexivity.
  - destruct (isCore && bool_decide _);
      rewrite !getHead_updateAt_ne by assumption; reflexivity.
Qed.

(** Outside its window a particle has no attribute other than [opacity]
    written, on any element. *)
Lemma updateParticlePosition_hidden_frame a now isCore total seqStart svg n h :
  isInActiveWindow a now total seqStart = None ->
  n <> "opacity" ->
  attrAt n h (update a now isCore total seqStart svg) = attrAt n h svg.
Proof.
  intros Hout Hn. unfold updateParticlePosition. rewrite Hout.
  destruct (isCore && bool_decide _);
    rewrite !attrAt_set_other by congruence; reflexivity.
Qed.

Lemma updateParticlePosition_hidden_opacity a now isCore total seqStart svg :
  isInActiveWindow a now total seqStart = None ->
  is_Some (getHead (element a) svg) ->
  attrAt "opacity" (element a) (update a now isCore total seqStart svg)
  = Some (Some (VNum 0)).
Proof.
  intros Hout [hd Hhd]. unfold updateParticlePosition. rewrite Hout.
  destruct (isCore && bool_decide _) eqn:E.
  - apply andb_true_iff in E as [_ E]. apply bool_decide_eq_true in E.
    rewrite attrAt_set. rewrite decide_False by (intros [? _]; congruence).
    eapply attrAt_set_same; eassumption.
  - eapply attrAt_set_same; eassumption.
Qed.

Lemma updateParticlePosition_keeps a now isCore total seqStart svg h :
  is_Some (getHead h svg) ->
  is_Some (getHead h (update a now isCore total seqStart svg)).
Proof.
  intros H. unfold updateParticlePosition.
  destruct (isInActiveWindow a now total seqStart) as [c|].
  - destruct (getPointAtLength _ _) as [[x y]|]; [|assumption].
    destruct (isCore && bool_decide _);
      repeat apply getHead_set_is_Some; assumption.
  - destruct (isCore && bool_decide _);
      repeat apply getHead_set_is_Some; assumption.
Qed.

(** In its window, with a point on the path, the particle gets the point
    as position and the opacity that [opacity] names. *)
Lemma updateParticlePosition_shown a now isCore total seqStart svg c x y opacity :
  isInActiveWindow a now total seqStart = Some c ->
  getPointAtLength (path a)
    (easeInOutCubic ((c - (startTime a - seqStart)) / duration a) * pathLength a)
    = Some (x, y) ->
  opacity = calculateOpacity ((c - (startTime a - seqStart)) / duration a) ->
  is_Some (getHead (element a) svg) ->
  let svg' := update a now isCore total seqStart svg in
  attrAt "cx" (element a) svg' = Some (Some (VNum x)) /\
  attrAt "cy" (element a) svg' = Some (Some (VNum y)) /\
  attrAt "opacity" (element a) svg' = Some (Some (VNum opacity)).
Proof.
  intros Hin Hpt -> Hhd svg'. subst svg'.
  unfold updateParticlePosition. rewrite Hin, Hpt.
  set (o := calculateOpacity _).
  set (s1 := updateAt (element a) (onHead (setAttribute "cx" (VNum x))) svg).
  set (s2 := updateAt (element a) (onHead (setAttribute "cy" (VNum y))) s1).
  set (s3 := updateAt (element a) (onHead (setAttribute "opacity" (VNum o))) s2).
  assert (H1 : is_Some (getHead (element a) s1))
    by (apply getHead_set_is_Some; assumption).
  assert (H2 : is_Some (getHead (element a) s2))
    by (apply getHead_set_is_Some; assumption).
  assert (G : attrAt "cx" (element a) s3 = Some (Some (VNum x)) /\
              attrAt "cy" (element a) s3 = Some (Some (VNum y)) /\
              attrAt "opacity" (element a) s3 = Some (Some (VNum o))).
  { destruct Hhd as [h0 Hh0], H1 as [h1 Hh1], H2 as [h2 Hh2].
    subst s3. repeat split.
    - rewrite attrAt_set_other by congruence. subst s2.
      rewrite attrAt_set_other by congruence. subst s1.
      eapply attrAt_set_same; eassumption.
    - rewrite attrAt_set_other by congruence. subst s2.
      eapply attrAt_set_same; eassumption.
    - eapply attrAt_set_same; eassumption. }
  destruct (isCore && bool_decide _) eqn:E; [|exact G].
  apply andb_true_iff in E as [_ E]. apply bool_decide_eq_true in E.
  unfold attrAt in *.
  rewrite !getHead_updateAt_ne by congruence. exact G.
Qed.

Lemma isInActiveWindow_progress a now total seqStart c :
  isInActiveWindow a now total seqStart = Some c ->
  0 < duration a /\
  0 <= (c - (startTime a - seqStart)) / duration a < 1.
Proof.
  unfold isInActiveWindow.
  destruct (jsRem _ _) as [c'|]; [|discriminate].
  destruct (Qle_bool _ _ && Qltb _ _) eqn:E; [|discriminate].
  intros [= ->]. apply andb_true_iff in E as [E1 E2].
  apply Qle_bool_iff in E1. apply Qltb_lt in E2.
  assert (Hd : 0 < duration a) by lra.
  split; [exact Hd|]. split.
  - apply Qle_shift_div_l; [exact Hd | lra].
  - apply Qlt_shift_div_r; [exact Hd | lra].
Qed.

(** A frame leaves alone every attribute but [opacity] of an element all
    of whose particles are outside their windows. *)
Lemma forEachIndexed_hidden now total seqStart n h anims :
  n <> "opacity" ->
  (forall r, r ∈ anims -> element r = h \/ glowElement r = h ->
             isInActiveWindow r now total seqStart = None) ->
  forall i svg,
  attrAt n h
    (forEachIndexed
       (fun anim index svg =>
          update anim now (Nat.eqb (index mod 2) 0) total seqStart svg)
       i anims svg)
  = attrAt n h svg.
Proof.
  intros Hn. induction anims as [|r anims IH]; intros Hall i svg.
  - reflexivity.
  - cbn [forEachIndexed]. rewrite IH.
    + destruct (decide (element r = h \/ glowElement r = h)) as [Ht|Ht].
      * apply updateParticlePosition_hidden_frame; [|exact Hn].
        apply Hall; [left | exact Ht].
      * unfold attrAt. rewrite updateParticlePosition_untouched; [reflexivity| |];
          intros ->; apply Ht; auto.
    + intros r' Hr'. apply Hall. now right.
Qed.

(** Outside its window a particle leaves the [opacity] of an element as
    it was or sets it to 0. *)
Lemma updateParticlePosition_hidden_cases a now isCore total seqStart svg h :
  isInActiveWindow a now total seqStart = None ->
  is_Some (getHead h svg) ->
  let svg' := update a now isCore total seqStart svg in
  attrAt "opacity" h svg' = Some (Some (VNum 0)) \/
  attrAt "opacity" h svg' = attrAt "opacity" h svg.
Proof.
  intros Hout Hh svg'. subst svg'.
  unfold updateParticlePosition. rewrite Hout.
  assert (Hh1 : is_Some (getHead h
              (updateAt (element a) (onHead (setAttribute "opacity" (VNum 0))) svg)))
    by (apply getHead_set_is_Some; exact Hh).
  assert (C1 : attrAt "opacity" h
                 (updateAt (element a) (onHead (setAttribute "opacity" (VNum 0))) svg)
               = Some (Some (VNum 0)) \/
               attrAt "opacity" h
                 (updateAt (element a) (onHead (setAttribute "opacity" (VNum 0))) svg)
               = attrAt "opacity" h svg).
  { rewrite attrAt_set. case_decide as D; [|now right].
    left. destruct Hh as [hd ->]. reflexivity. }
  destruct (isCore && bool_decide _); [|exact C1].
  rewrite attrAt_set. case_decide as D; [|exact C1].
  left. destruct Hh1 as [hd ->]. reflexivity.
Qed.

(** A frame sets to 0 the [opacity] of a particle's element when every
    particle that owns the element is outside its window. *)
Lemma forEachIndexed_hidden_opacity now total seqStart h anims :
  (forall r, r ∈ anims -> element r = h \/ glowElement r = h ->
             isInActiveWindow r now total seqStart = None) ->
  forall i svg,
  is_Some (getHead h svg) ->
  attrAt "opacity" h svg = Some (Some (VNum 0)) \/
    (exists r, r ∈ anims /\ element r = h) ->
  attrAt "opacity" h
    (forEachIndexed
       (fun anim index svg =>
          update anim now (Nat.eqb (index mod 2) 0) total seqStart svg)
       i anims svg)
  = Some (Some (VNum 0)).
Proof.
  induction anims as [|r anims IH]; intros Hall i svg Hh Hor.
  - destruct Hor as [H|(r & Hr & _)]; [exact H|]. inversion Hr.
  - cbn [forEachIndexed].
    assert (Hrest : forall r', r' ∈ anims ->
              element r' = h \/ glowElement r' = h ->
              isInActiveWindow r' now total seqStart = None)
      by (intros r' Hr'; apply Hall; now right).
    apply IH; [exact Hrest | apply updateParticlePosition_keeps; exact Hh |].
    destruct (decide (element r = h)) as [E|NE].
    + left. subst h. apply updateParticlePosition_hidden_opacity; [|exact Hh].
      apply Hall; [left | now left].
    + destruct (decide (glowElement r = h)) as [G|NG].
      * assert (Hout : isInActiveWindow r now total seqStart = None)
          by (apply Hall; [left | now right]).
        destruct (updateParticlePosition_hidden_cases r now
                    (Nat.eqb (i mod 2) 0) total seqStart svg h Hout Hh)
          as [Z|S]; [now left|].
        destruct Hor as [H|(r' & Hr' & Er')].
        -- left. rewrite S. exact H.
        -- right. exists r'. split; [|exact Er'].
           apply elem_of_cons in Hr' as [->|Hr']; [congruence | exact Hr'].
      * destruct Hor as [H|(r' & Hr' & Er')].
        -- left. unfold attrAt.
           rewrite updateParticlePosition_untouched by congruence. exact H.
        -- right. exists r'. split; [|exact Er'].
           apply elem_of_cons in Hr' as [->|Hr']; [congruence | exact Hr'].
Qed.

End Driver.

(** C3: the opacity is 0, 1, 1, 1, 0 at progress 0, 0.15, 0.5, 0.85, 1; it
    rises linearly on [0, 0.15], is 1 on [0.15, 0.85] and falls linearly on
    [0.85, 1]; and for a particle in its window the frame writes the opacity
    of the raw progress, while the position written is the point of the
    path at the cubic-eased progress times the path length, the easing
    being [4 t^3] below one half and [1 - (2 - 2 t)^3 / 2] from one half
    on (so a quarter of the window is a sixteenth of the path). *)
Theorem opacity_trapezoid_of_raw_progress
    (getPointAtLength : Handle -> Q -> option (Q * Q))
    (a : ParticleAnimation) (now total seqStart : Q) (isCore : bool)
    (svg : Element) (c x y : Q)
    (Hwin : isInActiveWindow a now total seqStart = Some c)
    (Hpt : getPointAtLength (path a)
             (easeInOutCubic ((c - (startTime a - seqStart)) / duration a)
              * pathLength a) = Some (x, y))
    (Hel : is_Some (getHead (element a) svg)) :
  let progress := (c - (startTime a - seqStart)) / duration a in
  let svg' := updateParticlePosition getPointAtLength a now isCore total seqStart svg in
  (calculateOpacity 0 == 0 /\
   calculateOpacity (15 # 100) == 1 /\
   calculateOpacity (5 # 10) == 1 /\
   calculateOpacity (85 # 100) == 1 /\
   calculateOpacity 1 == 0) /\
  (forall p q, 0 <= p -> p < q -> q <= 15 # 100 ->
     calculateOpacity p < calculateOpacity q) /\
  (forall p, 0 <= p <= 15 # 100 -> calculateOpacity p == p / (15 # 100)) /\
  (forall p, 15 # 100 <= p <= 85 # 100 -> calculateOpacity p == 1) /\
  (forall p q, 85 # 100 <= p -> p < q -> q <= 1 ->
     calculateOpacity q < calculateOpacity p) /\
  (forall p, 85 # 100 <= p <= 1 -> calculateOpacity p == (1 - p) / (15 # 100)) /\
  (forall t, t < 1 # 2 -> easeInOutCubic t == 4 * t * t * t) /\
  (forall t, 1 # 2 <= t -> easeInOutCubic t == 1 - ((2 - 2 * t) ^ 3) / 2) /\
  (easeInOutCubic 0 == 0 /\
   easeInOutCubic (1 # 4) == 1 # 16 /\
   easeInOutCubic (1 # 2) == 1 # 2 /\
   easeInOutCubic (3 # 4) == 15 # 16 /\
   easeInOutCubic 1 == 1) /\
  0 <= progress < 1 /\
  attrAt "opacity" (element a) svg' = Some (Some (VNum (calculateOpacity progress))) /\
  attrAt "cx" (element a) svg' = Some (Some (VNum x)) /\
  attrAt "cy" (element a) svg' = Some (Some (VNum y)).
Proof.
  intros progress svg'.
  split; [repeat split; reflexivity|].
  split; [apply calculateOpacity_increasing|].
  split.
  { intros p [H0 H1]. destruct (Qlt_le_dec p (15 # 100)) as [Hlt|Hge].
    - now rewrite calculateOpacity_fadeIn.
    - rewrite calculateOpacity_full by lra.
      assert (E : p == 15 # 100) by lra. rewrite E. reflexivity. }
  split; [apply calculateOpacity_full|].
  split; [apply calculateOpacity_decreasing|].
  split.
  { intros p [H0 H1]. destruct (Qlt_le_dec (85 # 100) p) as [Hlt|Hge].
    - now rewrite calculateOpacity_fadeOut.
    - rewrite calculateOpacity_full by lra.
      assert (E : p == 85 # 100) by lra. rewrite E. reflexivity. }
  split; [intros t Ht; rewrite easeInOutCubic_low by exact Ht; ring|].
  split; [intros t Ht; rewrite easeInOutCubic_high by exact Ht; field|].
  split; [repeat split; reflexivity|].
  split; [eapply isInActiveWindow_progress; eassumption|].
  destruct (updateParticlePosition_shown getPointAtLength a now isCore total
              seqStart svg c x y _ Hwin Hpt eq_refl Hel) as (Hx & Hy & Ho).
  auto.
Qed.

(** At time 1500 of a loop that started at 1000 and lasts 2000, the sample
    particle is a quarter of the way through its window and a sixteenth of
    the way along its path. *)
Lemma opacity_trapezoid_of_raw_progress_witness :
  attrAt "opacity" [1; 1]%nat
    (updateParticlePosition samplePoint (sampleCore 1000) 1500 true 2000 1000
       sampleAnimated)
  = Some (Some (VNum (calculateOpacity
                        ((500 - (1000 - 1000)) / 2000)))) /\
  exists x,
    attrAt "cx" [1; 1]%nat
      (updateParticlePosition samplePoint (sampleCore 1000) 1500 true 2000 1000
         sampleAnimated)
    = Some (Some (VNum x)) /\
    x == (1 # 16) * pathLength (sampleCore 1000).
Proof.
  assert (Hwin : isInActiveWindow (sampleCore 1000) 1500 2000 1000 = Some 500)
    by (vm_compute; reflexivity).
  assert (Hpt : samplePoint (path (sampleCore 1000))
                  (easeInOutCubic
                     ((500 - (startTime (sampleCore 1000) - 1000))
                      / duration (sampleCore 1000))
                   * pathLength (sampleCore 1000))
                = Some (easeInOutCubic
                          ((500 - (startTime (sampleCore 1000) - 1000))
                           / duration (sampleCore 1000))
                        * pathLength (sampleCore 1000), 0))
    by reflexivity.
  assert (Hel : is_Some (getHead (element (sampleCore 1000)) sampleAnimated))
    by (vm_compute; eauto).
  destruct (opacity_trapezoid_of_raw_progress samplePoint (sampleCore 1000)
              1500 2000 1000 true sampleAnimated 500 _ 0 Hwin Hpt Hel)
    as (_ & _ & _ & _ & _ & _ & _ & _ & _ & _ & Ho & Hx & _).
  split; [exact Ho|].
  eexists. split; [exact Hx|].
  reflexivity.
Defined.

(** C10: for an empty list [startParticleAnimation] returns a cleanup that
    does nothing, starts no loop, requests no frame and writes no attribute;
    a particle outside its window gets [opacity] 0 and no other attribute of
    any element is written by its update, so [cx] and [cy] stay as they
    were, also over a whole frame when every particle that owns the element
    is outside its window; for a non-empty list the loop is started on the
    list with the first record's start time, the first frame is run and
    the next one requested, and in that frame, as in every later one, the
    element of a particle outside its window ends with [opacity] 0 and
    every other attribute as it was. *)
Theorem startParticleAnimation_empty_and_hidden
    (getPointAtLength : Handle -> Q -> option (Q * Q))
    (a : ParticleAnimation) (now total seqStart : Q) (isCore : bool)
    (svg : Element)
    (Hout : isInActiveWindow a now total seqStart = None) :
  let svg' := updateParticlePosition getPointAtLength a now isCore total seqStart svg in
  (forall t w,
     let s := startParticleAnimation getPointAtLength [] t w in
     st_world s = w /\ st_loop s = None /\
     (forall w', st_cleanup s w' = w') /\
     (forall t' w', runFrame getPointAtLength (st_loop s) t' w' = w')) /\
  (forall h, attrAt "cx" h svg' = attrAt "cx" h svg) /\
  (forall h, attrAt "cy" h svg' = attrAt "cy" h svg) /\
  (forall n h, n <> "opacity" -> attrAt n h svg' = attrAt n h svg) /\
  (forall h, h <> element a -> h <> glowElement a ->
     getHead h svg' = getHead h svg) /\
  (is_Some (getHead (element a) svg) ->
     attrAt "opacity" (element a) svg' = Some (Some (VNum 0))) /\
  (forall (l : Loop) (w : World) (t : Q) (h : Handle),
     (forall r, r ∈ loop_animations l ->
        element r = h \/ glowElement r = h ->
        isInActiveWindow r t (totalSequenceDuration l) (sequenceStartTime l) = None) ->
     attrAt "cx" h (w_svg (animate getPointAtLength l t w)) = attrAt "cx" h (w_svg w) /\
     attrAt "cy" h (w_svg (animate getPointAtLength l t w)) = attrAt "cy" h (w_svg w)) /\
  (forall (l : Loop) (w : World) (t : Q) (r : ParticleAnimation),
     r ∈ loop_animations l ->
     is_Some (getHead (element r) (w_svg w)) ->
     (forall r', r' ∈ loop_animations l ->
        element r' = element r \/ glowElement r' = element r ->
        isInActiveWindow r' t (totalSequenceDuration l) (sequenceStartTime l) = None) ->
     let w' := animate getPointAtLength l t w in
     attrAt "opacity" (element r) (w_svg w') = Some (Some (VNum 0)) /\
     (forall n, n <> "opacity" ->
        attrAt n (element r) (w_svg w') = attrAt n (element r) (w_svg w)) /\
     w_frames w' = (w_frames w ++ [w_nextFrame w])%list /\
     animationFrameId w' = Some (w_nextFrame w)) /\
  (forall (first : ParticleAnimation) (rest : list ParticleAnimation)
          (t : Q) (w : World) (r : ParticleAnimation),
     let s := startParticleAnimation getPointAtLength (first :: rest) t w in
     exists l,
       st_loop s = Some l /\
       loop_animations l = first :: rest /\
       sequenceStartTime l = startTime first /\
       w_frames (st_world s) = (w_frames w ++ [w_nextFrame w])%list /\
       animationFrameId (st_world s) = Some (w_nextFrame w) /\
       (r ∈ first :: rest ->
        is_Some (getHead (element r) (w_svg w)) ->
        (forall r', r' ∈ first :: rest ->
           element r' = element r \/ glowElement r' = element r ->
           isInActiveWindow r' t (totalSequenceDuration l) (sequenceStartTime l)
           = None) ->
        attrAt "opacity" (element r) (w_svg (st_world s)) = Some (Some (VNum 0)) /\
        attrAt "cx" (element r) (w_svg (st_world s)) = attrAt "cx" (element r) (w_svg w) /\
        attrAt "cy" (element r) (w_svg (st_world s)) = attrAt "cy" (element r) (w_svg w))).
Proof.
  intros svg'. subst svg'.
  split; [intros t w; cbn; auto|].
  split; [intros h; now apply updateParticlePosition_hidden_frame|].
  split; [intros h; now apply updateParticlePosition_hidden_frame|].
  split; [intros n h Hn; now apply updateParticlePosition_hidden_frame|].
  split; [intros h H1 H2; now apply updateParticlePosition_untouched|].
  split; [now apply updateParticlePosition_hidden_opacity|].
  split.
  { intros l w t h Hall. unfold animate; cbn [w_svg].
    split; apply forEachIndexed_hidden; auto; discriminate. }
  assert (Hframe : forall (l : Loop) (w : World) (t : Q) (r : ParticleAnimation),
            r ∈ loop_animations l ->
            is_Some (getHead (element r) (w_svg w)) ->
            (forall r', r' ∈ loop_animations l ->
               element r' = element r \/ glowElement r' = element r ->
               isInActiveWindow r' t (totalSequenceDuration l) (sequenceStartTime l)
               = None) ->
            attrAt "opacity" (element r) (w_svg (animate getPointAtLength l t w))
            = Some (Some (VNum 0)) /\
            (forall n, n <> "opacity" ->
               attrAt n (element r) (w_svg (animate getPointAtLength l t w))
               = attrAt n (element r) (w_svg w))).
  { intros l w t r Hr Hel Hall. unfold animate; cbn [w_svg]. split.
    - apply forEachIndexed_hidden_opacity; [exact Hall | exact Hel |].
      right. exists r. auto.
    - intros n Hn. apply forEachIndexed_hidden; [exact Hn | exact Hall]. }
  split.
  { intros l w t r Hr Hel Hall w'. subst w'.
    destruct (Hframe l w t r Hr Hel Hall) as [Ho Hn].
    repeat split; [exact Ho | exact Hn]. }
  intros first rest t w r s. subst s.
  cbn [startParticleAnimation st_loop st_world].
  eexists. split; [reflexivity|].
  cbn [loop_animations sequenceStartTime totalSequenceDuration].
  split; [reflexivity|]. split; [reflexivity|].
  split; [reflexivity|]. split; [reflexivity|].
  intros Hr Hel Hall.
  match goal with
  | |- context [animate _ ?l _ _] =>
      destruct (Hframe l w t r Hr Hel Hall) as [Ho Hn]
  end.
  repeat split; [exact Ho | apply Hn; discriminate | apply Hn; discriminate].
Qed.

(** At time 1500 of a loop that started at 1000 and lasts 4000, a particle
    whose window starts at 3000 is hidden, alone and as the second of two
    particles in the first frame of the loop. *)
Lemma startParticleAnimation_empty_and_hidden_witness :
  attrAt "opacity" [1; 1]%nat
    (updateParticlePosition samplePoint (sampleCore 3000) 1500 true 4000 1000
       sampleAnimated)
  = Some (Some (VNum 0)) /\
  attrAt "cx" [1; 1]%nat
    (updateParticlePosition samplePoint (sampleCore 3000) 1500 true 4000 1000
       sampleAnimated)
  = attrAt "cx" [1; 1]%nat sampleAnimated /\
  let w := {| w_svg := sampleTwoAnimated; w_frames := []; w_nextFrame := 1;
              animationFrameId := None |} in
  let s := startParticleAnimation samplePoint (sampleTwoCores 1000) 1500 w in
  attrAt "opacity" [2; 4]%nat (w_svg (st_world s)) = Some (Some (VNum 0)) /\
  attrAt "cx" [2; 4]%nat (w_svg (st_world s)) = Some (Some (VNum 7)) /\
  w_frames (st_world s) = [1%nat].
Proof.
  assert (Hout : isInActiveWindow (sampleCore 3000) 1500 4000 1000 = None)
    by (vm_compute; reflexivity).
  assert (Hel : is_Some (getHead (element (sampleCore 3000)) sampleAnimated))
    by (vm_compute; eauto).
  destruct (startParticleAnimation_empty_and_hidden samplePoint
              (sampleCore 3000) 1500 4000 1000 true sampleAnimated Hout)
    as (_ & Hcx & _ & _ & _ & Ho & _ & _ & Hstart).
  split; [exact (Ho Hel)|].
  split; [exact (Hcx [1; 1]%nat)|].
  intros w s.
  pose (a1 := {| element := [2; 1]%nat; glowElement := [2; 0]%nat;
                 path := [0%nat]; pathLength := 100; duration := 2000;
                 offset := 0; startTime := 1000 |}).
  pose (a2 := {| element := [2; 4]%nat; glowElement := [2; 3]%nat;
                 path := [1%nat]; pathLength := 100; duration := 2000;
                 offset := 0; startTime := 1000 + 2000 |}).
  destruct (Hstart a1 [a2] 1500 w a2) as (l & Hl & _ & _ & Hfr & _ & Hhid).
  cbn [startParticleAnimation st_loop] in Hl. injection Hl as <-.
  destruct Hhid as (Hop & Hx & _).
  - apply elem_of_cons. right. apply elem_of_cons. left. reflexivity.
  - vm_compute. eauto.
  - intros r' Hr' Hown.
    apply elem_of_cons in Hr' as [->|Hr'].
    + destruct Hown as [E|E]; discriminate E.
    + apply elem_of_cons in Hr' as [->|Hr']; [|inversion Hr'].
      vm_compute. reflexivity.
  - split; [exact Hop|]. split; [|exact Hfr].
    etransitivity; [exact Hx | reflexivity].
Defined.

Example hidden_particle_keeps_position :
  attrAt "cx" [1; 1]%nat
    (updateParticlePosition samplePoint (sampleCore 3000) 1500 true 4000 1000
       sampleAnimated) = Some (Some (VNum 0)).
Proof. vm_compute. reflexivity. Qed.

(** ** The particle scheduler *)

Lemma evenIndexed_twice {A : Type} (l : list A) :
  evenIndexed (flat_map twice l) = l.
Proof.
  induction l as [|a l IH]; [reflexivity|].
  cbn [flat_map twice app evenIndexed]. now rewrite IH.
Qed.

Lemma evenIndexed_map {A B : Type} (f : A -> B) (l : list A) :
  evenIndexed (map f l) = map f (evenIndexed l).
Proof.
  revert l. fix IH 1. intros [|a [|b l]]; [reflexivity | reflexivity |].
  cbn [map evenIndexed]. f_equal. apply IH.
Qed.

Section Scheduler.

Variable getTotalLength : Handle -> Q.

#[local] Abbreviation windows := (windowsFrom getTotalLength).
#[local] Abbreviation cursorAfter := (finalCursor getTotalLength).

Lemma createParticlesForPath_summary edge cursor pg svg :
  let r := createParticlesForPath getTotalLength edge cursor pg svg in
  map summary (pp_animations r)
    = twice (edge, (cursor, calculateDuration (getTotalLength edge))) /\
  nextStartTime r = cursor + calculateDuration (getTotalLength edge).
Proof.
  unfold createParticlesForPath.
  cbn [particleCount PARTICLE_CONFIG particleLoop].
  destruct (createParticle pg PARTICLE_STYLE svg) as [p svg'].
  cbn. split; reflexivity.
Qed.

Lemma createAllParticles_summary edges :
  forall cursor pg acc svg,
  let r := createAllParticles getTotalLength edges cursor pg acc svg in
  map summary (fst (fst r))
    = (map summary acc ++ flat_map twice (windows edges cursor))%list /\
  snd (fst r) = cursorAfter edges cursor.
Proof.
  induction edges as [|e edges IH]; intros cursor pg acc svg.
  - cbn. rewrite app_nil_r. split; reflexivity.
  - cbn [createAllParticles windowsFrom finalCursor flat_map].
    destruct (createParticlesForPath_summary e cursor pg svg) as [Hs Hn].
    destruct (IH (nextStartTime (createParticlesForPath getTotalLength e cursor pg svg))
                pg
                (acc ++ pp_animations (createParticlesForPath getTotalLength e cursor pg svg))%list
                (pp_svg (createParticlesForPath getTotalLength e cursor pg svg)))
      as [IH1 IH2].
    cbv zeta in IH1, IH2 |- *.
    rewrite IH1, IH2, Hn. rewrite map_app, Hs, <- app_assoc.
    split; reflexivity.
Qed.

Lemma windows_edges edges cursor :
  map fst (windows edges cursor) = edges.
Proof.
  revert cursor. induction edges as [|e edges IH]; intros cursor;
    [reflexivity|]. cbn. now rewrite IH.
Qed.

Lemma windows_duration edges cursor e s d :
  (e, (s, d)) ∈ windows edges cursor ->
  d = calculateDuration (getTotalLength e).
Proof.
  revert cursor. induction edges as [|e0 edges IH]; intros cursor H.
  - inversion H.
  - cbn in H. apply elem_of_cons in H as [H|H].
    + now inversion H.
    + eapply IH; eassumption.
Qed.

Lemma windows_chain edges : forall cursor i e s d e' s' d',
  windows edges cursor !! i = Some (e, (s, d)) ->
  windows edges cursor !! S i = Some (e', (s', d')) ->
  s' = s + d.
Proof.
  induction edges as [|e0 edges IH]; intros cursor i e s d e' s' d' H1 H2.
  - discriminate.
  - destruct i as [|i].
    + cbn in H1. inversion H1; subst.
      destruct edges as [|e1 edges]; [discriminate|].
      cbn in H2. now inversion H2.
    + cbn in H1, H2. eapply IH; eassumption.
Qed.

Lemma windows_after edges : forall cursor e s d,
  (e, (s, d)) ∈ windows edges cursor -> cursor <= s.
Proof.
  induction edges as [|e0 edges IH]; intros cursor e s d H.
  - inversion H.
  - cbn in H. apply elem_of_cons in H as [H|H].
    + inversion H; subst. lra.
    + apply IH in H. pose proof (calculateDuration_pos (getTotalLength e0)). lra.
Qed.

Lemma windows_ordered edges : forall cursor i j e s d e' s' d',
  (i < j)%nat ->
  windows edges cursor !! i = Some (e, (s, d)) ->
  windows edges cursor !! j = Some (e', (s', d')) ->
  s + d <= s'.
Proof.
  induction edges as [|e0 edges IH]; intros cursor i j e s d e' s' d' Hij H1 H2.
  - discriminate.
  - destruct j as [|j]; [lia|]. destruct i as [|i].
    + cbn in H1, H2. inversion H1; subst.
      apply list_elem_of_lookup_2 in H2. now apply windows_after in H2.
    + cbn in H1, H2. eapply IH; [|eassumption|eassumption]. lia.
Qed.

Lemma cursorAfter_sum edges : forall cursor,
  cursorAfter edges cursor
  == cursor + Qsum (map (fun w => snd (snd w)) (windows edges cursor)).
Proof.
  induction edges as [|e edges IH]; intros cursor.
  - cbn. lra.
  - cbn [finalCursor windowsFrom map snd]. rewrite IH.
    unfold Qsum. cbn [fold_right]. ring.
Qed.

(** The maximum that [startParticleAnimation] computes follows the
    cursor. *)
Lemma sequenceDuration_fold now edges : forall cursor cores total,
  map summary cores = windows edges cursor ->
  total == cursor - now ->
  fold_left
    (fun totalSequenceDuration anim =>
       let endTime := startTime anim + duration anim - now in
       if Qltb totalSequenceDuration endTime then endTime
       else totalSequenceDuration)
    cores total
  == cursorAfter edges cursor - now.
Proof.
  induction edges as [|e edges IH]; intros cursor cores total Hc Ht.
  - destruct cores; [|discriminate]. cbn. exact Ht.
  - destruct cores as [|c cores]; [discriminate|].
    cbn [map windowsFrom] in Hc. unfold summary at 1, window in Hc.
    injection Hc as Hp Hs Hd Hrest.
    cbn [fold_left finalCursor].
    pose proof (calculateDuration_pos (getTotalLength e)) as Hpos.
    destruct (Qltb_spec total (startTime c + duration c - now)) as [Hlt|Hge].
    + apply IH; [exact Hrest|]. rewrite Hs, Hd. lra.
    + exfalso. apply Hge. rewrite Hs, Hd. lra.
Qed.

(** The windows are those of the specification's scheduler. *)
Lemma windows_schedule edges : forall c c',
  c == c' ->
  Forall2 (fun w s => fst (snd w) == fst s /\ snd (snd w) == snd s)
    (windows edges c) (schedule (map getTotalLength edges) c').
Proof.
  induction edges as [|e edges IH]; intros c c' Hc; cbn; constructor.
  - cbn. split; [exact Hc | apply calculateDuration_is_clamp].
  - apply IH. rewrite Hc, calculateDuration_is_clamp. reflexivity.
Qed.

End Scheduler.

Section Setup.

Variable getTotalLength : Handle -> Q.
Variable getPointAtLength : Handle -> Q -> option (Q * Q).

(** What the records of a list that follows the windows of [edges] satisfy. *)
Lemma cores_of_windows edges now (animations : list ParticleAnimation) :
  map summary animations = flat_map twice (windowsFrom getTotalLength edges now) ->
  let cores := evenIndexed animations in
  map summary cores = windowsFrom getTotalLength edges now.
Proof.
  intros H cores. subst cores.
  rewrite <- evenIndexed_map, H. apply evenIndexed_twice.
Qed.

Lemma lookup_summary (cores : list ParticleAnimation) ws i c :
  map summary cores = ws -> cores !! i = Some c ->
  ws !! i = Some (path c, (startTime c, duration c)).
Proof.
  intros <- H. change (map summary cores) with (summary <$> cores).
  rewrite list_lookup_fmap, H. reflexivity.
Qed.

(** The scheduler read with exact arithmetic, that is, where no sum of
    a start time and a duration is rounded: each edge, in traversal
    order, gets one window (shared by its core and its outer glow); the
    first window starts at the setup time, each next window starts where
    the previous one ends, the windows are pairwise disjoint, they are
    those of the specification's scheduler, and the loop duration is the
    sum of the durations.  With no edge no loop is started.  The
    rounding of the doubles is treated with [Double] below. *)
Lemma particle_windows_exact (now currentTime : Q) (w : World) :
  let edges := enh_edges (enhanceSVG (w_svg w)) in
  match st_loop (setupParticleAnimations getTotalLength getPointAtLength
                   now currentTime w) with
  | None => edges = []
  | Some l =>
      let cores := evenIndexed (loop_animations l) in
      map path cores = edges /\
      map summary (loop_animations l) = flat_map twice (map summary cores) /\
      (forall c, c ∈ cores ->
         duration c = calculateDuration (getTotalLength (path c))) /\
      (forall c, cores !! 0%nat = Some c -> startTime c = now) /\
      (forall i c c', cores !! i = Some c -> cores !! S i = Some c' ->
         startTime c' = startTime c + duration c) /\
      (forall i j c c' t, i <> j -> cores !! i = Some c -> cores !! j = Some c' ->
         ~ (inWindow (startTime c) (duration c) t /\
            inWindow (startTime c') (duration c') t)) /\
      Forall2 (fun c s => startTime c == fst s /\ duration c == snd s)
        cores (schedule (map getTotalLength edges) now) /\
      sequenceStartTime l = now /\
      totalSequenceDuration l == Qsum (map duration cores)
  end.
Proof.
  intros edges. subst edges. unfold setupParticleAnimations.
  set (enh := enhanceSVG (w_svg w)). clearbody enh.
  destruct enh as [edges pg svg0].
  cbn [enh_edges enh_particleGroup enh_svg].
  pose proof (createAllParticles_summary getTotalLength edges now
                pg [] svg0) as [Hsum _].
  destruct (createAllParticles getTotalLength edges now _ [] _)
    as [[animations final] svg].
  cbn [fst snd map app] in Hsum.
  pose proof (cores_of_windows edges now animations Hsum) as Hcores.
  cbv zeta in Hcores.
  destruct animations as [|first rest].
  - cbn. destruct edges; [reflexivity | discriminate].
  - cbn [startParticleAnimation st_loop loop_animations sequenceStartTime
           totalSequenceDuration].
    set (animations := first :: rest) in *.
    set (cores := evenIndexed animations) in *.
    assert (Hfirst : cores !! 0%nat = Some first) by reflexivity.
    assert (Hnow : startTime first = now).
    { pose proof (lookup_summary _ _ _ _ Hcores Hfirst) as H.
      destruct edges; [discriminate|]. cbn in H. congruence. }
    split.
    { rewrite <- (windows_edges getTotalLength edges now), <- Hcores.
      rewrite map_map. reflexivity. }
    split; [now rewrite Hcores|].
    split.
    { intros c Hc. apply (windows_duration getTotalLength edges now _ (startTime c)).
      rewrite <- Hcores. change (path c, (startTime c, duration c)) with (summary c).
      apply list_elem_of_fmap. eauto. }
    split.
    { intros c Hc. rewrite Hfirst in Hc. congruence. }
    split.
    { intros i c c' Hc Hc'.
      eapply (windows_chain getTotalLength edges now i);
        eapply lookup_summary; eassumption. }
    split.
    { intros i j c c' t Hij Hc Hc' [[H1 H2] [H3 H4]].
      pose proof (lookup_summary _ _ _ _ Hcores Hc) as Lc.
      pose proof (lookup_summary _ _ _ _ Hcores Hc') as Lc'.
      destruct (Nat.lt_ge_cases i j) as [Hlt|Hge].
      - pose proof (windows_ordered getTotalLength edges now i j _ _ _ _ _ _ Hlt Lc Lc').
        lra.
      - assert (Hlt : (j < i)%nat) by lia.
        pose proof (windows_ordered getTotalLength edges now j i _ _ _ _ _ _ Hlt Lc' Lc).
        lra. }
    split.
    { pose proof (windows_schedule getTotalLength edges now now (Qeq_refl now)) as F.
      rewrite <- Hcores in F.
      change (map summary cores) with (summary <$> cores) in F.
      apply Forall2_fmap_l in F. exact F. }
    split; [exact Hnow|].
    unfold sequenceDuration. fold cores. rewrite Hnow.
    rewrite (sequenceDuration_fold getTotalLength now edges now cores 0 Hcores)
      by lra.
    rewrite cursorAfter_sum, <- Hcores, map_map. cbn [summary window snd].
    set (s := Qsum _). ring.
Qed.

End Setup.

(** ** The graphic tree: induction, extensionality, iteration *)

Lemma Element_ind' (P : Element -> Prop) :
  (forall hd ks, Forall P ks -> P (Node hd ks)) -> forall e, P e.
Proof.
  intros H. fix IH 1. intros [hd ks]. apply H.
  induction ks as [|k ks IHks]; constructor; [apply IH | exact IHks].
Qed.

Lemma head_children e : e = Node (head e) (children e).
Proof. destruct e; reflexivity. Qed.

(** Two trees with the same head at every handle are the same tree. *)
Lemma tree_ext : forall t1 t2,
  (forall h, getHead h t1 = getHead h t2) -> t1 = t2.
Proof.
  induction t1 as [hd ks IH] using Element_ind'. intros [hd' ks'] H.
  pose proof (H []) as H0. cbn in H0. injection H0 as ->.
  f_equal. apply list_eq. intros i.
  pose proof (H [i]) as Hi. rewrite !getHead_cons in Hi. cbn [children] in Hi.
  destruct (ks !! i) as [k|] eqn:Ek, (ks' !! i) as [k'|] eqn:Ek';
    cbn in Hi; try discriminate; [|reflexivity].
  f_equal. rewrite Forall_lookup in IH. apply (IH i k Ek).
  intros h. pose proof (H (i :: h)) as Hh. rewrite !getHead_cons in Hh.
  cbn [children] in Hh. now rewrite Ek, Ek' in Hh.
Qed.

Lemma occ_app h hs hs' : occ h (hs ++ hs') = (occ h hs + occ h hs')%nat.
Proof.
  induction hs as [|x hs IH]; [reflexivity|]. cbn.
  destruct (decide (x = h)); rewrite IH; reflexivity.
Qed.

Lemma occ_pos h hs : (0 < occ h hs)%nat <-> h ∈ hs.
Proof.
  induction hs as [|x hs IH]; cbn.
  - split; [lia | intros H; inversion H].
  - rewrite elem_of_cons. destruct (decide (x = h)) as [->|Hne].
    + split; [auto | lia].
    + rewrite IH. split; [auto | intros [->|H]; [congruence | exact H]].
Qed.

Lemma occ_zero h hs : h ∉ hs -> occ h hs = 0%nat.
Proof.
  intros H. destruct (occ h hs) eqn:E; [reflexivity|].
  exfalso. apply H, occ_pos. lia.
Qed.

Lemma iter_shift {A : Type} (g : A -> A) n x :
  Nat.iter n g (g x) = g (Nat.iter n g x).
Proof.
  induction n as [|n IH]; [reflexivity|].
  change (g (Nat.iter n g (g x)) = g (g (Nat.iter n g x))). now rewrite IH.
Qed.

(** The head at [h] after [forEach]: the callback applied as often as [h]
    occurs in the list. *)
Lemma getHead_forEachHead (g : Head -> Head) hs : forall h svg,
  getHead h (forEachHead hs g svg) = Nat.iter (occ h hs) g <$> getHead h svg.
Proof.
  unfold forEachHead.
  induction hs as [|x hs IH]; intros h svg; cbn [fold_left occ].
  - cbn. destruct (getHead h svg); reflexivity.
  - rewrite IH, getHead_updateAt.
    destruct (decide (x = h)) as [->|Hne].
    + rewrite decide_True by reflexivity.
      destruct (getHead h svg) as [hd|]; cbn; [|reflexivity].
      f_equal. apply iter_shift.
    + rewrite decide_False by congruence. reflexivity.
Qed.

Lemma iter_idempotent {A : Type} (g : A -> A) n x :
  (forall y, g (g y) = g y) ->
  Nat.iter n g x = if Nat.eqb n 0 then x else g x.
Proof.
  intros Hg. induction n as [|n IH]; [reflexivity|].
  change (g (Nat.iter n g x) = g x). rewrite IH.
  destruct n; cbn; [reflexivity | apply Hg].
Qed.

(** ** What the selectors see *)

Lemma head_stripTree e : head (stripTree e) = stripHead (head e).
Proof. destruct e; reflexivity. Qed.

Lemma children_stripTree e : children (stripTree e) = map stripTree (children e).
Proof. destruct e; reflexivity. Qed.

Lemma stripTree_updateAt (g : Head -> Head) :
  (forall x, stripHead (g x) = stripHead x) ->
  forall h svg, stripTree (updateAt h (onHead g) svg) = stripTree svg.
Proof.
  intros Hg. induction h as [|i h IH]; intros [hd ks].
  - cbn. now rewrite Hg.
  - cbn [updateAt head children stripTree]. f_equal.
    apply list_eq. intros j.
    change (map stripTree ?l) with (stripTree <$> l).
    rewrite !list_lookup_fmap, list_lookup_alter.
    destruct (decide (i = j)) as [->|Hij]; [|reflexivity].
    destruct (ks !! j); cbn; [|reflexivity]. now rewrite IH.
Qed.

Lemma stripTree_forEachHead (g : Head -> Head) :
  (forall x, stripHead (g x) = stripHead x) ->
  forall hs svg, stripTree (forEachHead hs g svg) = stripTree svg.
Proof.
  intros Hg. unfold forEachHead.
  induction hs as [|h hs IH]; intros svg; [reflexivity|].
  cbn [fold_left]. rewrite IH. now apply stripTree_updateAt.
Qed.

Lemma getHead_stripTree : forall h svg,
  getHead h (stripTree svg) = stripHead <$> getHead h svg.
Proof.
  induction h as [|i h IH]; intros [hd ks]; [reflexivity|].
  rewrite !getHead_cons. cbn [stripTree children].
  change (map stripTree ks) with (stripTree <$> ks).
  rewrite list_lookup_fmap. destruct (ks !! i); cbn; [apply IH | reflexivity].
Qed.

Lemma flatMapI_ext {A B : Type} (f g : nat -> A -> list B) (l : list A) :
  (forall i x, x ∈ l -> f i x = g i x) ->
  forall j, flatMapI f j l = flatMapI g j l.
Proof.
  induction l as [|a l IH]; intros H j; [reflexivity|].
  cbn [flatMapI]. f_equal.
  - apply H. now left.
  - apply IH. intros i x Hi. apply H. now right.
Qed.

Lemma flatMapI_map {A B C : Type} (f : nat -> B -> list C) (m : A -> B) (l : list A) :
  forall j, flatMapI f j (map m l) = flatMapI (fun i x => f i (m x)) j l.
Proof.
  induction l as [|a l IH]; intros j; [reflexivity|].
  cbn [map flatMapI]. now rewrite IH.
Qed.

Lemma flatMapI_app {A B : Type} (f : nat -> A -> list B) (l l' : list A) :
  forall j, flatMapI f j (l ++ l') = (flatMapI f j l ++ flatMapI f (j + length l) l')%list.
Proof.
  induction l as [|a l IH]; intros j.
  - cbn. now rewrite Nat.add_0_r.
  - cbn [app flatMapI length]. rewrite IH, <- app_assoc.
    now rewrite Nat.add_succ_comm.
Qed.

Lemma selectAll_unfold P ancs hd ks :
  selectAll P ancs (Node hd ks) =
  ((if P ancs (Node hd ks) then [[]] else []) ++
   flatMapI (fun i k => map (cons i) (selectAll P (hd :: ancs) k)) 0%nat ks)%list.
Proof. reflexivity. Qed.

(** A predicate that sees only the stripped tree selects the same handles
    in a tree and in its stripped form. *)
Lemma selectAll_strip P :
  stripInv P ->
  forall e ancs,
  selectAll P ancs e = selectAll P (map stripHead ancs) (stripTree e).
Proof.
  intros HP. induction e as [hd ks IH] using Element_ind'. intros ancs.
  cbn [stripTree]. rewrite !selectAll_unfold. f_equal.
  - rewrite (HP ancs (Node hd ks)). reflexivity.
  - rewrite flatMapI_map. apply flatMapI_ext.
    intros i k Hk. rewrite Forall_forall in IH.
    now rewrite (IH k Hk (hd :: ancs)).
Qed.

Lemma selectBelow_strip P svg :
  stripInv P -> selectBelow P svg = selectBelow P (stripTree svg).
Proof.
  intros HP. unfold selectBelow.
  rewrite children_stripTree, head_stripTree, flatMapI_map.
  apply flatMapI_ext. intros i k Hk.
  now rewrite (selectAll_strip P HP k [head svg]).
Qed.

Lemma selectBelow_similar P svg svg' :
  stripInv P -> stripTree svg = stripTree svg' ->
  selectBelow P svg = selectBelow P svg'.
Proof.
  intros HP E. rewrite (selectBelow_strip P svg HP), E.
  symmetry. now apply selectBelow_strip.
Qed.

Lemma classList_contains_strip k h :
  k ∉ ADDED -> classList_contains k (stripHead h) = classList_contains k h.
Proof.
  intros Hk. unfold classList_contains, stripHead; cbn [classList].
  apply bool_decide_ext. rewrite !list_elem_of_In, filter_In.
  rewrite negb_true_iff, bool_decide_eq_false. tauto.
Qed.

Lemma matchesCompound_strip c h :
  compoundSafe c = true ->
  matchesCompound c (stripHead h) = matchesCompound c h.
Proof.
  intros Hs. unfold matchesCompound.
  change (tagName (stripHead h)) with (tagName h). f_equal.
  unfold compoundSafe in Hs.
  induction (selClasses c) as [|k l IH]; [reflexivity|].
  cbn [forallb] in *. apply andb_true_iff in Hs as [H1 H2].
  rewrite IH by exact H2. f_equal. apply classList_contains_strip.
  rewrite negb_true_iff, bool_decide_eq_false in H1. exact H1.
Qed.

Lemma existsb_map {A B : Type} (f : B -> bool) (m : A -> B) (l : list A) :
  existsb f (map m l) = existsb (fun x => f (m x)) l.
Proof. induction l as [|a l IH]; cbn; congruence. Qed.

Lemma existsb_ext_all {A : Type} (f g : A -> bool) (l : list A) :
  (forall x, f x = g x) -> existsb f l = existsb g l.
Proof. intros H. induction l as [|a l IH]; cbn; congruence. Qed.

Lemma matchesComplex_strip s ancs h :
  complexSafe s = true ->
  matchesComplex s (map stripHead ancs) (stripHead h) = matchesComplex s ancs h.
Proof.
  destruct s as [c|a c]; cbn [complexSafe matchesComplex]; intros Hs.
  - now apply matchesCompound_strip.
  - apply andb_true_iff in Hs as [Ha Hc].
    rewrite matchesCompound_strip by exact Hc. f_equal.
    rewrite existsb_map. apply existsb_ext_all.
    intros x. now apply matchesCompound_strip.
Qed.

Lemma selectorPred_stripInv sel :
  selectorSafe sel = true -> stripInv (selectorPred sel).
Proof.
  intros Hs ancs e. unfold selectorPred, matchesSelector.
  rewrite head_stripTree.
  unfold selectorSafe in Hs. rewrite forallb_forall in Hs.
  induction sel as [|s sel IH]; [reflexivity|]. cbn [existsb].
  rewrite matchesComplex_strip by (apply Hs; now left).
  f_equal. apply IH. intros x Hx. apply Hs. now right.
Qed.

Lemma querySelectorAll_similar sel svg svg' :
  selectorSafe sel = true -> stripTree svg = stripTree svg' ->
  querySelectorAll svg sel = querySelectorAll svg' sel.
Proof.
  intros Hs E. unfold querySelectorAll.
  apply selectBelow_similar; [now apply selectorPred_stripInv | exact E].
Qed.

(** ** The callbacks, field by field *)

Lemma classList_add_actOn c x : classList_add c x = actOn (addTok c) id id x.
Proof.
  unfold classList_add, actOn, addTok, classList_contains.
  destruct x as [t cl a s tx]; cbn.
  destruct (bool_decide (c ∈ cl)); reflexivity.
Qed.

Lemma setAttribute_actOn n v x : setAttribute n v x = actOn id (insert n v) id x.
Proof. reflexivity. Qed.

Lemma actOn_actOn fc fa fs fc' fa' fs' x :
  actOn fc fa fs (actOn fc' fa' fs' x) = actOn (fc ∘ fc') (fa ∘ fa') (fs ∘ fs') x.
Proof. reflexivity. Qed.

Lemma actOn_ext fc fa fs fc' fa' fs' x :
  fc (classList x) = fc' (classList x) ->
  fa (attributes x) = fa' (attributes x) ->
  fs (style x) = fs' (style x) ->
  actOn fc fa fs x = actOn fc' fa' fs' x.
Proof. unfold actOn. now intros -> -> ->. Qed.

Lemma actOn_id x : actOn id id id x = x.
Proof. destruct x; reflexivity. Qed.

Lemma tagName_actOn fc fa fs x : tagName (actOn fc fa fs x) = tagName x.
Proof. reflexivity. Qed.

Lemma enhanceNode_actOn x :
  enhanceNode x = actOn (addTok "animated-node") (nodeAttrs (tagName x)) id x.
Proof.
  unfold enhanceNode. rewrite classList_add_actOn.
  rewrite tagName_actOn. unfold nodeAttrs.
  destruct (String.eqb (tagName x) "rect"); reflexivity.
Qed.

Lemma enhanceEdgeLabelRect_actOn x :
  enhanceEdgeLabelRect x = actOn id boxAttrs id x.
Proof.
  assert (G : forall d p m y,
             growHead (parseFloat (attrOr (getAttribute d y) (VNum 0))) d p m y
             = actOn id (grow d p m) id y).
  { intros d p m [t cl a s tx].
    unfold growHead, grow, actOn, getAttribute, setAttribute.
    cbn [attributes tagName classList style text id].
    destruct (jsStrictNe _ _); reflexivity. }
  change (enhanceEdgeLabelRect x)
    with (setAttribute "ry" (VNum EDGE_LABEL_MIN_SIZE.borderRadius)
            (setAttribute "rx" (VNum EDGE_LABEL_MIN_SIZE.borderRadius)
               (growHead (parseFloat (attrOr (getAttribute "height" x) (VNum 0)))
                  "height" "y" (EDGE_LABEL_MIN_SIZE.height + 10)
                  (growHead (parseFloat (attrOr (getAttribute "width" x) (VNum 0)))
                     "width" "x" (EDGE_LABEL_MIN_SIZE.width + 20) x)))).
  rewrite (G "width" "x").
  assert (E : getAttribute "height" x
              = getAttribute "height"
                  (actOn id (grow "width" "x" (EDGE_LABEL_MIN_SIZE.width + 20)) id x)).
  { unfold getAttribute, actOn, grow; cbn [attributes id].
    destruct (jsStrictNe _ _); [|reflexivity].
    rewrite !lookup_insert_ne by discriminate. reflexivity. }
  rewrite E, (G "height" "y"). reflexivity.
Qed.

Lemma fixArrowMarker_actOn x : fixArrowMarker x = actOn id markerAttrs id x.
Proof.
  destruct x as [t cl a s tx].
  unfold fixArrowMarker, markerAttrs, actOn, getAttribute, setAttribute.
  cbn [attributes tagName classList style text id].
  destruct (isArrowMarkerId _); reflexivity.
Qed.

Lemma style_removeProperty_actOn p x :
  style_removeProperty p x = actOn id id (delete p) x.
Proof. reflexivity. Qed.

(** *** Tokens *)

Lemma addTok_elem c d l : d ∈ addTok c l <-> d = c \/ d ∈ l.
Proof.
  unfold addTok. destruct (bool_decide (c ∈ l)) eqn:E.
  - apply bool_decide_eq_true in E. split; [auto | intros [->|H]; auto].
  - rewrite elem_of_app, list_elem_of_singleton. tauto.
Qed.

Lemma addTok_present c l : c ∈ l -> addTok c l = l.
Proof.
  intros H. unfold addTok. now rewrite bool_decide_eq_true_2.
Qed.

Lemma addTok_idem c l : addTok c (addTok c l) = addTok c l.
Proof. apply addTok_present, addTok_elem. now left. Qed.

Lemma addTok_strip c l :
  c ∈ ADDED ->
  List.filter (fun k => negb (bool_decide (k ∈ ADDED))) (addTok c l)
  = List.filter (fun k => negb (bool_decide (k ∈ ADDED))) l.
Proof.
  intros Hc. unfold addTok. destruct (bool_decide (c ∈ l)); [reflexivity|].
  rewrite List.filter_app. cbn [List.filter].
  rewrite (bool_decide_eq_true_2 _ Hc). cbn. apply app_nil_r.
Qed.

(** *** What the callbacks keep of the stripped head *)

Lemma stripHead_actOn fc fa fs x :
  List.filter (fun k => negb (bool_decide (k ∈ ADDED))) (fc (classList x))
  = List.filter (fun k => negb (bool_decide (k ∈ ADDED))) (classList x) ->
  stripHead (actOn fc fa fs x) = stripHead x.
Proof. unfold stripHead, actOn; cbn. now intros ->. Qed.

Lemma stripHead_enhanceNode x : stripHead (enhanceNode x) = stripHead x.
Proof.
  rewrite enhanceNode_actOn. apply stripHead_actOn, addTok_strip.
  unfold ADDED. set_solver.
Qed.

Lemma stripHead_add_label x :
  stripHead (classList_add "animated-label" x) = stripHead x.
Proof.
  rewrite classList_add_actOn. apply stripHead_actOn, addTok_strip.
  unfold ADDED. set_solver.
Qed.

Lemma stripHead_add_edge x :
  stripHead (classList_add "animated-edge" x) = stripHead x.
Proof.
  rewrite classList_add_actOn. apply stripHead_actOn, addTok_strip.
  unfold ADDED. set_solver.
Qed.

Lemma stripHead_enhanceEdgeLabelRect x :
  stripHead (enhanceEdgeLabelRect x) = stripHead x.
Proof. rewrite enhanceEdgeLabelRect_actOn. now apply stripHead_actOn. Qed.

Lemma stripHead_fixArrowMarker x : stripHead (fixArrowMarker x) = stripHead x.
Proof. rewrite fixArrowMarker_actOn. now apply stripHead_actOn. Qed.

Lemma stripHead_style_removeProperty p x :
  stripHead (style_removeProperty p x) = stripHead x.
Proof. reflexivity. Qed.

(** ** The label-box and marker callbacks on the attributes *)

Lemma Qmax_absorb q m : Qeq_bool (Qmax (Qmax q m) m) (Qmax q m) = true.
Proof.
  apply Qeq_bool_iff.
  destruct (Q.max_spec q m) as [[H E]|[H E]];
    destruct (Q.max_spec (Qmax q m) m) as [[H' E']|[H' E']];
    rewrite E'; rewrite ?E in *; lra.
Qed.

Lemma jsLift2_None_r f a : jsLift2 f a None = None.
Proof. destruct a; reflexivity. Qed.

(** The three ways a block of [enhanceEdgeLabelRect] can go: the size is
    not a number; it is a number at or above the minimum; it is a number
    below the minimum. *)
Lemma grow_cases vd vp m :
  (parseFloat (attrOr vd (VNum 0)) = None /\
   growD vd m = Some (VStr "NaN") /\ growP vd vp m = Some (VStr "NaN")) \/
  (exists q, parseFloat (attrOr vd (VNum 0)) = Some q /\ m <= q /\
             growD vd m = vd /\ growP vd vp m = vp) \/
  (exists q, parseFloat (attrOr vd (VNum 0)) = Some q /\ q < m /\
             growD vd m = Some (VNum (Qmax q m)) /\ Qmax q m == m /\
             growP vd vp m
             = Some (toString (jsSub (parseFloat (attrOr vp (VNum 0)))
                                     (Some ((Qmax q m - q) / 2))))).
Proof.
  unfold growD, growP.
  destruct (parseFloat (attrOr vd (VNum 0))) as [q|] eqn:E.
  - right. cbn [jsMax jsLift2 jsStrictNe jsSub jsDiv].
    destruct (Qeq_bool (Qmax q m) q) eqn:Eq; cbn [negb].
    + left. exists q. apply Qeq_bool_iff in Eq.
      repeat split; try reflexivity.
      destruct (Q.max_spec q m) as [[H E']|[H E']]; rewrite E' in Eq; lra.
    + right. exists q. apply Qeq_bool_neq in Eq.
      assert (Hlt : q < m).
      { destruct (Q.max_spec q m) as [[H E']|[H E']]; [exact H|].
        exfalso. apply Eq. exact E'. }
      repeat split; try reflexivity; try exact Hlt.
      destruct (Q.max_spec q m) as [[H E']|[H E']]; [exact E' | lra].
  - left. unfold jsMax, jsSub, jsDiv. cbn [jsLift2 jsStrictNe].
    rewrite jsLift2_None_r. cbn [toString]. auto.
Qed.

Lemma growD_idem vd m : growD (growD vd m) m = growD vd m.
Proof.
  destruct (grow_cases vd None m) as [(E & D & _)|[(q & E & H & D & _)|(q & E & H & D & _)]];
    rewrite D.
  - reflexivity.
  - exact D.
  - unfold growD. cbn [attrOr parseFloat jsMax jsLift2 jsStrictNe].
    rewrite Qmax_absorb. reflexivity.
Qed.

Lemma growP_idem vd vp m :
  growP (growD vd m) (growP vd vp m) m = growP vd vp m.
Proof.
  destruct (grow_cases vd vp m) as [(E & D & P)|[(q & E & H & D & P)|(q & E & H & D & _ & P)]];
    rewrite D.
  - rewrite P. reflexivity.
  - rewrite P. exact P.
  - unfold growP at 1. cbn [attrOr parseFloat jsMax jsLift2 jsStrictNe].
    rewrite Qmax_absorb. reflexivity.
Qed.

Lemma lookup_grow d p m a n :
  d <> p ->
  grow d p m a !! n =
  if decide (n = p) then growP (a !! d) (a !! p) m
  else if decide (n = d) then growD (a !! d) m
  else a !! n.
Proof.
  intros Hdp. unfold grow, growP, growD.
  destruct (jsStrictNe _ _).
  - rewrite (lookup_insert_ne _ d p) by exact Hdp.
    rewrite lookup_insert. destruct (decide (p = n)) as [->|Hp].
    + now rewrite decide_True.
    + rewrite decide_False by congruence.
      rewrite lookup_insert. destruct (decide (d = n)) as [->|Hd].
      * now rewrite decide_True.
      * now rewrite decide_False by congruence.
  - destruct (decide (n = p)) as [->|Hp]; [reflexivity|].
    destruct (decide (n = d)) as [->|Hd]; reflexivity.
Qed.

Lemma grow_idem d p m a : d <> p -> grow d p m (grow d p m a) = grow d p m a.
Proof.
  intros Hdp. apply map_eq. intros n.
  assert (Hd : grow d p m a !! d = growD (a !! d) m).
  { rewrite lookup_grow by exact Hdp.
    rewrite decide_False by exact Hdp. now rewrite decide_True. }
  assert (Hp : grow d p m a !! p = growP (a !! d) (a !! p) m).
  { rewrite lookup_grow by exact Hdp. now rewrite decide_True. }
  rewrite (lookup_grow d p m (grow d p m a)) by exact Hdp.
  rewrite Hd, Hp, growD_idem, growP_idem.
  destruct (decide (n = p)) as [->|Hnp]; [now rewrite Hp|].
  destruct (decide (n = d)) as [->|Hnd]; [now rewrite Hd|].
  reflexivity.
Qed.

Lemma lookup_grow_other d p m a n :
  d <> p -> n <> d -> n <> p -> grow d p m a !! n = a !! n.
Proof.
  intros Hdp Hd Hp. rewrite lookup_grow by exact Hdp.
  now rewrite !decide_False.
Qed.


(** ** Supports: callbacks on disjoint attribute names commute *)

Lemma supported_commute K K' F G a :
  supported K F -> supported K' G ->
  (forall k, k ∈ K -> k ∉ K') ->
  F (G a) = G (F a).
Proof.
  intros [F1 F2] [G1 G2] Hdisj. apply map_eq. intros n.
  destruct (decide (n ∈ K)) as [HK|HK].
  - rewrite (G1 (F a) n) by (now apply Hdisj).
    apply F2; [|exact HK]. intros k Hk. apply G1. now apply Hdisj.
  - rewrite (F1 (G a) n) by exact HK.
    destruct (decide (n ∈ K')) as [HK'|HK'].
    + apply G2; [|exact HK']. intros k Hk. symmetry. apply F1.
      intros Hk'. now apply (Hdisj k).
    + rewrite (G1 a n), (G1 (F a) n) by exact HK'. symmetry. now apply F1.
Qed.

Lemma supported_id K : supported K id.
Proof. split; [reflexivity | intros a b n H Hn; now apply H]. Qed.

Lemma supported_compose K F G :
  supported K F -> supported K G -> supported K (F ∘ G).
Proof.
  intros [F1 F2] [G1 G2]. split; cbn.
  - intros a n Hn. rewrite F1 by exact Hn. now apply G1.
  - intros a b n Hab Hn. apply F2; [|exact Hn].
    intros k Hk. now apply G2.
Qed.

Lemma supported_iter K F k : supported K F -> supported K (Nat.iter k F).
Proof.
  intros HF. induction k as [|k IH]; [apply supported_id|].
  change (Nat.iter (S k) F) with (F ∘ Nat.iter k F).
  now apply supported_compose.
Qed.

Lemma not_elem_of_cons_inv {A : Type} (x y : A) l : x ∉ y :: l -> x <> y /\ x ∉ l.
Proof. rewrite not_elem_of_cons. tauto. Qed.

Lemma supported_insert K n v : n ∈ K -> supported K (insert n v).
Proof.
  intros Hn. split.
  - intros a m Hm. rewrite lookup_insert_ne; [reflexivity|]. intros ->. contradiction.
  - intros a b m Hab Hm. rewrite !lookup_insert.
    destruct (decide (n = m)); [reflexivity | now apply Hab].
Qed.

Lemma supported_grow K d p m :
  d <> p -> d ∈ K -> p ∈ K -> supported K (grow d p m).
Proof.
  intros Hdp Hd Hp. split.
  - intros a n Hn. apply lookup_grow_other; [exact Hdp| |]; intros ->; contradiction.
  - intros a b n Hab Hn. rewrite !lookup_grow by exact Hdp.
    rewrite (Hab d Hd), (Hab p Hp).
    destruct (decide (n = p)); [reflexivity|].
    destruct (decide (n = d)); [reflexivity|]. now apply Hab.
Qed.

Lemma supported_boxAttrs : supported BOX_KEYS boxAttrs.
Proof.
  unfold boxAttrs.
  change (supported BOX_KEYS
            (insert "ry" (VNum EDGE_LABEL_MIN_SIZE.borderRadius)
             ∘ (insert "rx" (VNum EDGE_LABEL_MIN_SIZE.borderRadius)
             ∘ (grow "height" "y" (EDGE_LABEL_MIN_SIZE.height + 10)
             ∘ grow "width" "x" (EDGE_LABEL_MIN_SIZE.width + 20))))).
  repeat apply supported_compose;
    first [ apply supported_insert | apply supported_grow; [discriminate| |] ];
    unfold BOX_KEYS; set_solver.
Qed.

Lemma supported_nodeAttrs t : supported BOX_KEYS (nodeAttrs t).
Proof.
  unfold nodeAttrs. destruct (String.eqb t "rect"); [|apply supported_id].
  change (supported BOX_KEYS (insert "ry" (VNum 10) ∘ insert "rx" (VNum 10))).
  apply supported_compose; apply supported_insert; unfold BOX_KEYS; set_solver.
Qed.

Lemma supported_markerAttrs : supported MARKER_KEYS markerAttrs.
Proof.
  split.
  - intros a n Hn. unfold markerAttrs. destruct (isArrowMarkerId _); [|reflexivity].
    rewrite lookup_insert_ne; [reflexivity|]. intros <-. apply Hn.
    unfold MARKER_KEYS. set_solver.
  - intros a b n Hab Hn. unfold markerAttrs.
    rewrite (Hab "id") by (unfold MARKER_KEYS; repeat constructor).
    rewrite (Hab "refX") by (unfold MARKER_KEYS; repeat constructor).
    destruct (isArrowMarkerId _); [|now apply Hab].
    rewrite !lookup_insert. destruct (decide ("refX" = n)); [reflexivity | now apply Hab].
Qed.

Lemma box_marker_disjoint k : k ∈ BOX_KEYS -> k ∉ MARKER_KEYS.
Proof.
  unfold BOX_KEYS, MARKER_KEYS. rewrite !elem_of_cons, !elem_of_nil.
  intros H H'.
  repeat match goal with H : _ \/ _ |- _ => destruct H end;
    subst; try discriminate; try contradiction.
Qed.

(** ** One run of the passes on one element *)

Lemma lookup_nodeAttrs_other t a n :
  n <> "rx" -> n <> "ry" -> nodeAttrs t a !! n = a !! n.
Proof.
  intros H1 H2. unfold nodeAttrs. destruct (String.eqb t "rect"); [|reflexivity].
  now rewrite !lookup_insert_ne by congruence.
Qed.

Lemma lookup_markerAttrs_other a n :
  n <> "refX" -> markerAttrs a !! n = a !! n.
Proof.
  intros H. unfold markerAttrs. destruct (isArrowMarkerId _); [|reflexivity].
  now rewrite lookup_insert_ne by congruence.
Qed.

Lemma nodeAttrs_idem t a : nodeAttrs t (nodeAttrs t a) = nodeAttrs t a.
Proof.
  unfold nodeAttrs. destruct (String.eqb t "rect"); [|reflexivity].
  apply map_eq. intros n. rewrite !lookup_insert.
  destruct (decide ("ry" = n)); [reflexivity|].
  destruct (decide ("rx" = n)); reflexivity.
Qed.

Lemma boxAttrs_absorbs a b :
  (forall n, n <> "rx" -> n <> "ry" -> a !! n = b !! n) ->
  boxAttrs a = boxAttrs b.
Proof.
  intros H. apply map_eq. intros n. unfold boxAttrs.
  rewrite !lookup_insert.
  destruct (decide ("ry" = n)) as [|Hry]; [reflexivity|].
  destruct (decide ("rx" = n)) as [|Hrx]; [reflexivity|].
  rewrite !lookup_grow by discriminate.
  rewrite !(decide_False (P := "height" = "x")) by discriminate.
  rewrite !(decide_False (P := "height" = "width")) by discriminate.
  rewrite !(decide_False (P := "y" = "x")) by discriminate.
  rewrite !(decide_False (P := "y" = "width")) by discriminate.
  rewrite (H "height"), (H "y"), (H "width"), (H "x"), (H n) by congruence.
  reflexivity.
Qed.

Lemma boxAttrs_idem a : boxAttrs (boxAttrs a) = boxAttrs a.
Proof.
  unfold boxAttrs at 2.
  set (g := grow "height" "y" _ (grow "width" "x" _ a)).
  rewrite (boxAttrs_absorbs _ g).
  2:{ intros n H1 H2. now rewrite !lookup_insert_ne by congruence. }
  subst g. unfold boxAttrs. do 2 f_equal.
  set (mw := EDGE_LABEL_MIN_SIZE.width + 20).
  set (mh := EDGE_LABEL_MIN_SIZE.height + 10).
  assert (C : forall z, grow "width" "x" mw (grow "height" "y" mh z)
                        = grow "height" "y" mh (grow "width" "x" mw z)).
  { intros z. apply (supported_commute ["width"; "x"] ["height"; "y"]).
    - apply supported_grow; [discriminate| |]; repeat constructor.
    - apply supported_grow; [discriminate| |]; repeat constructor.
    - intros k. rewrite !elem_of_cons, !elem_of_nil.
      intros [->|[->|[]]] [H|[H|[]]]; discriminate. }
  rewrite C, (grow_idem "width" "x") by discriminate.
  now rewrite (grow_idem "height" "y") by discriminate.
Qed.

Lemma passAttrs_idem fn fb t a :
  passAttrs fn fb t (passAttrs fn fb t a) = passAttrs fn fb t a.
Proof.
  unfold passAttrs. destruct fb.
  - rewrite (boxAttrs_absorbs _ (boxAttrs (if fn then nodeAttrs t a else a))).
    + apply boxAttrs_idem.
    + intros n H1 H2. destruct fn; [|reflexivity].
      now apply lookup_nodeAttrs_other.
  - destruct fn; [apply nodeAttrs_idem | reflexivity].
Qed.

Lemma supported_passAttrs fn fb t : supported BOX_KEYS (passAttrs fn fb t).
Proof.
  unfold passAttrs.
  change (supported BOX_KEYS
            ((fun a => if fb then boxAttrs a else a)
             ∘ (fun a => if fn then nodeAttrs t a else a))).
  apply supported_compose.
  - destruct fb; [apply supported_boxAttrs | apply supported_id].
  - destruct fn; [apply supported_nodeAttrs | apply supported_id].
Qed.

Lemma passAttrs_marker fn fb t k a :
  passAttrs fn fb t (Nat.iter k markerAttrs (passAttrs fn fb t a))
  = Nat.iter k markerAttrs (passAttrs fn fb t a).
Proof.
  rewrite (supported_commute BOX_KEYS MARKER_KEYS).
  - now rewrite passAttrs_idem.
  - apply supported_passAttrs.
  - apply supported_iter, supported_markerAttrs.
  - apply box_marker_disjoint.
Qed.

Lemma passClasses_idem fn fl fe l :
  passClasses fn fl fe (passClasses fn fl fe l) = passClasses fn fl fe l.
Proof.
  unfold passClasses. destruct fn, fl, fe;
    repeat (rewrite addTok_present
              by (rewrite ?addTok_elem; auto 10));
    reflexivity.
Qed.

Lemma passStyle_idem fc s : passStyle fc (passStyle fc s) = passStyle fc s.
Proof.
  unfold passStyle. destruct fc; [|reflexivity].
  apply map_eq. intros n. rewrite !lookup_delete.
  destruct (decide ("overflow" = n)); reflexivity.
Qed.

Lemma passHead_actOn fc fn fl fb fe x :
  passHead fc fn fl fb fe x
  = actOn (passClasses fn fl fe) (passAttrs fn fb (tagName x)) (passStyle fc) x.
Proof.
  unfold passHead, passClasses, passAttrs, passStyle.
  destruct x as [t cl a s tx].
  destruct fc, fn, fl, fb, fe;
    rewrite ?style_removeProperty_actOn, ?enhanceNode_actOn,
            ?classList_add_actOn, ?enhanceEdgeLabelRect_actOn;
    reflexivity.
Qed.

Lemma iter_fixArrowMarker k x :
  Nat.iter k fixArrowMarker x = actOn id (Nat.iter k markerAttrs) id x.
Proof.
  induction k as [|k IH].
  - cbn. now rewrite actOn_id.
  - change (fixArrowMarker (Nat.iter k fixArrowMarker x)
            = actOn id (Nat.iter (S k) markerAttrs) id x).
    rewrite IH, fixArrowMarker_actOn. reflexivity.
Qed.

(** A second run of the passes changes nothing on an element that the
    first run and any number of marker repairs have gone over. *)
Lemma passHead_fix fc fn fl fb fe k x :
  passHead fc fn fl fb fe (Nat.iter k fixArrowMarker (passHead fc fn fl fb fe x))
  = Nat.iter k fixArrowMarker (passHead fc fn fl fb fe x).
Proof.
  rewrite iter_fixArrowMarker, !passHead_actOn, !actOn_actOn, !tagName_actOn.
  apply actOn_ext; cbn [actOn classList attributes style compose id].
  - apply passClasses_idem.
  - apply passAttrs_marker.
  - apply passStyle_idem.
Qed.

Lemma passHead_none x : passHead false false false false false x = x.
Proof. reflexivity. Qed.

Lemma stripHead_passHead fc fn fl fb fe x :
  stripHead (passHead fc fn fl fb fe x) = stripHead x.
Proof.
  unfold passHead. destruct fc, fn, fl, fb, fe;
    rewrite ?stripHead_add_edge, ?stripHead_enhanceEdgeLabelRect,
            ?stripHead_add_label, ?stripHead_enhanceNode,
            ?stripHead_style_removeProperty;
    reflexivity.
Qed.

(** The callbacks are idempotent. *)
Lemma enhanceNode_idem x : enhanceNode (enhanceNode x) = enhanceNode x.
Proof.
  rewrite !enhanceNode_actOn, actOn_actOn, tagName_actOn.
  apply actOn_ext; cbn [compose]; [apply addTok_idem | apply nodeAttrs_idem | reflexivity].
Qed.

Lemma classList_add_idem c x : classList_add c (classList_add c x) = classList_add c x.
Proof.
  rewrite !classList_add_actOn, actOn_actOn.
  apply actOn_ext; cbn [compose]; [apply addTok_idem | reflexivity | reflexivity].
Qed.

Lemma enhanceEdgeLabelRect_idem x :
  enhanceEdgeLabelRect (enhanceEdgeLabelRect x) = enhanceEdgeLabelRect x.
Proof.
  rewrite !enhanceEdgeLabelRect_actOn, actOn_actOn.
  apply actOn_ext; cbn [compose]; [reflexivity | apply boxAttrs_idem | reflexivity].
Qed.

(** ** Selections in similar trees *)

Lemma stripTree_onHead g svg :
  stripHead (g (head svg)) = stripHead (head svg) ->
  stripTree (onHead g svg) = stripTree svg.
Proof. destruct svg as [hd ks]; cbn. now intros ->. Qed.

Lemma elem_of_flatMapI {A B : Type} (f : nat -> A -> list B) (l : list A) y :
  forall j, y ∈ flatMapI f j l ->
  exists i x, l !! i = Some x /\ y ∈ f (j + i)%nat x.
Proof.
  induction l as [|a l IH]; intros j H; [inversion H|].
  cbn [flatMapI] in H. apply elem_of_app in H as [H|H].
  - exists 0%nat, a. rewrite Nat.add_0_r. auto.
  - destruct (IH _ H) as (i & x & Hi & Hy).
    exists (S i), x. rewrite <- Nat.add_succ_comm. auto.
Qed.

(** Selected handles lead to elements of the tree. *)
Lemma selectAll_valid P : forall e ancs h,
  h ∈ selectAll P ancs e -> is_Some (getEl h e).
Proof.
  induction e as [hd ks IH] using Element_ind'. intros ancs h H.
  rewrite selectAll_unfold in H. apply elem_of_app in H as [H|H].
  - destruct (P ancs (Node hd ks)); [|inversion H].
    apply list_elem_of_singleton in H as ->. cbn. eauto.
  - apply elem_of_flatMapI in H as (i & k & Hk & H). cbn in H.
    apply list_elem_of_fmap in H as (h' & -> & H').
    rewrite getEl_cons. cbn [children]. rewrite Hk.
    rewrite Forall_lookup in IH. eapply IH; eassumption.
Qed.

Lemma selectBelow_valid P svg h :
  h ∈ selectBelow P svg -> is_Some (getEl h svg) /\ h <> [].
Proof.
  unfold selectBelow. intros H.
  apply elem_of_flatMapI in H as (i & k & Hk & H). cbn in H.
  apply list_elem_of_fmap in H as (h' & -> & H').
  split; [|discriminate].
  rewrite getEl_cons, Hk. eapply selectAll_valid; eassumption.
Qed.

Lemma getHead_is_Some h svg : is_Some (getHead h svg) <-> is_Some (getEl h svg).
Proof.
  unfold getHead. destruct (getEl h svg); split; intros [x Hx]; eauto; discriminate.
Qed.

Lemma getEl_appendChild c svg i h :
  is_Some (getEl (i :: h) svg) ->
  getEl (i :: h) (appendChild c svg) = getEl (i :: h) svg.
Proof.
  destruct svg as [hd ks]. cbn [appendChild]. rewrite !getEl_cons.
  cbn [children]. intros H.
  destruct (ks !! i) as [k|] eqn:Ek; [|destruct H; discriminate].
  now rewrite (lookup_app_l_Some _ _ _ _ Ek).
Qed.

Lemma getHead_appendChild c svg h :
  children c = [] ->
  getHead h (appendChild c svg) =
  match getHead h svg with
  | Some x => Some x
  | None => if decide (h = [length (children svg)]) then Some (head c) else None
  end.
Proof.
  intros Hc. destruct svg as [hd ks]. destruct h as [|i h].
  - reflexivity.
  - cbn [appendChild children]. rewrite !getHead_cons. cbn [children].
    destruct (ks !! i) as [k|] eqn:Ek.
    + rewrite (lookup_app_l_Some _ _ _ _ Ek).
      destruct (getHead h k) as [x|] eqn:Ex; [reflexivity|].
      rewrite decide_False; [reflexivity|].
      intros [= -> ->]. apply lookup_lt_Some in Ek. lia.
    + apply lookup_ge_None in Ek.
      destruct (decide (i = length ks)) as [->|Hi].
      * rewrite list_lookup_middle by reflexivity.
        destruct h as [|j h].
        -- rewrite decide_True by reflexivity. reflexivity.
        -- rewrite decide_False by congruence.
           rewrite getHead_cons, Hc. reflexivity.
      * rewrite decide_False by congruence.
        rewrite lookup_ge_None_2; [reflexivity|]. rewrite length_app; cbn. lia.
Qed.

Lemma selectBelow_appendChild P c svg :
  selectBelow P (appendChild c svg)
  = (selectBelow P svg
     ++ map (cons (length (children svg))) (selectAll P [head svg] c))%list.
Proof.
  destruct svg as [hd ks]. unfold selectBelow. cbn [appendChild children head].
  rewrite flatMapI_app. cbn [flatMapI]. now rewrite app_nil_r.
Qed.

Lemma querySelectorAll_particleLayer sel svg :
  matchesSelector sel [head svg] (head particleLayer) = false ->
  querySelectorAll (appendChild particleLayer svg) sel = querySelectorAll svg sel.
Proof.
  intros H. unfold querySelectorAll. rewrite selectBelow_appendChild.
  unfold particleLayer at 1. cbn [createElement onHead].
  rewrite selectAll_unfold. cbn [flatMapI].
  unfold selectorPred at 2. cbn [head]. unfold particleLayer in H. cbn in H.
  rewrite H. cbn. apply app_nil_r.
Qed.

(** *** The fallback filter *)

Lemma isEdgeFallback_edgeOk svg h : isEdgeFallback svg h = edgeOk (parentHead svg h).
Proof.
  unfold isEdgeFallback, edgeOk, parentHead, parentElement, getHead.
  destruct (parentHandle h) as [p|]; [|reflexivity].
  destruct (getEl p svg); reflexivity.
Qed.

Lemma edgeOk_strip o : edgeOk (stripHead <$> o) = edgeOk o.
Proof.
  destruct o as [p|]; [|reflexivity]. cbn [fmap option_fmap option_map edgeOk].
  unfold edgeOk. rewrite classList_contains_strip; [reflexivity|].
  unfold ADDED. rewrite !elem_of_cons, elem_of_nil.
  intros [H|[H|[H|[]]]]; discriminate.
Qed.

Lemma parentHead_stripTree svg h :
  parentHead (stripTree svg) h = stripHead <$> parentHead svg h.
Proof.
  unfold parentHead. destruct (parentHandle h); [|reflexivity].
  apply getHead_stripTree.
Qed.

Lemma isEdgeFallback_similar svg svg' h :
  stripTree svg = stripTree svg' -> isEdgeFallback svg h = isEdgeFallback svg' h.
Proof.
  intros E. rewrite !isEdgeFallback_edgeOk.
  rewrite <- (edgeOk_strip (parentHead svg h)), <- (edgeOk_strip (parentHead svg' h)).
  now rewrite <- !parentHead_stripTree, E.
Qed.

Lemma edge_selectors_safe :
  forallb selectorSafe MERMAID_SELECTORS.edges = true.
Proof. reflexivity. Qed.

Lemma firstNonEmpty_ext svg svg' sels :
  (forall sel, In sel sels -> querySelectorAll svg sel = querySelectorAll svg' sel) ->
  firstNonEmpty svg sels = firstNonEmpty svg' sels.
Proof.
  induction sels as [|sel sels IH]; intros H; [reflexivity|].
  cbn [firstNonEmpty]. rewrite (H sel) by now left.
  destruct (querySelectorAll svg' sel); [|reflexivity].
  apply IH. intros s Hs. apply H. now right.
Qed.

Lemma findEdgePaths_similar svg svg' :
  stripTree svg = stripTree svg' -> findEdgePaths svg = findEdgePaths svg'.
Proof.
  intros E. unfold findEdgePaths.
  rewrite (firstNonEmpty_ext svg svg').
  2:{ intros sel Hsel. apply querySelectorAll_similar; [|exact E].
      pose proof edge_selectors_safe as S. rewrite forallb_forall in S.
      now apply S. }
  destruct (firstNonEmpty svg' _); [reflexivity|].
  rewrite (querySelectorAll_similar _ svg svg') by (reflexivity || exact E).
  apply List.filter_ext. intros h. now apply isEdgeFallback_similar.
Qed.

(** ** The passes of the classifier, element by element *)

Lemma findEdgePaths_valid svg h :
  h ∈ findEdgePaths svg -> is_Some (getEl h svg) /\ h <> [].
Proof.
  unfold findEdgePaths.
  assert (F : forall sels hs, firstNonEmpty svg sels = Some hs ->
                h ∈ hs -> is_Some (getEl h svg) /\ h <> []).
  { induction sels as [|sel sels IH]; intros hs; [discriminate|].
    cbn [firstNonEmpty].
    destruct (querySelectorAll svg sel) as [|x l] eqn:E.
    - apply IH.
    - intros [= <-] Hh. rewrite <- E in Hh.
      now apply selectBelow_valid in Hh. }
  destruct (firstNonEmpty svg _) as [hs|] eqn:E.
  - eapply F; eassumption.
  - intros H. apply list_elem_of_In, filter_In in H as [H _].
    apply list_elem_of_In in H. now apply selectBelow_valid in H.
Qed.

Lemma hit_false h hs : h ∉ hs -> hit h hs = false.
Proof. intros H. unfold hit. now rewrite occ_zero. Qed.

Lemma iter_hit {A : Type} (g : A -> A) h hs x :
  (forall y, g (g y) = g y) ->
  Nat.iter (occ h hs) g x = if hit h hs then g x else x.
Proof.
  intros Hg. rewrite iter_idempotent by exact Hg. unfold hit.
  destruct (Nat.eqb (occ h hs) 0); reflexivity.
Qed.

Lemma getHead_onHead_root g svg h :
  getHead h (onHead g svg)
  = (if bool_decide (h = []) then g else id) <$> getHead h svg.
Proof.
  destruct svg as [hd ks]. destruct h as [|i h]; cbn [onHead].
  - reflexivity.
  - rewrite !getHead_cons. cbn [children].
    destruct (ks !! i) as [k|]; cbn; [|reflexivity].
    destruct (getHead h k); reflexivity.
Qed.

Section Passes.

Variable svg : Element.

Let t0 := configureSVGRendering svg.
Let t1 := enhanceNodes t0.
Let t2 := enhanceLabels t1.
Let t3 := enhanceEdgeLabelBoxes t2.

Lemma strip_t0 : stripTree t0 = stripTree svg.
Proof. apply stripTree_onHead. reflexivity. Qed.

Lemma strip_t1 : stripTree t1 = stripTree svg.
Proof.
  unfold t1, enhanceNodes.
  rewrite stripTree_forEachHead by apply stripHead_enhanceNode. apply strip_t0.
Qed.

Lemma strip_t2 : stripTree t2 = stripTree svg.
Proof.
  unfold t2, enhanceLabels.
  rewrite stripTree_forEachHead by apply stripHead_add_label. apply strip_t1.
Qed.

Lemma strip_t3 : stripTree t3 = stripTree svg.
Proof.
  unfold t3, enhanceEdgeLabelBoxes.
  rewrite stripTree_forEachHead by apply stripHead_enhanceEdgeLabelRect.
  apply strip_t2.
Qed.

Lemma enhanceCore_edges : fst (enhanceCore svg) = findEdgePaths svg.
Proof.
  unfold enhanceCore, enhanceEdges; cbn [fst].
  apply findEdgePaths_similar, strip_t3.
Qed.

Lemma strip_enhanceCore : stripTree (snd (enhanceCore svg)) = stripTree svg.
Proof.
  unfold enhanceCore, enhanceEdges; cbn [snd].
  rewrite stripTree_forEachHead by apply stripHead_add_edge. apply strip_t3.
Qed.

(** What the passes before the marker repair leave at each handle. *)
Lemma getHead_enhanceCore h :
  getHead h (snd (enhanceCore svg)) = passAt svg h <$> getHead h svg.
Proof.
  unfold enhanceCore, enhanceEdges; cbn [snd]. fold t0 t1 t2 t3.
  rewrite getHead_forEachHead.
  rewrite (findEdgePaths_similar t3 svg strip_t3).
  unfold t3, enhanceEdgeLabelBoxes. rewrite getHead_forEachHead.
  rewrite (querySelectorAll_similar MERMAID_SELECTORS.edgeLabelRects
             t2 svg eq_refl strip_t2).
  unfold t2, enhanceLabels. rewrite getHead_forEachHead.
  rewrite (querySelectorAll_similar MERMAID_SELECTORS.nodeLabels
             t1 svg eq_refl strip_t1).
  rewrite (querySelectorAll_similar MERMAID_SELECTORS.edgeLabels
             t1 svg eq_refl strip_t1).
  unfold t1, enhanceNodes. rewrite getHead_forEachHead.
  rewrite (querySelectorAll_similar MERMAID_SELECTORS.nodes
             t0 svg eq_refl strip_t0).
  unfold t0, configureSVGRendering. rewrite getHead_onHead_root.
  destruct (getHead h svg) as [x|]; [|reflexivity].
  cbn [fmap option_fmap option_map]. f_equal.
  rewrite !iter_hit
    by (first [ apply enhanceNode_idem | apply classList_add_idem
              | apply enhanceEdgeLabelRect_idem ]).
  unfold passAt, passHead, nodeHandles, labelHandles, boxHandles.
  destruct (bool_decide (h = [])); reflexivity.
Qed.

End Passes.

(** ** A second run of the classifier *)

Lemma enhanceSVG_unfold svg :
  enhanceSVG svg =
  {| enh_edges := fst (enhanceCore svg);
     enh_particleGroup := [length (children (fixArrowMarkers (snd (enhanceCore svg))))];
     enh_svg := appendChild particleLayer (fixArrowMarkers (snd (enhanceCore svg))) |}.
Proof. reflexivity. Qed.

Lemma strip_fixArrowMarkers svg : stripTree (fixArrowMarkers svg) = stripTree svg.
Proof.
  unfold fixArrowMarkers. apply stripTree_forEachHead, stripHead_fixArrowMarker.
Qed.

Lemma getEl_removelast : forall h svg,
  h <> [] -> is_Some (getEl h svg) -> is_Some (getEl (removelast h) svg).
Proof.
  induction h as [|i h IH]; intros svg Hne Hs; [congruence|].
  destruct h as [|j h].
  - cbn. eauto.
  - change (removelast (i :: j :: h)) with (i :: removelast (j :: h)).
    rewrite getEl_cons in *. destruct (children svg !! i) as [k|]; [|exact Hs].
    apply IH; [discriminate | exact Hs].
Qed.

Lemma parentHead_appendChild c svg h :
  children c = [] -> is_Some (getEl h svg) ->
  parentHead (appendChild c svg) h = parentHead svg h.
Proof.
  intros Hc Hs. unfold parentHead, parentHandle.
  destruct h as [|i h]; [reflexivity|].
  rewrite getHead_appendChild by exact Hc.
  assert (Hp : is_Some (getHead (removelast (i :: h)) svg)).
  { apply getHead_is_Some, getEl_removelast; [discriminate | exact Hs]. }
  destruct Hp as [x Hx]. now rewrite Hx.
Qed.

Lemma particleLayer_unselected sel hd :
  In sel ([tagSel "path"] :: [tagSel "marker"] :: MERMAID_SELECTORS.nodes
          :: MERMAID_SELECTORS.nodeLabels :: MERMAID_SELECTORS.edgeLabels
          :: MERMAID_SELECTORS.edgeLabelRects :: MERMAID_SELECTORS.edges) ->
  matchesSelector sel [hd] (head particleLayer) = false.
Proof.
  cbn [In MERMAID_SELECTORS.edges].
  intros H.
  repeat match goal with
         | H : _ \/ _ |- _ => destruct H as [<-|H]
         | H : False |- _ => destruct H
         end;
    reflexivity.
Qed.

Lemma findEdgePaths_particleLayer svg :
  findEdgePaths (appendChild particleLayer svg) = findEdgePaths svg.
Proof.
  unfold findEdgePaths.
  rewrite (firstNonEmpty_ext (appendChild particleLayer svg) svg).
  2:{ intros sel Hsel. apply querySelectorAll_particleLayer.
      apply particleLayer_unselected. cbn [In]. do 6 right. exact Hsel. }
  destruct (firstNonEmpty svg _); [reflexivity|].
  rewrite querySelectorAll_particleLayer
    by (apply particleLayer_unselected; now left).
  apply List.filter_ext_in. intros h Hh.
  rewrite !isEdgeFallback_edgeOk. f_equal.
  apply parentHead_appendChild; [reflexivity|].
  apply list_elem_of_In in Hh. now apply selectBelow_valid in Hh.
Qed.

Section SecondRun.

Variable svg : Element.

Let C := snd (enhanceCore svg).
Let M := fixArrowMarkers C.
Let T := enh_svg (enhanceSVG svg).

Lemma T_unfold : T = appendChild particleLayer M.
Proof. reflexivity. Qed.

Lemma strip_M : stripTree M = stripTree svg.
Proof.
  unfold M. rewrite strip_fixArrowMarkers. apply strip_enhanceCore.
Qed.

Lemma select_T sel :
  selectorSafe sel = true ->
  In sel ([tagSel "path"] :: [tagSel "marker"] :: MERMAID_SELECTORS.nodes
          :: MERMAID_SELECTORS.nodeLabels :: MERMAID_SELECTORS.edgeLabels
          :: MERMAID_SELECTORS.edgeLabelRects :: MERMAID_SELECTORS.edges) ->
  querySelectorAll T sel = querySelectorAll svg sel.
Proof.
  intros Hs Hin. rewrite T_unfold.
  rewrite querySelectorAll_particleLayer
    by (now apply particleLayer_unselected).
  apply querySelectorAll_similar; [exact Hs | apply strip_M].
Qed.

Lemma nodeHandles_T : nodeHandles T = nodeHandles svg.
Proof. apply select_T; [reflexivity|]. cbn [In]. auto. Qed.

Lemma labelHandles_T : labelHandles T = labelHandles svg.
Proof.
  unfold labelHandles. f_equal; (apply select_T; [reflexivity|]); cbn [In]; auto 10.
Qed.

Lemma boxHandles_T : boxHandles T = boxHandles svg.
Proof. apply select_T; [reflexivity|]. cbn [In]. auto 10. Qed.

Lemma markerHandles_T : markerHandles T = markerHandles svg.
Proof. apply select_T; [reflexivity|]. cbn [In]. auto 10. Qed.

Lemma findEdgePaths_T : findEdgePaths T = findEdgePaths svg.
Proof.
  rewrite T_unfold, findEdgePaths_particleLayer.
  apply findEdgePaths_similar, strip_M.
Qed.

Lemma passAt_T h : passAt T h = passAt svg h.
Proof.
  unfold passAt.
  now rewrite nodeHandles_T, labelHandles_T, boxHandles_T, findEdgePaths_T.
Qed.

Lemma getHead_M h :
  getHead h M
  = Nat.iter (occ h (markerHandles svg)) fixArrowMarker
      <$> (passAt svg h <$> getHead h svg).
Proof.
  unfold M, fixArrowMarkers. rewrite getHead_forEachHead.
  fold (markerHandles C).
  assert (E : markerHandles C = markerHandles svg).
  { apply querySelectorAll_similar; [reflexivity | apply strip_enhanceCore]. }
  rewrite E. unfold C. now rewrite getHead_enhanceCore.
Qed.

Lemma passAt_off h :
  getHead h svg = None -> h <> [] -> forall x, passAt svg h x = x.
Proof.
  intros Hnone Hne x. unfold passAt.
  assert (V : forall hs, (forall h', h' ∈ hs -> is_Some (getEl h' svg)) ->
                         hit h hs = false).
  { intros hs Hv. apply hit_false. intros Hin. apply Hv in Hin.
    apply getHead_is_Some in Hin. rewrite Hnone in Hin.
    destruct Hin; discriminate. }
  rewrite bool_decide_eq_false_2 by exact Hne.
  rewrite (V (nodeHandles svg)), (V (labelHandles svg)),
          (V (boxHandles svg)), (V (findEdgePaths svg)).
  - reflexivity.
  - intros h' H. now apply findEdgePaths_valid in H.
  - intros h' H. now apply selectBelow_valid in H.
  - intros h' H. unfold labelHandles in H.
    apply elem_of_app in H as [H|H]; now apply selectBelow_valid in H.
  - intros h' H. now apply selectBelow_valid in H.
Qed.

(** The passes before the marker repair find nothing left to do in a
    tree that has been through the classifier. *)
Lemma enhanceCore_again : snd (enhanceCore T) = T.
Proof.
  apply tree_ext. intros h.
  rewrite getHead_enhanceCore, passAt_T.
  rewrite T_unfold, getHead_appendChild by reflexivity.
  rewrite getHead_M.
  destruct (getHead h svg) as [x|] eqn:Ex; cbn [fmap option_fmap option_map].
  - f_equal. unfold passAt. apply passHead_fix.
  - destruct (decide (h = [length (children M)])) as [->|Hne];
      [|reflexivity].
    cbn [fmap option_fmap option_map]. f_equal.
    apply passAt_off; [exact Ex | discriminate].
Qed.

Lemma enhanceCore_again_edges : fst (enhanceCore T) = findEdgePaths svg.
Proof. rewrite enhanceCore_edges. apply findEdgePaths_T. Qed.

End SecondRun.

(** ** Selections have no repeated handle *)

Lemma NoDup_flatMapI {A : Type} (f : nat -> A -> list Handle) (l : list A) :
  (forall i x, NoDup (f i x)) ->
  (forall i x y, y ∈ f i x -> exists h', y = i :: h') ->
  forall j, NoDup (flatMapI f j l).
Proof.
  intros Hf Hi. induction l as [|a l IH]; intros j; cbn [flatMapI].
  - constructor.
  - apply NoDup_app. split; [apply Hf|]. split; [|apply IH].
    intros y Hy Hy'. apply Hi in Hy as (h' & ->).
    apply elem_of_flatMapI in Hy' as (i & x & _ & Hy').
    apply Hi in Hy' as (h'' & E). injection E as E _. lia.
Qed.

Lemma NoDup_selectAll P : forall e ancs, NoDup (selectAll P ancs e).
Proof.
  induction e as [hd ks IH] using Element_ind'. intros ancs.
  rewrite selectAll_unfold. apply NoDup_app. split; [|split].
  - destruct (P ancs (Node hd ks)); [apply NoDup_singleton | constructor].
  - intros y Hy Hy'. destruct (P ancs (Node hd ks)); [|inversion Hy].
    apply list_elem_of_singleton in Hy as ->.
    apply elem_of_flatMapI in Hy' as (i & x & _ & Hy'). cbn in Hy'.
    apply list_elem_of_fmap in Hy' as (h' & E & _). discriminate.
  - revert IH. generalize 0%nat. induction ks as [|k ks IHks]; intros j IH.
    + constructor.
    + cbn [flatMapI]. apply Forall_cons in IH as [IHk IH].
      apply NoDup_app. split; [|split].
      * change (map (cons j) ?l) with (cons j <$> l).
        apply NoDup_fmap; [intros a b [= ->]; reflexivity | apply IHk].
      * intros y Hy Hy'.
        apply list_elem_of_fmap in Hy as (h' & -> & _).
        apply elem_of_flatMapI in Hy' as (i & x & _ & Hy'). cbn in Hy'.
        apply list_elem_of_fmap in Hy' as (h'' & E & _).
        injection E as E _. lia.
      * apply IHks. exact IH.
Qed.

Lemma NoDup_selectBelow P svg : NoDup (selectBelow P svg).
Proof.
  unfold selectBelow. apply NoDup_flatMapI.
  - intros i x. change (map (cons i) ?l) with (cons i <$> l).
    apply NoDup_fmap; [intros a b [= ->]; reflexivity | apply NoDup_selectAll].
  - intros i x y Hy. apply list_elem_of_fmap in Hy as (h' & -> & _). eauto.
Qed.

Lemma occ_NoDup h hs : NoDup hs -> h ∈ hs -> occ h hs = 1%nat.
Proof.
  induction 1 as [|x hs Hx Hnd IH]; intros Hin; [inversion Hin|].
  cbn [occ]. apply elem_of_cons in Hin as [->|Hin].
  - rewrite decide_True by reflexivity. now rewrite occ_zero.
  - rewrite decide_False by (intros ->; contradiction). now apply IH.
Qed.

Lemma length_children_updateAt g h svg :
  length (children (updateAt h (onHead g) svg)) = length (children svg).
Proof.
  destruct h as [|i h]; destruct svg as [hd ks]; cbn; [reflexivity|].
  apply length_alter.
Qed.

Lemma length_children_forEachHead g hs : forall svg,
  length (children (forEachHead hs g svg)) = length (children svg).
Proof.
  unfold forEachHead. induction hs as [|h hs IH]; intros svg; [reflexivity|].
  cbn [fold_left]. rewrite IH. apply length_children_updateAt.
Qed.

Lemma getHead_fixArrowMarkers svg h :
  getHead h (fixArrowMarkers svg)
  = (if bool_decide (h ∈ markerHandles svg) then fixArrowMarker else id)
      <$> getHead h svg.
Proof.
  unfold fixArrowMarkers. rewrite getHead_forEachHead. fold (markerHandles svg).
  destruct (getHead h svg) as [x|]; [|reflexivity]. cbn. f_equal.
  destruct (bool_decide (h ∈ markerHandles svg)) eqn:E.
  - apply bool_decide_eq_true in E.
    rewrite occ_NoDup; [reflexivity | apply NoDup_selectBelow | exact E].
  - apply bool_decide_eq_false in E. now rewrite occ_zero.
Qed.

(** C4 (as amended): a second run of [enhanceSVG] on the tree that a first
    run has classified finds the same nodes, labels and edges, adds no
    class token twice and changes no attribute other than [refX]: it does
    what the marker repair and the particle layer do, and nothing else.
    Every marker with an arrowhead id has its [refX] reduced once more, and
    a second particle layer is appended after the first. *)
Theorem enhanceSVG_second_run (svg : Element) :
  let r1 := enhanceSVG svg in
  let r2 := enhanceSVG (enh_svg r1) in
  (enh_edges r2 = enh_edges r1 /\
   nodeHandles (enh_svg r1) = nodeHandles svg /\
   labelHandles (enh_svg r1) = labelHandles svg /\
   markerHandles (enh_svg r1) = markerHandles svg) /\
  enh_svg r2 = appendChild particleLayer (fixArrowMarkers (enh_svg r1)) /\
  (forall h x, getHead h (enh_svg r1) = Some x ->
     getHead h (enh_svg r2)
     = Some (if bool_decide (h ∈ markerHandles svg) then fixArrowMarker x else x)) /\
  (forall h x y, getHead h (enh_svg r1) = Some x -> getHead h (enh_svg r2) = Some y ->
     tagName y = tagName x /\ classList y = classList x /\ style y = style x /\
     text y = text x /\
     forall n, n <> "refX" -> getAttribute n y = getAttribute n x) /\
  (exists n, enh_particleGroup r1 = [n] /\ enh_particleGroup r2 = [S n] /\
     getHead [n] (enh_svg r2) = Some (head particleLayer) /\
     getHead [S n] (enh_svg r2) = Some (head particleLayer)).
Proof.
  intros r1 r2.
  assert (E2 : enh_svg r2 = appendChild particleLayer (fixArrowMarkers (enh_svg r1))).
  { unfold r2. rewrite enhanceSVG_unfold. cbn [enh_svg].
    unfold r1. now rewrite enhanceCore_again. }
  assert (MH : markerHandles (enh_svg r1) = markerHandles svg)
    by apply markerHandles_T.
  assert (P3 : forall h x, getHead h (enh_svg r1) = Some x ->
     getHead h (enh_svg r2)
     = Some (if bool_decide (h ∈ markerHandles svg) then fixArrowMarker x else x)).
  { intros h x Hx. rewrite E2, getHead_appendChild by reflexivity.
    rewrite getHead_fixArrowMarkers, MH, Hx. cbn.
    destruct (bool_decide _); reflexivity. }
  split; [|split; [exact E2|split; [exact P3|split]]].
  - split; [|split; [apply nodeHandles_T|split; [apply labelHandles_T|exact MH]]].
    unfold r2. rewrite (enhanceSVG_unfold (enh_svg r1)). cbn [enh_edges].
    unfold r1. rewrite enhanceCore_again_edges.
    rewrite enhanceSVG_unfold. cbn [enh_edges]. symmetry. apply enhanceCore_edges.
  - intros h x y Hx Hy. rewrite (P3 h x Hx) in Hy. injection Hy as <-.
    destruct (bool_decide _); [|auto].
    rewrite fixArrowMarker_actOn. cbn [actOn tagName classList style text id].
    repeat split; try reflexivity.
    intros n Hn. unfold getAttribute; cbn [attributes].
    now apply lookup_markerAttrs_other.
  - exists (length (children (fixArrowMarkers (snd (enhanceCore svg))))).
    assert (L : length (children (fixArrowMarkers (enh_svg r1)))
                = S (length (children (fixArrowMarkers (snd (enhanceCore svg)))))).
    { unfold fixArrowMarkers at 1. rewrite length_children_forEachHead.
      unfold r1. rewrite enhanceSVG_unfold. cbn [enh_svg].
      destruct (fixArrowMarkers (snd (enhanceCore svg))) as [hd ks].
      cbn [appendChild children]. rewrite length_app. cbn. lia. }
    split; [reflexivity|]. split.
    { unfold r2. rewrite (enhanceSVG_unfold (enh_svg r1)). cbn [enh_particleGroup].
      unfold r1 at 1. rewrite enhanceCore_again. fold r1. now rewrite L. }
    assert (G1 : getHead [length (children (fixArrowMarkers (snd (enhanceCore svg))))]
                   (enh_svg r1) = Some (head particleLayer)).
    { unfold r1. rewrite enhanceSVG_unfold. cbn [enh_svg].
      rewrite getHead_appendChild by reflexivity.
      rewrite decide_True by reflexivity.
      destruct (getHead _ _) as [x|] eqn:Ex; [|reflexivity].
      exfalso. rewrite getHead_cons in Ex.
      rewrite lookup_ge_None_2 in Ex by lia. discriminate. }
    split.
    + rewrite (P3 _ _ G1).
      rewrite bool_decide_eq_false_2; [reflexivity|].
      intros Hin. apply selectBelow_valid in Hin as [Hv _].
      rewrite getEl_cons in Hv.
      assert (Hlen : length (children svg)
                     = length (children (fixArrowMarkers (snd (enhanceCore svg))))).
      { rewrite <- (length_map stripTree (children svg)),
                <- children_stripTree.
        rewrite <- (strip_M svg), children_stripTree, length_map. reflexivity. }
      rewrite <- Hlen, lookup_ge_None_2 in Hv by lia. destruct Hv; discriminate.
    + rewrite E2, getHead_appendChild by reflexivity.
      rewrite L, decide_True by reflexivity.
      destruct (getHead [S _] (fixArrowMarkers (enh_svg r1))) as [x|] eqn:Ex;
        [|reflexivity].
      exfalso. rewrite getHead_cons in Ex.
      rewrite lookup_ge_None_2 in Ex by lia. discriminate.
Qed.

(** On the sample flowchart the arrowhead marker has [refX] 5 at first,
    5/2 after one run and 0 after two, and the second run leaves two
    particle layers; the second run does change the tree. *)
Lemma enhanceSVG_not_idempotent :
  let r1 := enhanceSVG sampleFlowchart in
  let r2 := enhanceSVG (enh_svg r1) in
  attrAt "refX" [0; 0]%nat (enh_svg r1) = Some (Some (VNum (25 # 10))) /\
  attrAt "refX" [0; 0]%nat (enh_svg r2) = Some (Some (VNum (0 # 100))) /\
  enh_particleGroup r1 = [5%nat] /\ enh_particleGroup r2 = [6%nat] /\
  classList <$> getHead [5%nat] (enh_svg r2) = Some ["particle-layer"] /\
  classList <$> getHead [6%nat] (enh_svg r2) = Some ["particle-layer"] /\
  enh_svg r2 <> enh_svg r1.
Proof.
  cbv zeta. repeat split; try (vm_compute; reflexivity).
  intros E.
  assert (H : attrAt "refX" [0; 0]%nat (enh_svg (enhanceSVG (enh_svg (enhanceSVG sampleFlowchart))))
              = attrAt "refX" [0; 0]%nat (enh_svg (enhanceSVG sampleFlowchart)))
    by now rewrite E.
  vm_compute in H. discriminate.
Qed.


(** ** Edge-label boxes *)

Lemma lookup_boxAttrs a :
  boxAttrs a !! "width" = growD (a !! "width") (EDGE_LABEL_MIN_SIZE.width + 20) /\
  boxAttrs a !! "x" = growP (a !! "width") (a !! "x") (EDGE_LABEL_MIN_SIZE.width + 20) /\
  boxAttrs a !! "height" = growD (a !! "height") (EDGE_LABEL_MIN_SIZE.height + 10) /\
  boxAttrs a !! "y" = growP (a !! "height") (a !! "y") (EDGE_LABEL_MIN_SIZE.height + 10) /\
  boxAttrs a !! "rx" = Some (VNum 12) /\
  boxAttrs a !! "ry" = Some (VNum 12) /\
  (forall n, n ∉ BOX_KEYS -> boxAttrs a !! n = a !! n).
Proof.
  unfold boxAttrs.
  repeat split;
    try (rewrite !lookup_insert_ne by discriminate;
         rewrite !lookup_grow by discriminate;
         repeat (first [ rewrite decide_True by reflexivity
                       | rewrite decide_False by discriminate ]);
         reflexivity).
  - rewrite lookup_insert_ne by discriminate. now rewrite lookup_insert_eq.
  - now rewrite lookup_insert_eq.
  - intros n Hn. apply supported_boxAttrs. exact Hn.
Qed.

Lemma getHead_enhanceEdgeLabelBoxes svg h :
  getHead h (enhanceEdgeLabelBoxes svg)
  = (if bool_decide (h ∈ boxHandles svg) then enhanceEdgeLabelRect else id)
      <$> getHead h svg.
Proof.
  unfold enhanceEdgeLabelBoxes. rewrite getHead_forEachHead. fold (boxHandles svg).
  destruct (getHead h svg) as [x|]; [|reflexivity]. cbn. f_equal.
  rewrite iter_hit by apply enhanceEdgeLabelRect_idem. unfold hit.
  destruct (bool_decide (h ∈ boxHandles svg)) eqn:E.
  - apply bool_decide_eq_true in E.
    rewrite occ_NoDup; [reflexivity | apply NoDup_selectBelow | exact E].
  - apply bool_decide_eq_false in E. now rewrite occ_zero.
Qed.

(** C9: an edge-label rectangle that [enhanceEdgeLabelBoxes] processes and
    whose width is below 110 gets width 110 and its [x] moved left by half
    of the growth, so that its centre stays where it was; the same holds
    for height, 60 and [y]; a dimension that is at or above its minimum is
    left as it is together with its coordinate; the corner radii are set to
    12; nothing else of the rectangle changes, and no other element of the
    tree is touched. *)
Theorem edge_label_box_keeps_centre (svg : Element) (h : Handle) (rect : Head)
    (w ht x y : Q)
    (Hsel : h ∈ boxHandles svg)
    (Hrect : getHead h svg = Some rect)
    (Hw : numAttr "width" rect = Some w)
    (Hh : numAttr "height" rect = Some ht)
    (Hx : numAttr "x" rect = Some x)
    (Hy : numAttr "y" rect = Some y) :
  exists rect',
    getHead h (enhanceEdgeLabelBoxes svg) = Some rect' /\
    (w < 110 ->
       exists w' x', numAttr "width" rect' = Some w' /\ numAttr "x" rect' = Some x' /\
                     w' == 110 /\ x' == x - (110 - w) / 2 /\
                     x' + w' / 2 == x + w / 2) /\
    (110 <= w ->
       getAttribute "width" rect' = getAttribute "width" rect /\
       getAttribute "x" rect' = getAttribute "x" rect) /\
    (ht < 60 ->
       exists h' y', numAttr "height" rect' = Some h' /\ numAttr "y" rect' = Some y' /\
                     h' == 60 /\ y' == y - (60 - ht) / 2 /\
                     y' + h' / 2 == y + ht / 2) /\
    (60 <= ht ->
       getAttribute "height" rect' = getAttribute "height" rect /\
       getAttribute "y" rect' = getAttribute "y" rect) /\
    getAttribute "rx" rect' = Some (VNum 12) /\
    getAttribute "ry" rect' = Some (VNum 12) /\
    tagName rect' = tagName rect /\ classList rect' = classList rect /\
    style rect' = style rect /\ text rect' = text rect /\
    (forall n, n ∉ BOX_KEYS -> getAttribute n rect' = getAttribute n rect) /\
    (forall h', h' ∉ boxHandles svg ->
       getHead h' (enhanceEdgeLabelBoxes svg) = getHead h' svg).
Proof.
  exists (enhanceEdgeLabelRect rect).
  split.
  { rewrite getHead_enhanceEdgeLabelBoxes, Hrect.
    now rewrite bool_decide_eq_true_2 by exact Hsel. }
  rewrite enhanceEdgeLabelRect_actOn.
  unfold numAttr, getAttribute in *. cbn [actOn attributes tagName classList style text id].
  destruct (lookup_boxAttrs (attributes rect)) as (Bw & Bx & Bh & By & Brx & Bry & Bo).
  rewrite Bw, Bx, Bh, By, Brx, Bry.
  assert (Mw : EDGE_LABEL_MIN_SIZE.width + 20 == 110) by reflexivity.
  assert (Mh : EDGE_LABEL_MIN_SIZE.height + 10 == 60) by reflexivity.
  set (mw := EDGE_LABEL_MIN_SIZE.width + 20) in *.
  set (mh := EDGE_LABEL_MIN_SIZE.height + 10) in *.
  destruct (grow_cases (attributes rect !! "width") (attributes rect !! "x") mw)
    as [(E & _)|[(q & E & Hq & D & P)|(q & E & Hq & D & Hm & P)]];
    rewrite Hw in E; try discriminate; injection E as <-.
  all: destruct (grow_cases (attributes rect !! "height") (attributes rect !! "y") mh)
    as [(E & _)|[(q' & E & Hq' & D' & P')|(q' & E & Hq' & D' & Hm' & P')]];
    rewrite Hh in E; try discriminate; injection E as <-.
  all: rewrite D, P, D', P'; rewrite ?Hx, ?Hy;
    cbn [attrOr parseFloat toString jsSub jsLift2].
  all: repeat split; try reflexivity; try tauto; try exact Bo.
  all: try (intros Hlt; exfalso; lra).
  all: try (exfalso; lra).
  all: try (intros _;
            eexists; eexists; split; [reflexivity|]; split; [reflexivity|];
            repeat split;
            [ lra | (rewrite ?Hm, ?Hm', ?Mw, ?Mh; field)
            | (rewrite ?Hm, ?Hm', ?Mw, ?Mh; field) ]).
  all: try (intros h' Hh'; rewrite getHead_enhanceEdgeLabelBoxes;
            rewrite bool_decide_eq_false_2 by exact Hh';
            destruct (getHead h' svg); reflexivity).
Qed.

(** The label box of the sample flowchart is 30 wide at [x] 10 and 100
    high: it becomes 110 wide and is not made higher. *)
Lemma edge_label_box_keeps_centre_witness :
  exists rect',
    getHead [4; 0]%nat (enhanceEdgeLabelBoxes sampleFlowchart) = Some rect' /\
    getAttribute "rx" rect' = Some (VNum 12) /\
    getAttribute "height" rect' = Some (VNum 100).
Proof.
  assert (Hsel : [4; 0]%nat ∈ boxHandles sampleFlowchart)
    by (replace (boxHandles sampleFlowchart) with [[4; 0]%nat]
          by (vm_compute; reflexivity);
        apply list_elem_of_singleton; reflexivity).
  destruct (getHead [4; 0]%nat sampleFlowchart) as [rect|] eqn:Hrect;
    [|vm_compute in Hrect; discriminate].
  assert (Hw : numAttr "width" rect = Some 30)
    by (vm_compute in Hrect; injection Hrect as <-; vm_compute; reflexivity).
  assert (Hh : numAttr "height" rect = Some 100)
    by (vm_compute in Hrect; injection Hrect as <-; vm_compute; reflexivity).
  assert (Hx : numAttr "x" rect = Some 10)
    by (vm_compute in Hrect; injection Hrect as <-; vm_compute; reflexivity).
  assert (Hy : numAttr "y" rect = Some 20)
    by (vm_compute in Hrect; injection Hrect as <-; vm_compute; reflexivity).
  destruct (edge_label_box_keeps_centre sampleFlowchart [4; 0]%nat rect
              30 100 10 20 Hsel Hrect Hw Hh Hx Hy)
    as (rect' & Hget & _ & _ & _ & Hkeep & Hrx & _).
  exists rect'. split; [exact Hget|]. split; [exact Hrx|].
  assert (H60 : 60 <= 100) by (unfold Qle; simpl; lia).
  destruct (Hkeep H60) as [Hk _]. rewrite Hk.
  vm_compute in Hrect. injection Hrect as <-. vm_compute. reflexivity.
Defined.

Example edge_label_box_sample :
  attrAt "width" [4; 0]%nat (enhanceEdgeLabelBoxes sampleFlowchart)
    = Some (Some (VNum 110)) /\
  attrAt "x" [4; 0]%nat (enhanceEdgeLabelBoxes sampleFlowchart)
    = Some (Some (VNum (-60 # 2))).
Proof. split; vm_compute; reflexivity. Qed.

(** ** The fallback of the edge classification *)

(** When no edge selector matches, [findEdgePaths] returns the paths whose
    parent element neither carries the class [node] nor is a marker. *)
Lemma findEdgePaths_fallback svg h :
  firstNonEmpty svg MERMAID_SELECTORS.edges = None ->
  h ∈ findEdgePaths svg <->
  h ∈ querySelectorAll svg [tagSel "path"] /\ edgeOk (parentHead svg h) = true.
Proof.
  intros E. unfold findEdgePaths. rewrite E.
  rewrite list_elem_of_In, filter_In, <- list_elem_of_In.
  now rewrite isEdgeFallback_edgeOk.
Qed.

(** C8 fails on the sample diagram, where no edge selector matches: the
    fallback returns the outline path of the node, which lies inside the
    node container (two levels down), together with the connector path. *)
Theorem findEdgePaths_fallback_nested :
  firstNonEmpty sampleNested MERMAID_SELECTORS.edges = None /\
  findEdgePaths sampleNested = [[0; 0; 0]; [1]]%nat /\
  tagName <$> getHead [0; 0; 0]%nat sampleNested = Some "path" /\
  insideNode sampleNested [0; 0; 0]%nat = true /\
  insideNode sampleNested [1]%nat = false /\
  ~ (forall h, h ∈ findEdgePaths sampleNested <->
       h ∈ querySelectorAll sampleNested [tagSel "path"] /\
       insideNode sampleNested h = false /\
       insideMarker sampleNested h = false).
Proof.
  repeat split; try (vm_compute; reflexivity).
  intros H. destruct (H [0; 0; 0]%nat) as [H1 _].
  assert (Hin : [0; 0; 0]%nat ∈ findEdgePaths sampleNested).
  { replace (findEdgePaths sampleNested) with [[0; 0; 0]; [1]]%nat
      by (vm_compute; reflexivity).
    apply elem_of_cons. now left. }
  destruct (H1 Hin) as (_ & Hn & _). vm_compute in Hn. discriminate.
Qed.

(** ** Theming *)

Lemma styleBlocks_appendChild c svg :
  styleBlocks (appendChild c svg)
  = (styleBlocks svg
     ++ (if String.eqb (tagName (head c)) "style" then [text (head c)] else []))%list.
Proof.
  destruct svg as [hd ks]. unfold styleBlocks. cbn [appendChild children].
  rewrite List.filter_app, map_app. cbn [List.filter].
  destruct (String.eqb (tagName (head c)) "style"); reflexivity.
Qed.

Section ThemingFacts.

Variable numberToString : Q -> string.

Lemma applyCustomTheme_children theme svg :
  children (applyCustomTheme numberToString (Some theme) svg)
  = (children svg
     ++ (if String.eqb (customStyles numberToString theme) "" then []
         else [onHead (setTextContent (customStyles numberToString theme))
                      (createElement "style")]))%list.
Proof.
  unfold applyCustomTheme.
  destruct (String.eqb (customStyles numberToString theme) ""); cbn [negb].
  - now rewrite app_nil_r.
  - destruct svg; reflexivity.
Qed.

Lemma applyCustomTheme_blocks theme svg :
  styleBlocks (applyCustomTheme numberToString (Some theme) svg)
  = (styleBlocks svg
     ++ (if String.eqb (customStyles numberToString theme) "" then []
         else [customStyles numberToString theme]))%list.
Proof.
  unfold applyCustomTheme.
  destruct (String.eqb (customStyles numberToString theme) ""); cbn [negb].
  - now rewrite app_nil_r.
  - now rewrite styleBlocks_appendChild.
Qed.

(** C5 (as amended): each run of the theming step with a theme that
    yields rules appends one style block with the rules of that theme
    after the children that the graphic already has; the blocks of the
    earlier themes stay, so after a sequence of themes the graphic holds
    the blocks of all of them in order, the newest last.  A theme that
    yields no rule, and an absent theme, leave the graphic as it is. *)
Theorem applyCustomTheme_accumulates (themes : list CustomTheme) (svg : Element) :
  styleBlocks (applyThemes numberToString themes svg)
  = (styleBlocks svg
     ++ List.filter (fun s => negb (String.eqb s ""))
          (map (customStyles numberToString) themes))%list /\
  (forall theme,
     children (applyCustomTheme numberToString (Some theme) svg)
     = (children svg
        ++ (if String.eqb (customStyles numberToString theme) "" then []
            else [onHead (setTextContent (customStyles numberToString theme))
                         (createElement "style")]))%list /\
     head (applyCustomTheme numberToString (Some theme) svg) = head svg) /\
  applyCustomTheme numberToString None svg = svg.
Proof.
  split; [|split; [|reflexivity]].
  - revert svg. unfold applyThemes.
    induction themes as [|theme themes IH]; intros svg; cbn [fold_left map List.filter].
    + now rewrite app_nil_r.
    + rewrite IH, applyCustomTheme_blocks, <- app_assoc. f_equal.
      destruct (String.eqb (customStyles numberToString theme) ""); reflexivity.
  - intros theme. split; [apply applyCustomTheme_children|].
    unfold applyCustomTheme.
    destruct (negb _); destruct svg; reflexivity.
Qed.

End ThemingFacts.

(** C5 fails when the theme changes from red to blue on the same graphic:
    the block of the old theme is still there, before the new one. *)
Lemma applyCustomTheme_keeps_old_block :
  let svg := applyThemes noNumber [themeOf "red"; themeOf "blue"] sampleFlowchart in
  styleBlocks svg = [customStyles noNumber (themeOf "red");
                     customStyles noNumber (themeOf "blue")] /\
  styleBlocks svg <> [customStyles noNumber (themeOf "blue")] /\
  includes (customStyles noNumber (themeOf "red"))
           ".animated-node { stroke: red !important; }" = true.
Proof.
  cbv zeta. split; [vm_compute; reflexivity|]. split; [|vm_compute; reflexivity].
  vm_compute. discriminate.
Qed.

(** ** The participant micro-syntax *)

Lemma append_cons c a b : (String c a ++ b)%string = String c (a ++ b)%string.
Proof. reflexivity. Qed.

Lemma append_nil_l b : (EmptyString ++ b)%string = b.
Proof. reflexivity. Qed.

Lemma append_assoc a b c : ((a ++ b) ++ c = a ++ (b ++ c))%string.
Proof.
  induction a as [|x a IH]; [reflexivity|].
  rewrite !append_cons. now rewrite IH.
Qed.

Lemma length_append a b :
  String.length (a ++ b) = (String.length a + String.length b)%nat.
Proof.
  induction a as [|c a IH]; [reflexivity|].
  rewrite append_cons. cbn [String.length]. now rewrite IH.
Qed.

Lemma startsWith_append p s : startsWith (p ++ s) p = true.
Proof.
  induction p as [|c p IH]; [destruct s; reflexivity|].
  rewrite append_cons. cbn [startsWith]. now rewrite Ascii.eqb_refl.
Qed.

Lemma dropStr_append a b : dropStr (String.length a) (a ++ b) = b.
Proof.
  induction a as [|c a IH]; [reflexivity|].
  rewrite append_cons. cbn [String.length dropStr]. exact IH.
Qed.

Lemma takeStr_append a b : takeStr (String.length a) (a ++ b) = a.
Proof.
  induction a as [|c a IH]; [reflexivity|].
  rewrite append_cons. cbn [String.length takeStr]. now rewrite IH.
Qed.

Lemma runLength_append class a b :
  allChars class a = true -> stopsRun class b = true ->
  runLength class (a ++ b) = String.length a.
Proof.
  intros Ha Hb. induction a as [|c a IH].
  - rewrite append_nil_l. destruct b as [|c b]; [reflexivity|].
    cbn in Hb |- *. apply negb_true_iff in Hb. now rewrite Hb.
  - rewrite append_cons. cbn [allChars] in Ha.
    apply andb_true_iff in Ha as [Hc Ha].
    cbn [runLength String.length]. rewrite Hc. now rewrite IH.
Qed.

Lemma matchItems_lit l rest s :
  matchItems (Lit l :: rest) (l ++ s) = matchItems rest s.
Proof.
  cbn [matchItems]. now rewrite startsWith_append, dropStr_append.
Qed.

(** A run that is followed by a match of the rest is taken whole. *)
Lemma matchItems_plus capture class rest a b captures after :
  nonEmpty a = true -> allChars class a = true -> stopsRun class b = true ->
  matchItems rest b = Some (captures, after) ->
  matchItems (Plus capture class :: rest) (a ++ b)
  = Some (if capture then a :: captures else captures, after).
Proof.
  intros Hne Ha Hb Hrest. cbn [matchItems].
  rewrite runLength_append by assumption.
  destruct a as [|c a]; [discriminate|].
  change (String.length (String c a)) with (S (String.length a)).
  cbv beta iota.
  change (S (String.length a)) with (String.length (String c a)).
  rewrite dropStr_append, Hrest, takeStr_append. reflexivity.
Qed.

Lemma stopsRun_cons class c s :
  class c = false -> stopsRun class (String c s) = true.
Proof. intros H. cbn. now rewrite H. Qed.

Lemma stopsRun_append class a b :
  nonEmpty a = true -> stopsRun class a = true -> stopsRun class (a ++ b) = true.
Proof. destruct a; [discriminate|]. intros _ H. exact H. Qed.

Lemma allChars_stops class a :
  nonEmpty a = true -> allChars class a = true ->
  stopsRun (fun c => negb (class c)) a = true.
Proof.
  destruct a as [|c a]; [discriminate|]. cbn. intros _ H.
  apply andb_true_iff in H as [H _]. now rewrite H.
Qed.

Lemma allChars_not_stops class a :
  nonEmpty a = true -> allChars (fun c => negb (class c)) a = true ->
  stopsRun class a = true.
Proof.
  destruct a as [|c a]; [discriminate|]. cbn. intros _ H.
  apply andb_true_iff in H as [H _]. exact H.
Qed.

Lemma wellFormedDeclaration_matches ws1 loc ws2 name rest :
  wellFormedDeclaration ws1 loc ws2 name rest = true ->
  matchItems PARTICIPANT_IMG
    ("participant" ++ ws1 ++ "img:" ++ loc ++ ws2 ++ name ++ rest)
  = Some ([loc; name], rest).
Proof.
  unfold wellFormedDeclaration. rewrite !andb_true_iff.
  intros [[[[[[[[[N1 A1] N2] A2] N3] A3] N4] A4] S4] S5].
  unfold PARTICIPANT_IMG.
  rewrite matchItems_lit.
  apply (matchItems_plus false isSpace _ ws1 _ [loc; name] rest N1 A1);
    [reflexivity|].
  rewrite matchItems_lit.
  apply (matchItems_plus true _ _ loc _ [name] rest N2 A2).
  { apply stopsRun_append; [exact N3|]. now apply allChars_stops. }
  apply (matchItems_plus false isSpace _ ws2 _ [name] rest N3 A3).
  { apply stopsRun_append; assumption. }
  rewrite <- (append_nil_l rest) at 2.
  apply (matchItems_plus true _ _ name rest [] rest N4 A4 S5). reflexivity.
Qed.

Lemma replaceParticipants_skip a : forall b m,
  replaceParticipants (a ++ b) (String.length a) m = replaceParticipants b 0 m.
Proof.
  induction a as [|c a IH]; intros b m; [reflexivity|].
  rewrite append_cons. cbn [String.length replaceParticipants]. apply IH.
Qed.

Lemma replaceParticipants_match c r loc name after m :
  matchItems PARTICIPANT_IMG (String c r) = Some ([loc; name], after) ->
  replaceParticipants (String c r) 0 m
  = (let '(out, m') :=
       replaceParticipants r
         (String.length (String c r) - String.length after - 1)
         (<[trim name := loc]> m) in
     ("participant " ++ name ++ out, m')).
Proof.
  intros H. cbn [replaceParticipants]. rewrite H. reflexivity.
Qed.

Lemma replaceParticipants_copy c r m :
  matchItems PARTICIPANT_IMG (String c r) = None ->
  replaceParticipants (String c r) 0 m
  = (let '(out, m') := replaceParticipants r 0 m in (String c out, m')).
Proof.
  intros H. cbn [replaceParticipants]. rewrite H. reflexivity.
Qed.

Lemma replaceParticipants_declaration ws1 loc ws2 name rest m :
  wellFormedDeclaration ws1 loc ws2 name rest = true ->
  replaceParticipants
    ("participant" ++ ws1 ++ "img:" ++ loc ++ ws2 ++ name ++ rest) 0 m
  = (let '(out, m') := replaceParticipants rest 0 (<[trim name := loc]> m) in
     ("participant " ++ name ++ out, m')).
Proof.
  intros Hwf.
  pose proof (wellFormedDeclaration_matches _ _ _ _ _ Hwf) as Hm.
  set (mid := ("articipant" ++ ws1 ++ "img:" ++ loc ++ ws2 ++ name)%string).
  assert (E : ("participant" ++ ws1 ++ "img:" ++ loc ++ ws2 ++ name ++ rest)%string
              = String "p" (mid ++ rest)).
  { subst mid.
    change ("participant" ++ ws1 ++ "img:" ++ loc ++ ws2 ++ name ++ rest)%string
      with (String "p" ("articipant" ++ ws1 ++ "img:" ++ loc ++ ws2 ++ name ++ rest)).
    f_equal. now rewrite !append_assoc. }
  rewrite E in Hm |- *.
  rewrite (replaceParticipants_match _ _ _ _ _ m Hm).
  replace (String.length (String "p" (mid ++ rest)) - String.length rest - 1)%nat
    with (String.length mid)
    by (cbn [String.length]; rewrite length_append; lia).
  now rewrite replaceParticipants_skip.
Qed.

(** ** Export: the fallback chain of [urlToDataUri] *)

(** When the request or the reading of the body fails, [urlToDataUri]
    resolves: with the re-rendered image if that works, with the
    placeholder otherwise. *)
Lemma urlToDataUri_fallback b url reason :
  (do response <- fetch b url; blob b response) = Rejected reason ->
  urlToDataUri b url
  = Resolved (match loadImageAsDataUri b url with
              | Resolved dataUri => dataUri
              | Rejected _ => PLACEHOLDER
              end).
Proof.
  unfold urlToDataUri, await. intros H.
  destruct (fetch b url) as [response|r]; [destruct (blob b response) as [bl|r']|];
    try discriminate;
    cbn [tryCatch]; destruct (loadImageAsDataUri b url); reflexivity.
Qed.

(** When the request and the reading of the body succeed, the promise of
    the file reader decides, also when it rejects. *)
Lemma urlToDataUri_reader b url response bl :
  fetch b url = Resolved response -> blob b response = Resolved bl ->
  urlToDataUri b url = readAsDataURL b bl.
Proof.
  unfold urlToDataUri, await. intros -> ->. reflexivity.
Qed.

(** [urlToDataUri] rejects exactly when the request and the reading of the
    body succeed and the file reader fails. *)
Lemma urlToDataUri_rejects_iff b url reason :
  urlToDataUri b url = Rejected reason <->
  exists response bl,
    fetch b url = Resolved response /\ blob b response = Resolved bl /\
    readAsDataURL b bl = Rejected reason.
Proof.
  split.
  - destruct (fetch b url) as [response|r] eqn:F.
    + destruct (blob b response) as [bl|r'] eqn:B.
      * rewrite (urlToDataUri_reader b url response bl F B). eauto.
      * rewrite (urlToDataUri_fallback b url r'); [discriminate|].
        unfold await. now rewrite F, B.
    + rewrite (urlToDataUri_fallback b url r); [discriminate|].
      unfold await. now rewrite F.
  - intros (response & bl & F & B & R).
    now rewrite (urlToDataUri_reader b url response bl F B).
Qed.

(** C6 fails where the file reader fails: [urlToDataUri] rejects although
    the image could be re-rendered and the placeholder is at hand, and the
    inlining step of the export rejects with it.  The other copy of
    [urlToDataUri] rejects there too. *)
Theorem urlToDataUri_rejects_on_reader_error :
  urlToDataUri readerFails "https://x/a.png" = Rejected "NotReadableError" /\
  loadImageAsDataUri readerFails "https://x/a.png"
    = Resolved "data:image/png;base64,AAAA" /\
  inlineStyles readerFails [] sampleWithLogo = Rejected "NotReadableError" /\
  Bundled.urlToDataUri readerFails "https://x/a.png" = Rejected "NotReadableError" /\
  (forall b url reason,
     (do response <- fetch b url; blob b response) = Rejected reason ->
     Bundled.urlToDataUri b url = Resolved url).
Proof.
  repeat split; try (vm_compute; reflexivity).
  intros b url reason. unfold Bundled.urlToDataUri, await.
  destruct (fetch b url) as [response|r]; [destruct (blob b response)|];
    intros H; try discriminate; reflexivity.
Qed.

(** * Further properties of the code *)

(** ** particleUtils.ts: durations and easing *)

Lemma Qsquare_nonneg (x : Q) : 0 <= x * x.
Proof.
  destruct (Qlt_le_dec x 0) as [N|P].
  - assert (E : x * x == (- x) * (- x)) by ring.
    rewrite E. apply Qmult_le_0_compat; lra.
  - apply Qmult_le_0_compat; exact P.
Qed.

Lemma cube_monotone (a b : Q) : a <= b -> a * a * a <= b * b * b.
Proof.
  intros H.
  assert (E : b * b * b - a * a * a
              == (b - a) * ((a + b * (1 # 2)) * (a + b * (1 # 2))
                            + (3 # 4) * (b * b))) by ring.
  pose proof (Qsquare_nonneg (a + b * (1 # 2))) as S1.
  pose proof (Qsquare_nonneg b) as S2.
  assert (P : 0 <= (b - a) * ((a + b * (1 # 2)) * (a + b * (1 # 2))
                              + (3 # 4) * (b * b))).
  { apply Qmult_le_0_compat; lra. }
  lra.
Qed.

Lemma easeInOutCubic_range t : 0 <= t <= 1 -> 0 <= easeInOutCubic t <= 1.
Proof.
  intros [H0 H1].
  destruct (Qlt_le_dec t (1 # 2)) as [L|G].
  - rewrite easeInOutCubic_low by exact L.
    pose proof (cube_monotone 0 t H0) as A.
    assert (B : t <= 1 # 2) by lra.
    pose proof (cube_monotone t (1 # 2) B) as C.
    assert (D : (1 # 2) * (1 # 2) * (1 # 2) == 1 # 8) by reflexivity.
    lra.
  - rewrite easeInOutCubic_high by exact G.
    assert (A0 : 0 <= 1 - t) by lra.
    pose proof (cube_monotone 0 (1 - t) A0) as A.
    assert (B : 1 - t <= 1 # 2) by lra.
    pose proof (cube_monotone (1 - t) (1 # 2) B) as C.
    assert (D : (1 # 2) * (1 # 2) * (1 # 2) == 1 # 8) by reflexivity.
    lra.
Qed.

Lemma easeInOutCubic_monotone t u : t <= u -> easeInOutCubic t <= easeInOutCubic u.
Proof.
  intros H.
  assert (D : (1 # 2) * (1 # 2) * (1 # 2) == 1 # 8) by reflexivity.
  destruct (Qlt_le_dec t (1 # 2)) as [Lt|Gt];
    destruct (Qlt_le_dec u (1 # 2)) as [Lu|Gu].
  - rewrite (easeInOutCubic_low t), (easeInOutCubic_low u) by assumption.
    pose proof (cube_monotone t u H). lra.
  - rewrite (easeInOutCubic_low t), (easeInOutCubic_high u) by assumption.
    assert (A : t <= 1 # 2) by lra.
    pose proof (cube_monotone t (1 # 2) A).
    assert (B : 1 - u <= 1 # 2) by lra.
    pose proof (cube_monotone (1 - u) (1 # 2) B).
    lra.
  - lra.
  - rewrite (easeInOutCubic_high t), (easeInOutCubic_high u) by assumption.
    assert (A : 1 - u <= 1 - t) by lra.
    pose proof (cube_monotone (1 - u) (1 - t) A). lra.
Qed.

(** X1: whatever the path length, negative lengths included, the duration
    of an edge lies between [minDuration] and [maxDuration], and a longer
    path never gets a shorter duration. *)
Theorem calculateDuration_bounded_monotone (L L' : Q) :
  minDuration PARTICLE_CONFIG <= calculateDuration L <= maxDuration PARTICLE_CONFIG /\
  (L <= L' -> calculateDuration L <= calculateDuration L').
Proof.
  cbn [minDuration maxDuration PARTICLE_CONFIG].
  split; [apply calculateDuration_bounds|].
  intros H.
  destruct (calculateDuration_cases L) as [[H1 E]|[[H1 E]|[H1 E]]];
    destruct (calculateDuration_cases L') as [[H1' E']|[[H1' E']|[H1' E']]];
    rewrite E, E'; lra.
Qed.

(** X2: the easing of the particle motion maps the unit interval into
    itself, keeps its end points and its middle, never decreases, and is
    symmetric about the middle: the second half of the motion mirrors the
    first. *)
Theorem easeInOutCubic_shape (t u : Q) :
  (0 <= t <= 1 -> 0 <= easeInOutCubic t <= 1) /\
  (easeInOutCubic 0 == 0 /\ easeInOutCubic (1 # 2) == 1 # 2 /\ easeInOutCubic 1 == 1) /\
  (t <= u -> easeInOutCubic t <= easeInOutCubic u) /\
  easeInOutCubic (1 - t) == 1 - easeInOutCubic t.
Proof.
  split; [apply easeInOutCubic_range|].
  split; [repeat split; reflexivity|].
  split; [apply easeInOutCubic_monotone|].
  destruct (Qlt_le_dec t (1 # 2)) as [L|G].
  - rewrite (easeInOutCubic_low t) by exact L.
    rewrite (easeInOutCubic_high (1 - t)) by lra. ring.
  - destruct (Qeq_dec t (1 # 2)) as [E|N].
    + rewrite (easeInOutCubic_high t) by exact G.
      rewrite (easeInOutCubic_high (1 - t)) by lra.
      rewrite E. reflexivity.
    + assert (Gt : 1 # 2 < t).
      { destruct (Qlt_le_dec (1 # 2) t) as [X|X]; [exact X|].
        exfalso. apply N. lra. }
      rewrite (easeInOutCubic_high t) by exact G.
      rewrite (easeInOutCubic_low (1 - t)) by lra. ring.
Qed.

(** X3: a particle that is in its window is drawn on its path: its raw
    progress lies in [0, 1), the distance handed to [getPointAtLength]
    lies between 0 and the length of the path, and its opacity lies
    between 0 and 1. *)
Theorem active_particle_on_path (a : ParticleAnimation)
    (currentTime total seqStart c : Q)
    (Hwin : isInActiveWindow a currentTime total seqStart = Some c)
    (Hlen : 0 <= pathLength a) :
  let progressInParticle := (c - (startTime a - seqStart)) / duration a in
  let distance := easeInOutCubic progressInParticle * pathLength a in
  0 <= progressInParticle < 1 /\
  0 <= distance <= pathLength a /\
  0 <= calculateOpacity progressInParticle <= 1.
Proof.
  intros p distance.
  destruct (isInActiveWindow_progress a currentTime total seqStart c Hwin) as [_ Hp].
  fold p in Hp.
  assert (Hp' : 0 <= p <= 1) by lra.
  pose proof (easeInOutCubic_range p Hp') as He.
  pose proof (calculateOpacity_range p Hp') as Ho.
  split; [exact Hp|]. split; [|exact Ho].
  subst distance. split.
  - apply Qmult_le_0_compat; lra.
  - assert (E : pathLength a - easeInOutCubic p * pathLength a
                == (1 - easeInOutCubic p) * pathLength a) by ring.
    assert (P : 0 <= (1 - easeInOutCubic p) * pathLength a)
      by (apply Qmult_le_0_compat; lra).
    lra.
Qed.

Lemma active_particle_on_path_witness :
  0 <= (500 - (1000 - 1000)) / 2000 < 1 /\
  0 <= easeInOutCubic ((500 - (1000 - 1000)) / 2000) * 100 <= 100 /\
  0 <= calculateOpacity ((500 - (1000 - 1000)) / 2000) <= 1.
Proof.
  assert (Hwin : isInActiveWindow (sampleCore 1000) 1500 2000 1000 = Some 500)
    by (vm_compute; reflexivity).
  assert (Hlen : 0 <= pathLength (sampleCore 1000))
    by (unfold Qle; simpl; lia).
  exact (active_particle_on_path (sampleCore 1000) 1500 2000 1000 500 Hwin Hlen).
Defined.

(** ** particleUtils.ts: what a frame changes, and the cleanup *)

Lemma sameBut_refl K x : sameBut K x x.
Proof. repeat split. Qed.

Lemma sameBut_trans K x y z : sameBut K x y -> sameBut K y z -> sameBut K x z.
Proof.
  intros (A1 & A2 & A3 & A4 & A5) (B1 & B2 & B3 & B4 & B5).
  repeat split; try congruence.
  intros n Hn. rewrite B5, A5 by exact Hn. reflexivity.
Qed.

Lemma sameBut_setAttribute K m v x : m ∈ K -> sameBut K x (setAttribute m v x).
Proof.
  intros Hm. repeat split.
  intros n Hn. rewrite getAttribute_setAttribute.
  destruct (decide (m = n)) as [->|_]; [contradiction | reflexivity].
Qed.

Lemma treeSameBut_refl K svg : treeSameBut K svg svg.
Proof.
  intros h. destruct (getHead h svg); constructor. apply sameBut_refl.
Qed.

Lemma treeSameBut_trans K a b c :
  treeSameBut K a b -> treeSameBut K b c -> treeSameBut K a c.
Proof.
  intros H1 H2 h. specialize (H1 h). specialize (H2 h).
  destruct H1 as [x y Hxy|]; inversion H2; subst; constructor.
  eapply sameBut_trans; eassumption.
Qed.

Lemma treeSameBut_set K m v h' svg :
  m ∈ K -> treeSameBut K svg (updateAt h' (onHead (setAttribute m v)) svg).
Proof.
  intros Hm h. rewrite getHead_updateAt.
  destruct (decide (h = h')) as [->|_]; destruct (getHead _ svg); cbn;
    constructor; first [now apply sameBut_setAttribute | apply sameBut_refl].
Qed.

Section Frames.

Variable getPointAtLength : Handle -> Q -> option (Q * Q).

Lemma updateParticlePosition_sameBut a t isCore total seqStart svg :
  treeSameBut PARTICLE_KEYS svg
    (updateParticlePosition getPointAtLength a t isCore total seqStart svg).
Proof.
  assert (Kx : "cx" ∈ PARTICLE_KEYS) by (unfold PARTICLE_KEYS; rewrite !elem_of_cons; auto).
  assert (Ky : "cy" ∈ PARTICLE_KEYS) by (unfold PARTICLE_KEYS; rewrite !elem_of_cons; auto).
  assert (Ko : "opacity" ∈ PARTICLE_KEYS) by (unfold PARTICLE_KEYS; rewrite !elem_of_cons; auto).
  unfold updateParticlePosition.
  destruct (isInActiveWindow _ _ _ _) as [c|].
  - destruct (getPointAtLength _ _) as [[x y]|]; [|apply treeSameBut_refl].
    destruct (isCore && _);
      repeat (eapply treeSameBut_trans; [|now apply treeSameBut_set]);
      apply treeSameBut_refl.
  - destruct (isCore && _);
      repeat (eapply treeSameBut_trans; [|now apply treeSameBut_set]);
      apply treeSameBut_refl.
Qed.

Lemma forEachIndexed_sameBut t total seqStart anims : forall i svg,
  treeSameBut PARTICLE_KEYS svg
    (forEachIndexed
       (fun anim index svg =>
          updateParticlePosition getPointAtLength anim t
            (Nat.eqb (index mod 2) 0) total seqStart svg)
       i anims svg).
Proof.
  induction anims as [|a r IH]; intros i svg; cbn [forEachIndexed].
  - apply treeSameBut_refl.
  - eapply treeSameBut_trans; [|apply IH].
    apply updateParticlePosition_sameBut.
Qed.

Lemma forEachIndexed_untouched t total seqStart h anims : forall i svg,
  (forall a, a ∈ anims -> h <> element a /\ h <> glowElement a) ->
  getHead h
    (forEachIndexed
       (fun anim index svg =>
          updateParticlePosition getPointAtLength anim t
            (Nat.eqb (index mod 2) 0) total seqStart svg)
       i anims svg)
  = getHead h svg.
Proof.
  induction anims as [|a r IH]; intros i svg Hh; cbn [forEachIndexed]; [reflexivity|].
  rewrite IH by (intros b Hb; apply Hh; now right).
  destruct (Hh a) as [H1 H2]; [now left|].
  now apply updateParticlePosition_untouched.
Qed.

(** X5: a frame of the animation adds and removes no element and writes
    nothing but the attributes [cx], [cy] and [opacity]; an element that
    is not a circle of a record is left as it is. *)
Theorem animate_writes_only_particle_attributes (l : Loop) (t : Q)
    (w : World) (h : Handle) :
  option_Forall2 (sameBut PARTICLE_KEYS)
    (getHead h (w_svg w))
    (getHead h (w_svg (animate getPointAtLength l t w))) /\
  ((forall a, a ∈ loop_animations l -> h <> element a /\ h <> glowElement a) ->
   getHead h (w_svg (animate getPointAtLength l t w)) = getHead h (w_svg w)).
Proof.
  unfold animate; cbn [w_svg]. split.
  - apply forEachIndexed_sameBut.
  - apply forEachIndexed_untouched.
Qed.

Lemma animate_loopInv l t w :
  w_frames w = [] -> (0 < w_nextFrame w)%nat ->
  loopInv (animate getPointAtLength l t w).
Proof.
  intros Hf Hn. exists (w_nextFrame w). unfold animate; cbn.
  rewrite Hf. auto.
Qed.

Lemma runFrame_loopInv l t w :
  loopInv w -> loopInv (runFrame getPointAtLength (Some l) t w).
Proof.
  intros (id & Hf & Ha & Hid & Hn). unfold runFrame. rewrite Hf.
  apply animate_loopInv; cbn; [reflexivity | lia].
Qed.

Lemma runFrames_loopInv l times : forall w,
  loopInv w -> loopInv (runFrames getPointAtLength (Some l) times w).
Proof.
  induction times as [|t r IH]; intros w Hw; [exact Hw|].
  cbn [runFrames fold_left]. apply IH. now apply runFrame_loopInv.
Qed.

(** X6: when no frame is pending at the start and frame ids start above
    0, then after any number of frames the loop has exactly one frame
    pending, and the cleanup function cancels it: no frame is left, the
    tree is as the last frame left it, and a later turn of the host runs
    nothing of the loop. *)
Theorem cleanup_cancels_pending_frame (animations : list ParticleAnimation)
    (currentTime t : Q) (times : list Q) (w : World)
    (Hne : animations <> [])
    (Hfree : w_frames w = [])
    (Hid : (0 < w_nextFrame w)%nat) :
  let s := startParticleAnimation getPointAtLength animations currentTime w in
  let w' := runFrames getPointAtLength (st_loop s) times (st_world s) in
  length (w_frames w') = 1%nat /\
  w_frames (st_cleanup s w') = [] /\
  w_svg (st_cleanup s w') = w_svg w' /\
  runFrame getPointAtLength (st_loop s) t (st_cleanup s w') = st_cleanup s w'.
Proof.
  destruct animations as [|first rest]; [congruence|].
  cbn [startParticleAnimation st_loop st_world st_cleanup]. cbv zeta.
  set (l := {| loop_animations := first :: rest |}).
  pose proof (runFrames_loopInv l times _
                (animate_loopInv l currentTime w Hfree Hid))
    as (id & Hf & Ha & Hpos & Hn).
  set (w' := runFrames _ _ _ _) in *.
  rewrite Ha.
  destruct (Nat.eqb_spec id 0) as [->|_]; [lia|].
  assert (Hc : w_frames (cancelAnimationFrame id w') = []).
  { unfold cancelAnimationFrame; cbn. rewrite Hf. cbn.
    now rewrite Nat.eqb_refl. }
  split; [now rewrite Hf|]. split; [exact Hc|]. split; [reflexivity|].
  unfold runFrame. now rewrite Hc.
Qed.

End Frames.

Lemma cleanup_cancels_pending_frame_witness :
  let s := startParticleAnimation samplePoint [sampleCore 1000] 1000
             sampleAnimatedPage in
  let w' := runFrames samplePoint (st_loop s) [1016; 1033]
              (st_world s) in
  length (w_frames w') = 1%nat /\
  w_frames (st_cleanup s w') = [] /\
  w_svg (st_cleanup s w') = w_svg w' /\
  runFrame samplePoint (st_loop s) 1050 (st_cleanup s w') = st_cleanup s w'.
Proof.
  apply (cleanup_cancels_pending_frame samplePoint [sampleCore 1000] 1000 1050
            [1016; 1033] sampleAnimatedPage).
  - discriminate.
  - reflexivity.
  - cbn. lia.
Defined.


(** ** svgUtils.ts: what the classifier leaves alone and what it tags *)

Lemma hit_true h hs : hit h hs = true <-> h ∈ hs.
Proof.
  unfold hit. rewrite <- occ_pos.
  destruct (occ h hs); cbn; split; intros H; try lia; try discriminate; reflexivity.
Qed.

Lemma passClasses_elem fn fl fe l c :
  c ∈ passClasses fn fl fe l <->
  c ∈ l \/ (fn = true /\ c = "animated-node") \/
  (fl = true /\ c = "animated-label") \/ (fe = true /\ c = "animated-edge").
Proof.
  unfold passClasses.
  destruct fn, fl, fe; rewrite ?addTok_elem; intuition congruence.
Qed.

Lemma lookup_iter_markerAttrs k a n :
  n <> "refX" -> Nat.iter k markerAttrs a !! n = a !! n.
Proof.
  intros Hn. induction k as [|k IH]; [reflexivity|].
  rewrite Nat.iter_succ, lookup_markerAttrs_other by exact Hn. exact IH.
Qed.

(** The element that the classifier leaves at a handle of the tree it was
    given. *)
Lemma getHead_enhanceSVG svg h x :
  getHead h svg = Some x ->
  getHead h (enh_svg (enhanceSVG svg))
  = Some (Nat.iter (occ h (markerHandles svg)) fixArrowMarker (passAt svg h x)).
Proof.
  intros Hx. rewrite enhanceSVG_unfold. cbn [enh_svg].
  rewrite getHead_appendChild by reflexivity.
  pose proof (getHead_M svg h) as HM. cbv zeta in HM.
  rewrite HM, Hx. reflexivity.
Qed.

Lemma is_Some_growD vd m : is_Some vd -> is_Some (growD vd m).
Proof. intros H. unfold growD. destruct (jsStrictNe _ _); eauto. Qed.

Lemma is_Some_growP vd vp m : is_Some vp -> is_Some (growP vd vp m).
Proof. intros H. unfold growP. destruct (jsStrictNe _ _); eauto. Qed.

Lemma is_Some_boxAttrs a n : is_Some (a !! n) -> is_Some (boxAttrs a !! n).
Proof.
  intros H. destruct (lookup_boxAttrs a) as (W & X & Ht & Y & RX & RY & O).
  destruct (decide (n ∈ BOX_KEYS)) as [Hin|Hout]; [|now rewrite O].
  unfold BOX_KEYS in Hin. rewrite !elem_of_cons, elem_of_nil in Hin.
  destruct Hin as [->|[->|[->|[->|[->|[->|[]]]]]]].
  - rewrite W. now apply is_Some_growD.
  - rewrite X. now apply is_Some_growP.
  - rewrite Ht. now apply is_Some_growD.
  - rewrite Y. now apply is_Some_growP.
  - rewrite RX. eauto.
  - rewrite RY. eauto.
Qed.

Lemma is_Some_nodeAttrs t a n : is_Some (a !! n) -> is_Some (nodeAttrs t a !! n).
Proof.
  intros H. unfold nodeAttrs. destruct (String.eqb t "rect"); [|exact H].
  rewrite !lookup_insert.
  destruct (decide ("ry" = n)); [eauto|].
  destruct (decide ("rx" = n)); [eauto | exact H].
Qed.

Lemma is_Some_passAttrs fn fb t a n :
  is_Some (a !! n) -> is_Some (passAttrs fn fb t a !! n).
Proof.
  intros H. unfold passAttrs.
  destruct fn, fb; auto using is_Some_boxAttrs, is_Some_nodeAttrs.
Qed.

Lemma is_Some_markerAttrs a n : is_Some (a !! n) -> is_Some (markerAttrs a !! n).
Proof.
  intros H. unfold markerAttrs. destruct (isArrowMarkerId _); [|exact H].
  rewrite lookup_insert. destruct (decide ("refX" = n)); [eauto | exact H].
Qed.

Lemma is_Some_iter_markerAttrs k a n :
  is_Some (a !! n) -> is_Some (Nat.iter k markerAttrs a !! n).
Proof.
  intros H. induction k as [|k IH]; [exact H|].
  rewrite Nat.iter_succ. now apply is_Some_markerAttrs.
Qed.

(** X7: the classifier never removes or renames anything.  An element of
    the tree keeps its place, its tag and its text; it keeps every class
    token and gains none but the three animation tokens; it keeps every
    attribute, with the same value unless the attribute is one of the
    size, position and corner attributes or [refX]; and its inline style
    loses at most [overflow].  The only new element is the particle layer,
    an empty group appended to the root. *)
Theorem enhanceSVG_preserves (svg : Element) (h : Handle) (x : Head)
    (Hx : getHead h svg = Some x) :
  exists y,
    getHead h (enh_svg (enhanceSVG svg)) = Some y /\
    tagName y = tagName x /\ text y = text x /\
    (forall c, c ∈ classList x -> c ∈ classList y) /\
    (forall c, c ∈ classList y -> c ∈ classList x \/ c ∈ ADDED) /\
    (forall n, is_Some (getAttribute n x) -> is_Some (getAttribute n y)) /\
    (forall n, n ∉ BOX_KEYS -> n <> "refX" ->
       getAttribute n y = getAttribute n x) /\
    (forall p, p <> "overflow" -> style y !! p = style x !! p) /\
    (forall h', getHead h' svg = None ->
       getHead h' (enh_svg (enhanceSVG svg))
       = if decide (h' = enh_particleGroup (enhanceSVG svg))
         then Some (head particleLayer) else None) /\
    getEl (enh_particleGroup (enhanceSVG svg)) (enh_svg (enhanceSVG svg))
    = Some particleLayer.
Proof.
  eexists. split; [exact (getHead_enhanceSVG svg h x Hx)|].
  rewrite iter_fixArrowMarker. unfold passAt. rewrite passHead_actOn, actOn_actOn.
  unfold actOn, getAttribute, compose.
  cbn [tagName text classList attributes style id].
  set (fn := hit h (nodeHandles svg)).
  set (fl := hit h (labelHandles svg)).
  set (fb := hit h (boxHandles svg)).
  set (fe := hit h (findEdgePaths svg)).
  set (fc := bool_decide (h = [])).
  split; [reflexivity|]. split; [reflexivity|].
  split. { intros c Hc. apply passClasses_elem. now left. }
  split.
  { intros c Hc. cbn in Hc. apply passClasses_elem in Hc.
    unfold ADDED. rewrite !elem_of_cons.
    destruct Hc as [?|[[_ ->]|[[_ ->]|[_ ->]]]]; auto. }
  split.
  { intros n Hn. cbn. apply is_Some_iter_markerAttrs. now apply is_Some_passAttrs. }
  split.
  { intros n Hn Hr. cbn. rewrite lookup_iter_markerAttrs by exact Hr.
    apply (supported_passAttrs fn fb (tagName x)). exact Hn. }
  split.
  { intros p Hp. cbn. unfold passStyle.
    destruct fc; [now rewrite lookup_delete_ne | reflexivity]. }
  assert (Len : length (children (fixArrowMarkers (snd (enhanceCore svg))))
                = length (children svg)).
  { unfold fixArrowMarkers. rewrite length_children_forEachHead.
    unfold enhanceCore, enhanceEdges. cbn [snd].
    unfold enhanceEdgeLabelBoxes, enhanceLabels, enhanceNodes, configureSVGRendering.
    rewrite !length_children_forEachHead. destruct svg; reflexivity. }
  rewrite enhanceSVG_unfold. cbn [enh_svg enh_particleGroup]. split.
  - intros h' Hnone. rewrite getHead_appendChild by reflexivity.
    pose proof (getHead_M svg h') as HM. cbv zeta in HM.
    rewrite HM, Hnone. cbn. reflexivity.
  - set (M := fixArrowMarkers (snd (enhanceCore svg))) in *.
    destruct M as [hd ks]. cbn [appendChild children getEl].
    rewrite lookup_app_r by lia. now rewrite Nat.sub_diag.
Qed.

Lemma enhanceSVG_preserves_witness :
  exists y,
    getHead [1; 0]%nat (enh_svg (enhanceSVG sampleFlowchart)) = Some y /\
    tagName y = "rect" /\
    getAttribute "width" y = Some (VNum 150).
Proof.
  assert (Hx : getHead [1; 0]%nat sampleFlowchart
               = Some (head (elem "rect" ["basic"]
                               [("width", VNum 150); ("height", VNum 54)] [])))
    by reflexivity.
  destruct (enhanceSVG_preserves sampleFlowchart [1; 0]%nat _ Hx)
    as (y & Hy & Ht & _ & _ & _ & _ & Hattr & _).
  exists y. split; [exact Hy|]. split; [exact Ht|].
  vm_compute in Hy. injection Hy as <-. vm_compute. reflexivity.
Defined.

Lemma passClasses_added fn fl fe l :
  ("animated-node" ∈ passClasses fn fl fe l <-> "animated-node" ∈ l \/ fn = true) /\
  ("animated-label" ∈ passClasses fn fl fe l <-> "animated-label" ∈ l \/ fl = true) /\
  ("animated-edge" ∈ passClasses fn fl fe l <-> "animated-edge" ∈ l \/ fe = true).
Proof.
  rewrite !passClasses_elem.
  repeat split; intros H;
    repeat match goal with
           | H : _ \/ _ |- _ => destruct H
           | H : _ /\ _ |- _ => destruct H
           end;
    try discriminate; auto 6.
Qed.

(** The first selector of a priority list that matches anything decides. *)
Lemma firstNonEmpty_priority svg sels :
  match firstNonEmpty svg sels with
  | Some es =>
      exists pre sel post,
        sels = (pre ++ sel :: post)%list /\
        Forall (fun s => querySelectorAll svg s = []) pre /\
        es = querySelectorAll svg sel /\ es <> []
  | None => Forall (fun s => querySelectorAll svg s = []) sels
  end.
Proof.
  induction sels as [|sel rest IH]; cbn [firstNonEmpty]; [constructor|].
  destruct (querySelectorAll svg sel) as [|e es] eqn:E.
  - destruct (firstNonEmpty svg rest) as [r|].
    + destruct IH as (pre & s & post & -> & Hpre & Hr & Hne).
      exists (sel :: pre), s, post. repeat split; auto.
    + constructor; assumption.
  - exists [], sel, rest. repeat split; auto; discriminate.
Qed.

Lemma NoDup_findEdgePaths svg : NoDup (findEdgePaths svg).
Proof.
  unfold findEdgePaths.
  pose proof (firstNonEmpty_priority svg MERMAID_SELECTORS.edges) as P.
  destruct (firstNonEmpty svg MERMAID_SELECTORS.edges) as [es|].
  - destruct P as (pre & sel & post & _ & _ & -> & _). apply NoDup_selectBelow.
  - apply NoDup_ListNoDup, List.NoDup_filter, NoDup_ListNoDup, NoDup_selectBelow.
Qed.

(** X8: the classifier tags exactly the roles it finds.  After a run an
    element carries [animated-node] just when it carried it before or is a
    node shape, [animated-label] just when it carried it before or is a
    node or edge label, and [animated-edge] just when it carried it before
    or is one of the returned edges.  The returned edges are those that
    [findEdgePaths] finds in the tree as given; they are distinct elements
    of the result, below the root. *)
Theorem enhanceSVG_tags_roles (svg : Element) (h : Handle) (x y : Head)
    (Hx : getHead h svg = Some x)
    (Hy : getHead h (enh_svg (enhanceSVG svg)) = Some y) :
  ("animated-node" ∈ classList y <->
     "animated-node" ∈ classList x \/ h ∈ nodeHandles svg) /\
  ("animated-label" ∈ classList y <->
     "animated-label" ∈ classList x \/ h ∈ labelHandles svg) /\
  ("animated-edge" ∈ classList y <->
     "animated-edge" ∈ classList x \/ h ∈ enh_edges (enhanceSVG svg)) /\
  enh_edges (enhanceSVG svg) = findEdgePaths svg /\
  NoDup (enh_edges (enhanceSVG svg)) /\
  (forall e, e ∈ enh_edges (enhanceSVG svg) ->
     e <> [] /\ is_Some (getEl e (enh_svg (enhanceSVG svg)))).
Proof.
  assert (He : enh_edges (enhanceSVG svg) = findEdgePaths svg).
  { rewrite enhanceSVG_unfold. cbn [enh_edges]. apply enhanceCore_edges. }
  rewrite (getHead_enhanceSVG svg h x Hx) in Hy. injection Hy as <-.
  rewrite iter_fixArrowMarker. unfold passAt. rewrite passHead_actOn, actOn_actOn.
  unfold actOn, compose. cbn [classList id].
  destruct (passClasses_added (hit h (nodeHandles svg)) (hit h (labelHandles svg))
              (hit h (findEdgePaths svg)) (classList x)) as (A & B & C).
  rewrite He, A, B, C, !hit_true.
  repeat split; try tauto; try apply NoDup_findEdgePaths.
  - intros ->. apply findEdgePaths_valid in H. tauto.
  - destruct (findEdgePaths_valid svg e H) as [V _].
    apply getHead_is_Some in V. destruct V as [z Hz].
    apply getHead_is_Some. rewrite (getHead_enhanceSVG svg e z Hz). eauto.
Qed.

Lemma enhanceSVG_tags_roles_witness :
  "animated-edge" ∈ ["flowchart-link"; "animated-edge"] <->
    "animated-edge" ∈ ["flowchart-link"] \/
    [3%nat] ∈ enh_edges (enhanceSVG sampleFlowchart).
Proof.
  assert (Hx : getHead [3%nat] sampleFlowchart
               = Some (head (elem "path" ["flowchart-link"] [] [])))
    by reflexivity.
  assert (Hy : getHead [3%nat] (enh_svg (enhanceSVG sampleFlowchart))
               = Some (classList_add "animated-edge"
                         (head (elem "path" ["flowchart-link"] [] []))))
    by (vm_compute; reflexivity).
  destruct (enhanceSVG_tags_roles sampleFlowchart [3%nat] _ _ Hx Hy)
    as (_ & _ & He & _).
  exact He.
Defined.

(** X9: [findEdgePaths] follows the priority of the edge selectors: its
    result is what the first selector with any match selects, the
    selectors before it matching nothing; when no selector matches, it is
    the paths whose parent neither carries the class [node] nor is a
    marker.  In both cases the result lists distinct elements of the tree
    below the root, in document order of the selection. *)
Theorem findEdgePaths_priority (svg : Element) :
  ((exists pre sel post,
      MERMAID_SELECTORS.edges = (pre ++ sel :: post)%list /\
      Forall (fun s => querySelectorAll svg s = []) pre /\
      querySelectorAll svg sel <> [] /\
      findEdgePaths svg = querySelectorAll svg sel) \/
   (Forall (fun s => querySelectorAll svg s = []) MERMAID_SELECTORS.edges /\
    findEdgePaths svg
    = List.filter (fun h => edgeOk (parentHead svg h))
        (querySelectorAll svg [tagSel "path"]))) /\
  NoDup (findEdgePaths svg) /\
  (forall h, h ∈ findEdgePaths svg -> h <> [] /\ is_Some (getEl h svg)).
Proof.
  split; [|split; [apply NoDup_findEdgePaths|]].
  - unfold findEdgePaths.
    pose proof (firstNonEmpty_priority svg MERMAID_SELECTORS.edges) as P.
    destruct (firstNonEmpty svg MERMAID_SELECTORS.edges) as [es|].
    + left. destruct P as (pre & sel & post & E & Hpre & -> & Hne).
      exists pre, sel, post. auto.
    + right. split; [exact P|].
      apply filter_ext. intros h. apply isEdgeFallback_edgeOk.
  - intros h Hh. apply findEdgePaths_valid in Hh. tauto.
Qed.

(** ** Selections, read by element *)

Lemma elem_of_flatMapI_2 {A B : Type} (f : nat -> A -> list B) (l : list A) y :
  forall j i x, l !! i = Some x -> y ∈ f (j + i)%nat x -> y ∈ flatMapI f j l.
Proof.
  induction l as [|a l IH]; intros j i x Hi Hy; [discriminate|].
  cbn [flatMapI]. apply elem_of_app. destruct i as [|i].
  - left. injection Hi as ->. now rewrite Nat.add_0_r in Hy.
  - right. apply (IH (S j) i x Hi). now rewrite Nat.add_succ_comm.
Qed.

(** A selection holds exactly the handles of the elements that satisfy
    the predicate under their ancestors. *)
Lemma elem_of_selectAll P : forall e ancs h,
  h ∈ selectAll P ancs e <->
  exists e', getEl h e = Some e' /\ P (ancestorsAt h e ancs) e' = true.
Proof.
  induction e as [hd ks IH] using Element_ind'. intros ancs h.
  rewrite Forall_lookup in IH.
  rewrite selectAll_unfold, elem_of_app. split.
  - intros [H|H].
    + destruct (P ancs (Node hd ks)) eqn:E; [|inversion H].
      apply list_elem_of_singleton in H as ->. cbn. eauto.
    + apply elem_of_flatMapI in H as (i & k & Hk & H). cbn in H.
      apply list_elem_of_fmap in H as (h' & -> & H').
      apply (IH i k Hk) in H' as (e' & He' & HP).
      exists e'. rewrite getEl_cons. cbn [children ancestorsAt head].
      rewrite Hk. auto.
  - intros (e' & He' & HP). destruct h as [|i h'].
    + left. cbn in He', HP. injection He' as <-. rewrite HP.
      apply list_elem_of_singleton. reflexivity.
    + right. rewrite getEl_cons in He'. cbn [children ancestorsAt head] in He', HP.
      destruct (ks !! i) as [k|] eqn:Hk; [|discriminate].
      apply (elem_of_flatMapI_2 _ ks _ 0%nat i k Hk). cbn.
      apply list_elem_of_fmap. exists h'. split; [reflexivity|].
      apply (IH i k Hk). eauto.
Qed.

Lemma elem_of_querySelectorAll svg sel h :
  h ∈ querySelectorAll svg sel <->
  h <> [] /\
  exists e, getEl h svg = Some e /\
            matchesSelector sel (ancestorsAt h svg []) (head e) = true.
Proof.
  unfold querySelectorAll, selectBelow. split.
  - intros H. apply elem_of_flatMapI in H as (i & k & Hk & H). cbn in H.
    apply list_elem_of_fmap in H as (h' & -> & H').
    apply elem_of_selectAll in H' as (e & He & HP).
    split; [discriminate|]. exists e.
    rewrite getEl_cons. cbn [ancestorsAt]. rewrite Hk. auto.
  - intros (Hne & e & He & HP). destruct h as [|i h']; [congruence|].
    rewrite getEl_cons in He. cbn [ancestorsAt] in HP.
    destruct (children svg !! i) as [k|] eqn:Hk; [|discriminate].
    apply (elem_of_flatMapI_2 _ _ _ 0%nat i k Hk). cbn.
    apply list_elem_of_fmap. exists h'. split; [reflexivity|].
    apply elem_of_selectAll. eauto.
Qed.

Lemma matchesSelector_tagSel t ancs hd :
  matchesSelector [tagSel t] ancs hd = String.eqb t (tagName hd).
Proof.
  unfold matchesSelector, tagSel, matchesComplex, matchesCompound.
  cbn [existsb selTag selClasses forallb].
  now rewrite orb_false_r, andb_true_r.
Qed.

Lemma elem_of_tagSel svg t h :
  h ∈ querySelectorAll svg [tagSel t] <->
  h <> [] /\ exists x, getHead h svg = Some x /\ tagName x = t.
Proof.
  rewrite elem_of_querySelectorAll.
  split; intros (Hne & e & He & Hm); (split; [exact Hne|]).
  - exists (head e). unfold getHead. rewrite He. split; [reflexivity|].
    rewrite matchesSelector_tagSel in Hm.
    apply String.eqb_eq in Hm. now symmetry.
  - unfold getHead in He. destruct (getEl h svg) as [el|]; [|discriminate].
    injection He as <-. exists el. split; [reflexivity|].
    rewrite matchesSelector_tagSel. apply String.eqb_eq. now symmetry.
Qed.

Lemma elem_of_markerHandles svg h :
  h ∈ markerHandles svg <->
  h <> [] /\ exists x, getHead h svg = Some x /\ tagName x = "marker".
Proof. apply elem_of_tagSel. Qed.

(** ** svgUtils.ts: the marker repair *)

(** X10: [fixArrowMarkers] touches nothing but [refX] of the markers
    below the root whose id contains [arrowhead], [flowchart] or [arrow]:
    every other element, a marker without such an id included, stays as it
    is.  Such a marker with a numeric [refX] gets it reduced by 2.5, as
    does one whose [refX] is text with a leading number ([12px] gives
    9.5); one without [refX] gets 2.5, and one whose [refX] is text that
    [parseFloat] reads as [NaN] gets the text [NaN]. *)
Theorem fixArrowMarkers_selective (svg : Element) (h : Handle) (x : Head)
    (Hx : getHead h svg = Some x) :
  exists y,
    getHead h (fixArrowMarkers svg) = Some y /\
    sameBut ["refX"] x y /\
    (h = [] \/ tagName x <> "marker" \/
     isArrowMarkerId (getAttribute "id" x) = false -> y = x) /\
    (h <> [] -> tagName x = "marker" ->
     isArrowMarkerId (getAttribute "id" x) = true ->
     (forall q, getAttribute "refX" x = Some (VNum q) ->
        getAttribute "refX" y = Some (VNum (q - (25 # 10)))) /\
     (getAttribute "refX" x = None ->
        getAttribute "refX" y = Some (VNum (5 - (25 # 10)))) /\
     (forall s q, getAttribute "refX" x = Some (VStr s) ->
        parseFloatText s = PFinite q ->
        getAttribute "refX" y = Some (VNum (q - (25 # 10)))) /\
     (forall s, getAttribute "refX" x = Some (VStr s) -> s <> "" ->
        parseFloatText s = PNaN ->
        getAttribute "refX" y = Some (VStr "NaN")) /\
     parseFloatText "12px" = PFinite 12 /\
     parseFloatText "auto" = PNaN).
Proof.
  rewrite getHead_fixArrowMarkers, Hx. cbn.
  destruct (bool_decide (h ∈ markerHandles svg)) eqn:E.
  - apply bool_decide_eq_true in E.
    apply elem_of_markerHandles in E as (Hne & x' & Hx' & Htag).
    assert (x' = x) as -> by congruence.
    exists (fixArrowMarker x). split; [reflexivity|].
    split.
    { rewrite fixArrowMarker_actOn. unfold sameBut, actOn, getAttribute.
      cbn. repeat split. intros n Hn. apply lookup_markerAttrs_other.
      intros ->. apply Hn. now left. }
    split.
    { intros [?|[?|Hid]]; try contradiction.
      unfold fixArrowMarker. now rewrite Hid. }
    intros _ _ Hid. unfold fixArrowMarker. rewrite Hid.
    repeat split.
    + intros q Hq. rewrite Hq, getAttribute_setAttribute.
      rewrite decide_True by reflexivity. reflexivity.
    + intros Hq. rewrite Hq, getAttribute_setAttribute.
      rewrite decide_True by reflexivity. reflexivity.
    + intros s q Hs Hq. rewrite Hs, getAttribute_setAttribute.
      rewrite decide_True by reflexivity.
      destruct s as [|c s]; [discriminate Hq|].
      cbn [attrOr parseFloat]. rewrite Hq. reflexivity.
    + intros s Hs Hne' Hq. rewrite Hs, getAttribute_setAttribute.
      rewrite decide_True by reflexivity.
      destruct s as [|c s]; [contradiction|].
      cbn [attrOr parseFloat]. rewrite Hq. reflexivity.
  - apply bool_decide_eq_false in E.
    exists x. split; [reflexivity|]. split; [apply sameBut_refl|].
    split; [reflexivity|].
    intros Hne Htag Hid. exfalso. apply E. apply elem_of_markerHandles. eauto.
Qed.

Lemma fixArrowMarkers_selective_witness :
  exists y,
    getHead [0; 0]%nat (fixArrowMarkers sampleFlowchart) = Some y /\
    getAttribute "refX" y = Some (VNum (5 - (25 # 10))).
Proof.
  assert (Hx : getHead [0; 0]%nat sampleFlowchart
               = Some (head (elem "marker" []
                               [("id", VStr "flowchart-pointEnd"); ("refX", VNum 5)]
                               [ elem "path" ["arrowMarkerPath"] [] [] ])))
    by reflexivity.
  destruct (fixArrowMarkers_selective sampleFlowchart [0; 0]%nat _ Hx)
    as (y & Hy & _ & _ & Hm).
  exists y. split; [exact Hy|].
  destruct Hm as (Hq & _); [discriminate | reflexivity | reflexivity |].
  apply Hq. reflexivity.
Defined.

(** ** particleUtils.ts: the circles of a particle *)

Lemma getEl_updateAt_eq f h : forall svg,
  getEl h (updateAt h f svg) = f <$> getEl h svg.
Proof.
  induction h as [|i h IH]; intros svg; [reflexivity|].
  cbn [updateAt]. rewrite !getEl_cons. cbn [children].
  rewrite list_lookup_alter_eq.
  destruct (children svg !! i) as [k|]; cbn; [apply IH | reflexivity].
Qed.

(** Appending a leaf to the element at [pg] leaves every element in its
    place and adds one at the end of the children of [pg]. *)
Lemma getHead_appendChildAt c pg : forall svg g h,
  children c = [] -> getEl pg svg = Some g ->
  getHead h (updateAt pg (appendChild c) svg) =
  match getHead h svg with
  | Some x => Some x
  | None => if decide (h = (pg ++ [length (children g)])%list)
            then Some (head c) else None
  end.
Proof.
  induction pg as [|i pg IH]; intros svg g h Hc Hg.
  - cbn in Hg. injection Hg as <-. cbn [updateAt app].
    now apply getHead_appendChild.
  - rewrite getEl_cons in Hg.
    destruct (children svg !! i) as [k|] eqn:Ek; [|discriminate].
    cbn [updateAt]. destruct h as [|j h].
    + destruct svg; reflexivity.
    + rewrite !getHead_cons. cbn [children].
      destruct (decide (j = i)) as [->|Hji].
      * rewrite list_lookup_alter_eq, Ek. cbn.
        rewrite (IH k g h Hc Hg).
        destruct (getHead h k); [reflexivity|].
        cbn [app]. repeat case_decide; first [reflexivity | congruence].
      * rewrite list_lookup_alter_ne by congruence.
        destruct (children svg !! j) as [k'|]; [destruct (getHead h k'); [reflexivity|]|];
          (case_decide as E; [|reflexivity]; cbn in E; congruence).
Qed.

Lemma appendChildAt_spec c pg svg g :
  children c = [] -> getEl pg svg = Some g ->
  let r := appendChildAt pg c svg in
  fst r = (pg ++ [length (children g)])%list /\
  getEl pg (snd r) = Some (appendChild c g) /\
  (forall h x, getHead h svg = Some x -> getHead h (snd r) = Some x) /\
  getHead (fst r) (snd r) = Some (head c).
Proof.
  intros Hc Hg. unfold appendChildAt. rewrite Hg. cbn [fst snd].
  split; [reflexivity|]. split; [now rewrite getEl_updateAt_eq, Hg|].
  split.
  - intros h x Hx. rewrite (getHead_appendChildAt c pg svg g h Hc Hg), Hx.
    reflexivity.
  - rewrite (getHead_appendChildAt c pg svg g _ Hc Hg).
    destruct (getHead _ svg) as [x|] eqn:Ex.
    + exfalso. assert (V : is_Some (getEl (pg ++ [length (children g)])%list svg)).
      { apply getHead_is_Some. eauto. }
      destruct V as [e He]. revert He. clear -Hg.
      revert svg Hg. induction pg as [|i pg IH]; intros svg Hg He.
      * cbn in Hg. injection Hg as <-. cbn in He.
        rewrite lookup_ge_None_2 in He by lia. discriminate.
      * rewrite getEl_cons in Hg. cbn [app] in He. rewrite getEl_cons in He.
        destruct (children svg !! i) as [k|]; [|discriminate].
        now apply (IH k).
    + case_decide; [reflexivity | congruence].
Qed.

Section Circles.

Variable getTotalLength : Handle -> Q.

(** X11: for an edge, [createParticlesForPath] appends exactly three
    circles to the particle group, after the children it has, in the
    order outer glow, core, inner glow, each at (0, 0) with the radius,
    fill and opacity of [PARTICLE_STYLE]; every element that was in the
    tree stays as it is.  The first record animates the core with the
    inner glow as its glow element, the second the outer glow alone. *)
Theorem createParticlesForPath_three_circles (path : Handle)
    (cumulativeStartTime : Q) (particleGroup : Handle) (svg g : Element)
    (Hg : getEl particleGroup svg = Some g) :
  let r := createParticlesForPath getTotalLength path cumulativeStartTime
             particleGroup svg in
  let n := length (children g) in
  let circle (s : CircleStyle) (className : string) :=
    createCircle (radius s) (fill s) (opacity s) className in
  getEl particleGroup (pp_svg r)
  = Some (Node (head g)
            (children g ++
             [ circle (outerGlow PARTICLE_STYLE) "particle-outer-glow";
               circle (core PARTICLE_STYLE) "edge-particle";
               circle (innerGlow PARTICLE_STYLE) "particle-inner-glow" ])) /\
  map element (pp_animations r)
  = [ (particleGroup ++ [S n])%list; (particleGroup ++ [n])%list ] /\
  map glowElement (pp_animations r)
  = [ (particleGroup ++ [S (S n)])%list; (particleGroup ++ [n])%list ] /\
  (forall h x, getHead h svg = Some x -> getHead h (pp_svg r) = Some x).
Proof.
  intros r n circle. subst r.
  unfold createParticlesForPath. cbn [particleCount PARTICLE_CONFIG particleLoop].
  unfold createParticle.
  set (o := createCircle _ _ _ "particle-outer-glow").
  set (c := createCircle _ _ _ "edge-particle").
  set (i := createCircle _ _ _ "particle-inner-glow").
  destruct (appendChildAt_spec o particleGroup svg g eq_refl Hg)
    as (A1 & A2 & A3 & _).
  destruct (appendChildAt particleGroup o svg) as [h1 s1]. cbn [fst snd] in *.
  destruct (appendChildAt_spec c particleGroup s1 _ eq_refl A2)
    as (B1 & B2 & B3 & _).
  destruct (appendChildAt particleGroup c s1) as [h2 s2]. cbn [fst snd] in *.
  destruct (appendChildAt_spec i particleGroup s2 _ eq_refl B2)
    as (C1 & C2 & C3 & _).
  destruct (appendChildAt particleGroup i s2) as [h3 s3]. cbn [fst snd] in *.
  cbn [pp_animations pp_svg map element glowElement app p_core p_innerGlow p_outerGlow].
  subst h1 h2 h3. destruct g as [hd ks].
  cbn [appendChild children] in *. rewrite !length_app in *. cbn [length] in *.
  rewrite !Nat.add_1_r in *.
  split.
  { rewrite C2. rewrite <- !app_assoc. reflexivity. }
  split; [reflexivity|]. split; [reflexivity|].
  intros h x Hx. auto.
Qed.

End Circles.

Lemma createParticlesForPath_three_circles_witness :
  let r := createParticlesForPath (fun _ => 100) [3%nat] 1000 [5%nat]
             (enh_svg (enhanceSVG sampleFlowchart)) in
  map element (pp_animations r) = [ [5; 1]%nat; [5; 0]%nat ] /\
  length <$> (children <$> getEl [5%nat] (pp_svg r)) = Some 3%nat.
Proof.
  assert (Hg : getEl [5%nat] (enh_svg (enhanceSVG sampleFlowchart))
               = Some particleLayer) by (vm_compute; reflexivity).
  destruct (createParticlesForPath_three_circles (fun _ => 100) [3%nat] 1000
              [5%nat] _ _ Hg) as (G & E & _).
  split; [exact E|]. cbv zeta in G. rewrite G. reflexivity.
Defined.

(** ** index.tsx: charts without image declarations, and repeated names *)

Lemma includes_startsWith s p : startsWith s p = true -> includes s p = true.
Proof. intros H. destruct s; cbn [includes]; rewrite H; reflexivity. Qed.

Lemma includes_cons c r p : includes r p = true -> includes (String c r) p = true.
Proof. intros H. cbn [includes]. rewrite H. apply orb_true_r. Qed.

Lemma includes_dropStr n : forall s p,
  includes (dropStr n s) p = true -> includes s p = true.
Proof.
  induction n as [|n IH]; intros s p H; [exact H|].
  destruct s as [|c r]; [exact H|].
  cbn [dropStr] in H. apply includes_cons. now apply IH.
Qed.

Lemma matchItems_lit_inv l rest s r :
  matchItems (Lit l :: rest) s = Some r ->
  startsWith s l = true /\ matchItems rest (dropStr (String.length l) s) = Some r.
Proof.
  cbn [matchItems]. destruct (startsWith s l); [auto | discriminate].
Qed.

Lemma matchItems_plus_inv capture class rest s r :
  matchItems (Plus capture class :: rest) s = Some r ->
  exists k r', (1 <= k)%nat /\ matchItems rest (dropStr k s) = Some r'.
Proof.
  cbn [matchItems]. generalize (runLength class s). intros n.
  induction n as [|n IH]; [discriminate|].
  destruct (matchItems rest (dropStr (S n) s)) as [[caps after]|] eqn:E.
  - intros _. exists (S n), (caps, after). split; [lia | exact E].
  - intros H. apply IH. exact H.
Qed.

(** A declaration can only be matched where the text [img:] follows. *)
Lemma matchItems_needs_img s r :
  matchItems PARTICIPANT_IMG s = Some r -> includes s "img:" = true.
Proof.
  unfold PARTICIPANT_IMG. intros H.
  apply matchItems_lit_inv in H as [_ H].
  apply matchItems_plus_inv in H as (k & r' & _ & H).
  apply matchItems_lit_inv in H as [H _].
  eapply includes_dropStr, includes_dropStr, includes_startsWith, H.
Qed.

Lemma replaceParticipants_plain s : forall m,
  includes s "img:" = false -> replaceParticipants s 0 m = (s, m).
Proof.
  induction s as [|c r IH]; intros m H; [reflexivity|].
  assert (Hr : includes r "img:" = false).
  { destruct (includes r "img:") eqn:E; [|reflexivity].
    rewrite (includes_cons c r _ E) in H. discriminate. }
  rewrite replaceParticipants_copy.
  - rewrite (IH m Hr). reflexivity.
  - destruct (matchItems PARTICIPANT_IMG (String c r)) as [x|] eqn:E; [|reflexivity].
    apply matchItems_needs_img in E. congruence.
Qed.

(** X12: a chart in which the text [img:] does not occur comes back
    unchanged, with an empty image mapping. *)
Theorem preprocessChart_without_images (chart : string)
    (H : includes chart "img:" = false) :
  cleanedChart (preprocessChart chart) = chart /\
  imageMappings (preprocessChart chart) = ∅.
Proof.
  unfold preprocessChart. rewrite (replaceParticipants_plain chart ∅ H).
  split; reflexivity.
Qed.

Lemma preprocessChart_without_images_witness :
  cleanedChart (preprocessChart ("participant B" ++ nl ++ "A->>B: hi"))
  = "participant B" ++ nl ++ "A->>B: hi" /\
  imageMappings (preprocessChart ("participant B" ++ nl ++ "A->>B: hi")) = ∅.
Proof.
  apply preprocessChart_without_images. vm_compute. reflexivity.
Defined.

(** The text that [replaceParticipants] returns does not depend on the
    mapping it starts with, and the mapping it returns is the one it
    builds from the empty mapping laid over the one it starts with. *)
Lemma replaceParticipants_union s : forall k m,
  replaceParticipants s k m
  = (fst (replaceParticipants s k ∅), snd (replaceParticipants s k ∅) ∪ m).
Proof.
  induction s as [|c r IH]; intros k m.
  - cbn. now rewrite (left_id_L ∅ (∪)).
  - cbn [replaceParticipants]. destruct k as [|k]; [|apply IH].
    destruct (matchItems PARTICIPANT_IMG (String c r))
      as [[[|imgPath [|actorName [|? ?]]] after]|];
      try (rewrite (IH 0%nat m);
           destruct (replaceParticipants r 0 ∅) as [out m0]; reflexivity).
    rewrite (IH _ (<[trim actorName := imgPath]> m)).
    rewrite (IH _ (<[trim actorName := imgPath]> ∅)).
    destruct (replaceParticipants r _ ∅) as [out m0]. cbn [fst snd].
    f_equal.
    rewrite (insert_union_singleton_l m), (insert_union_singleton_l ∅).
    rewrite (right_id_L ∅ (∪)). now rewrite (assoc_L (∪)).
Qed.

(** X13: a well-formed declaration at the start of a chart is rewritten
    on its own: the cleaned chart is [participant <displayName>] followed
    by the cleaned rest, and the mapping is that of the rest with the pair
    of this declaration added underneath, so that a later declaration of
    the same name overrides this one. *)
Theorem preprocessChart_later_declaration_wins
    (ws1 loc ws2 name rest : string)
    (Hwf : wellFormedDeclaration ws1 loc ws2 name rest = true) :
  let chart := "participant" ++ ws1 ++ "img:" ++ loc ++ ws2 ++ name ++ rest in
  cleanedChart (preprocessChart chart)
  = "participant " ++ name ++ cleanedChart (preprocessChart rest) /\
  imageMappings (preprocessChart chart)
  = imageMappings (preprocessChart rest) ∪ {[ trim name := loc ]} /\
  (forall k,
     imageMappings (preprocessChart chart) !! k
     = match imageMappings (preprocessChart rest) !! k with
       | Some later => Some later
       | None => if decide (k = trim name) then Some loc else None
       end).
Proof.
  intros chart.
  assert (E : preprocessChart chart
              = {| cleanedChart :=
                     "participant " ++ name ++ cleanedChart (preprocessChart rest);
                   imageMappings :=
                     imageMappings (preprocessChart rest) ∪ {[ trim name := loc ]} |}).
  { unfold chart, preprocessChart.
    rewrite (replaceParticipants_declaration _ _ _ _ _ ∅ Hwf).
    rewrite (replaceParticipants_union rest 0 (<[trim name := loc]> ∅)).
    destruct (replaceParticipants rest 0 ∅) as [out m0]. cbn [fst snd].
    rewrite insert_empty. reflexivity. }
  rewrite E. cbn [cleanedChart imageMappings].
  split; [reflexivity|]. split; [reflexivity|].
  intros k. rewrite lookup_union.
  destruct (imageMappings (preprocessChart rest) !! k) as [later|]; cbn.
  - destruct ({[trim name := loc]} !! k); reflexivity.
  - rewrite (left_id_L None union).
    destruct (decide (k = trim name)) as [->|Hk].
    + now rewrite lookup_singleton_eq.
    + now rewrite lookup_singleton_ne.
Qed.

Lemma preprocessChart_later_declaration_wins_witness :
  imageMappings
    (preprocessChart
       ("participant" ++ " " ++ "img:" ++ "old.png" ++ " " ++ "A"
        ++ (nl ++ "participant img:new.png A")))
  = {[ "A" := "new.png" ]} ∪ {[ "A" := "old.png" ]}.
Proof.
  assert (Hwf : wellFormedDeclaration " " "old.png" " " "A"
                  (nl ++ "participant img:new.png A") = true)
    by (vm_compute; reflexivity).
  destruct (preprocessChart_later_declaration_wins " " "old.png" " " "A"
              (nl ++ "participant img:new.png A") Hwf) as (_ & Hm & _).
  cbv zeta in Hm. rewrite Hm. f_equal.
Defined.

(** ** index.tsx: actors without an image *)

Lemma getEl_app (a : Handle) : forall (b : Handle) svg,
  getEl (a ++ b)%list svg = match getEl a svg with
                       | Some e => getEl b e
                       | None => None
                       end.
Proof.
  induction a as [|i a IH]; intros b svg; [reflexivity|].
  cbn [app]. rewrite !getEl_cons.
  destruct (children svg !! i) as [k|]; [apply IH | reflexivity].
Qed.

Lemma querySelector_tagSel el t rel :
  querySelector el [tagSel t] = Some rel ->
  rel <> [] /\ exists e, getEl rel el = Some e /\ tagName (head e) = t.
Proof.
  unfold querySelector. intros H.
  destruct (querySelectorAll el [tagSel t]) as [|h r] eqn:E; [discriminate|].
  injection H as ->.
  assert (Hin : rel ∈ querySelectorAll el [tagSel t]) by (rewrite E; now left).
  apply elem_of_tagSel in Hin as (Hne & x & Hx & Ht).
  split; [exact Hne|]. unfold getHead in Hx.
  destruct (getEl rel el) as [e|]; [|discriminate].
  injection Hx as <-. eauto.
Qed.

Section NoImage.

Variable randomText : nat -> string.

Lemma attachActorImage_unnamed m actor k svg :
  Forall (fun n => m !! n = None) (textNames svg) ->
  attachActorImage randomText m actor k svg = (svg, k, false).
Proof.
  intros Hnames. unfold attachActorImage.
  destruct (getEl actor svg) as [actorEl|] eqn:Ea; [|reflexivity].
  destruct (querySelector actorEl [tagSel "text"]) as [textRel|] eqn:Et;
    [|reflexivity].
  destruct (querySelector actorEl [tagSel "rect"]) as [rectRel|]; [|reflexivity].
  apply querySelector_tagSel in Et as (Hne & t & Ht & Htag).
  assert (Hg : getEl (actor ++ textRel)%list svg = Some t)
    by now rewrite getEl_app, Ea.
  rewrite Hg.
  assert (Hin : trim (textContent t) ∈ textNames svg).
  { unfold textNames. apply list_elem_of_In, in_flat_map.
    exists (actor ++ textRel)%list. split.
    - apply list_elem_of_In, elem_of_tagSel. split.
      + destruct actor; [exact Hne | discriminate].
      + exists (head t). unfold getHead. now rewrite Hg.
    - rewrite Hg. now left. }
  rewrite Forall_forall in Hnames. rewrite (Hnames _ Hin). reflexivity.
Qed.

Lemma forEachActor_unnamed m actors : forall k svg,
  Forall (fun n => m !! n = None) (textNames svg) ->
  forEachActor randomText m actors k 0 svg = svg.
Proof.
  induction actors as [|actor rest IH]; intros k svg Hnames; [reflexivity|].
  cbn [forEachActor]. change (Nat.iter 0 shiftHandle actor) with actor. cbv zeta.
  rewrite (attachActorImage_unnamed m actor k svg Hnames).
  now apply IH.
Qed.

(** X14: when no [text] element of the graphic has a name with an
    entry in the image mapping, [addActorImages] leaves the graphic as
    it is: no image, no clip path and no [defs] element is added, and no
    text is moved. *)
Theorem addActorImages_without_match (svg : Element)
    (imageMappings : gmap string string)
    (Hnames : Forall (fun n => imageMappings !! n = None) (textNames svg)) :
  addActorImages randomText svg imageMappings = svg.
Proof.
  unfold addActorImages. destruct (Nat.eqb _ 0); [reflexivity|].
  now apply forEachActor_unnamed.
Qed.

End NoImage.

Lemma addActorImages_without_match_witness :
  addActorImages sampleRandomText scenarioRendered {[ "C" := "https://x/c.png" ]}
  = scenarioRendered.
Proof.
  apply addActorImages_without_match.
  vm_compute. repeat constructor.
Defined.

(** ** Trimming *)

Lemma revString_app s : forall acc,
  revString s acc = (revString s EmptyString ++ acc)%string.
Proof.
  induction s as [|c r IH]; intros acc; [reflexivity|].
  cbn [revString]. rewrite (IH (String c acc)), (IH (String c EmptyString)).
  now rewrite append_assoc.
Qed.

Lemma append_nil_r s : (s ++ EmptyString)%string = s.
Proof. induction s as [|c r IH]; [reflexivity|]. rewrite append_cons. now rewrite IH. Qed.

Lemma revString_append a b :
  revString (a ++ b) EmptyString
  = (revString b EmptyString ++ revString a EmptyString)%string.
Proof.
  induction a as [|c a IH].
  - rewrite append_nil_l. now rewrite append_nil_r.
  - rewrite append_cons. cbn [revString].
    rewrite (revString_app (a ++ b)), (revString_app a), IH.
    now rewrite append_assoc.
Qed.

Lemma revString_involutive s :
  revString (revString s EmptyString) EmptyString = s.
Proof.
  induction s as [|c r IH]; [reflexivity|].
  cbn [revString]. rewrite (revString_app r), revString_append, IH. reflexivity.
Qed.

Lemma length_revString s :
  String.length (revString s EmptyString) = String.length s.
Proof.
  induction s as [|c r IH]; [reflexivity|].
  cbn [revString]. rewrite (revString_app r), length_append, IH. cbn. lia.
Qed.

Lemma trimStart_stops s : stopsRun isSpace (trimStart s) = true.
Proof.
  induction s as [|c r IH]; [reflexivity|].
  cbn [trimStart]. destruct (isSpace c) eqn:E; [exact IH|].
  cbn [stopsRun]. now rewrite E.
Qed.

Lemma trimStart_id s : stopsRun isSpace s = true -> trimStart s = s.
Proof.
  destruct s as [|c r]; [reflexivity|]. cbn [stopsRun trimStart]. intros H.
  apply negb_true_iff in H. now rewrite H.
Qed.

Lemma length_trimStart s : (String.length (trimStart s) <= String.length s)%nat.
Proof.
  induction s as [|c r IH]; [reflexivity|].
  cbn [trimStart]. destruct (isSpace c); cbn [String.length]; lia.
Qed.

Lemma trimStart_snoc a c :
  isSpace c = false ->
  exists x, trimStart (a ++ String c EmptyString) = (x ++ String c EmptyString)%string.
Proof.
  intros Hc. induction a as [|d a IH].
  - exists EmptyString. rewrite append_nil_l. cbn [trimStart]. now rewrite Hc.
  - rewrite append_cons. cbn [trimStart]. destruct (isSpace d); [exact IH|].
    exists (String d a). reflexivity.
Qed.

Lemma trimEnd_stops s : stopsRun isSpace s = true -> stopsRun isSpace (trimEnd s) = true.
Proof.
  destruct s as [|c r]; [reflexivity|]. cbn [stopsRun]. intros H.
  apply negb_true_iff in H. unfold trimEnd. cbn [revString].
  rewrite (revString_app r).
  destruct (trimStart_snoc (revString r EmptyString) c H) as [x ->].
  rewrite revString_append. cbn [revString]. rewrite append_cons.
  cbn [stopsRun]. now rewrite H.
Qed.

Lemma trimEnd_idem s : trimEnd (trimEnd s) = trimEnd s.
Proof.
  unfold trimEnd. rewrite revString_involutive.
  now rewrite (trimStart_id _ (trimStart_stops _)).
Qed.

Lemma trim_idem s : trim (trim s) = trim s.
Proof.
  unfold trim.
  rewrite (trimStart_id (trimEnd (trimStart s)))
    by apply trimEnd_stops, trimStart_stops.
  apply trimEnd_idem.
Qed.

Lemma length_trim s : (String.length (trim s) <= String.length s)%nat.
Proof.
  unfold trim, trimEnd. rewrite length_revString.
  pose proof (length_trimStart (revString (trimStart s) EmptyString)) as H.
  rewrite length_revString in H.
  pose proof (length_trimStart s). lia.
Qed.

(** ** index.tsx: the label of a node *)

Lemma labelBySelectors_meaningful se sels text :
  labelBySelectors se sels = Some text ->
  isMeaningful text = true /\ trim text = text.
Proof.
  induction sels as [|sel rest IH]; [discriminate|].
  cbn [labelBySelectors].
  destruct (querySelector se sel) as [rel|]; [|exact IH].
  cbv zeta.
  set (t := trim _).
  destruct (isMeaningful t) eqn:E; [|exact IH].
  intros [= <-]. split; [exact E | apply trim_idem].
Qed.

(** X15: a label that [findNodeLabel] hands to the node callbacks is
    never empty, has no white space at its ends and is shorter than 200
    characters. *)
Theorem findNodeLabel_meaningful (svg : Element) (element : Handle)
    (label : string)
    (H : findNodeLabel svg element = Some label) :
  label <> "" /\ trim label = label /\ (String.length label < 200)%nat.
Proof.
  unfold findNodeLabel in H.
  destruct (getEl element svg) as [el|]; [|discriminate].
  cbv zeta in H.
  set (inner := String.eqb _ "rect" || _ || _ || _) in H.
  destruct (if inner then parentElement svg element else Some el) as [se|];
    [|discriminate].
  destruct (labelBySelectors se labelSelectors) as [text|] eqn:L.
  - injection H as <-.
    apply labelBySelectors_meaningful in L as [M T].
    unfold isMeaningful in M. rewrite !andb_true_iff in M.
    destruct M as [[M1 _] M3].
    apply negb_true_iff, String.eqb_neq in M1. apply Nat.ltb_lt in M3. auto.
  - destruct (List.find _ (splitLines _)) as [firstLine|] eqn:F; [|discriminate].
    apply find_some in F as [_ F]. apply Nat.ltb_lt in F.
    destruct (negb (String.eqb firstLine "") && _) eqn:C; [|discriminate].
    injection H as <-. apply andb_true_iff in C as [_ C].
    apply Nat.ltb_lt in C.
    split; [intros E; rewrite E in F; cbn in F; lia|].
    split; [apply trim_idem|].
    pose proof (length_trim firstLine). lia.
Qed.

Lemma findNodeLabel_meaningful_witness :
  "Start here" <> "" /\ trim "Start here" = "Start here" /\
  (String.length "Start here" < 200)%nat.
Proof.
  apply (findNodeLabel_meaningful sampleLabelled [0; 0]%nat).
  vm_compute. reflexivity.
Defined.

(** ** exportUtils.ts: the fallback chain and the inlining of images *)

Lemma loadImageAsDataUri_resolves b url dataUri :
  loadImageAsDataUri b url = Resolved dataUri <->
  exists img, loadImage b url = Resolved img /\ getContext2d b img = true /\
              drawAndEncode b img = Resolved dataUri.
Proof.
  unfold loadImageAsDataUri, await. split.
  - destruct (loadImage b url) as [img|]; [|discriminate].
    destruct (getContext2d b img) eqn:E; [|discriminate]. eauto.
  - intros (img & -> & -> & H). exact H.
Qed.

(** X16: when the request for an image is blocked, or the body of the
    response cannot be read, [urlToDataUri] resolves all the same: with
    the image re-rendered through an image element and a canvas when the
    image loads, the canvas gives a 2d context and the encoding does not
    throw, and with the transparent 1x1 placeholder in every other
    case. *)
Theorem urlToDataUri_recovers_blocked_fetch (b : Browser) (url reason : string)
    (H : (do response <- fetch b url; blob b response) = Rejected reason) :
  exists dataUri,
    urlToDataUri b url = Resolved dataUri /\
    ((exists img, loadImage b url = Resolved img /\ getContext2d b img = true /\
                  drawAndEncode b img = Resolved dataUri) \/
     (dataUri = PLACEHOLDER /\
      forall img, loadImage b url = Resolved img -> getContext2d b img = true ->
                  exists r, drawAndEncode b img = Rejected r)).
Proof.
  rewrite (urlToDataUri_fallback b url reason H).
  destruct (loadImageAsDataUri b url) as [d|r] eqn:E.
  - exists d. split; [reflexivity|]. left.
    now apply loadImageAsDataUri_resolves.
  - exists PLACEHOLDER. split; [reflexivity|]. right. split; [reflexivity|].
    intros img Hi Hc. unfold loadImageAsDataUri, await in E.
    rewrite Hi, Hc in E. eauto.
Qed.

Lemma urlToDataUri_recovers_blocked_fetch_witness :
  exists dataUri,
    urlToDataUri fetchBlocked "https://x/a.png" = Resolved dataUri /\
    dataUri = PLACEHOLDER.
Proof.
  assert (H : (do response <- fetch fetchBlocked "https://x/a.png";
               blob fetchBlocked response)
              = Rejected "TypeError: Failed to fetch") by reflexivity.
  destruct (urlToDataUri_recovers_blocked_fetch fetchBlocked "https://x/a.png" _ H)
    as (d & Hd & _).
  exists d. split; [exact Hd|].
  vm_compute in Hd. now injection Hd as <-.
Defined.

Lemma convertImages_spec b images : forall svg,
  NoDup (images.*1) ->
  match convertImages b images svg with
  | Resolved out =>
      (forall h href, (h, href) ∈ images ->
         exists dataUri, urlToDataUri b href = Resolved dataUri /\
                         getHead h out = withDataUri dataUri <$> getHead h svg) /\
      (forall h, h ∉ images.*1 -> getHead h out = getHead h svg)
  | Rejected reason =>
      exists h href, (h, href) ∈ images /\ urlToDataUri b href = Rejected reason
  end.
Proof.
  induction images as [|[img href] rest IH]; intros svg Hnd.
  - cbn. split; [intros h href Hin; inversion Hin | reflexivity].
  - cbn [convertImages]. unfold await.
    cbn [fmap list_fmap fst] in Hnd. apply NoDup_cons in Hnd as [Hout Hnd].
    destruct (urlToDataUri b href) as [d|r] eqn:E.
    2:{ exists img, href. split; [now left | exact E]. }
    specialize (IH (updateAt img
                      (onHead (fun hd => removeAttribute "xlink:href"
                                 (setAttribute "href" (VStr d) hd))) svg) Hnd).
    destruct (convertImages b rest _) as [out|r].
    + destruct IH as [IH1 IH2]. split.
      * intros h href' Hin. apply elem_of_cons in Hin as [[= -> ->]|Hin].
        -- exists d. split; [exact E|].
           rewrite (IH2 img Hout). apply getHead_updateAt_eq.
        -- destruct (IH1 h href' Hin) as (d' & Hd' & Hh).
           exists d'. split; [exact Hd'|]. rewrite Hh.
           rewrite getHead_updateAt_ne; [reflexivity|].
           intros ->. apply Hout. apply list_elem_of_fmap.
           exists (img, href'). auto.
      * intros h Hh. cbn [fmap list_fmap fst] in Hh.
        apply not_elem_of_cons in Hh as [Hne Hh].
        rewrite (IH2 h Hh). now apply getHead_updateAt_ne.
    + destruct IH as (h & href' & Hin & Hr).
      exists h, href'. split; [now right | exact Hr].
Qed.

Lemma externalImages_handles svg h href :
  (h, href) ∈ externalImages svg ->
  h ∈ querySelectorAll svg [tagSel "image"] /\
  exists hd, getHead h svg = Some hd /\ imageHref hd = Some (VStr href) /\
             startsWith href "http" = true.
Proof.
  unfold externalImages. intros H.
  apply list_elem_of_In, in_flat_map in H as (img & Hin & H).
  apply list_elem_of_In in Hin.
  destruct (getHead img svg) as [hd|] eqn:Eh; [|inversion H].
  destruct (imageHref hd) as [[q|s]|] eqn:Ei; try solve [inversion H].
  destruct (startsWith s "http") eqn:Es; [|inversion H].
  destruct H as [[= -> ->]|[]]. eauto.
Qed.

Lemma NoDup_externalImages svg : NoDup ((externalImages svg).*1).
Proof.
  unfold externalImages.
  pose proof (NoDup_selectBelow (selectorPred [tagSel "image"]) svg) as N.
  fold (querySelectorAll svg [tagSel "image"]) in N.
  induction (querySelectorAll svg [tagSel "image"]) as [|img l IH]; [constructor|].
  apply NoDup_cons in N as [Hout N]. cbn [flat_map].
  rewrite fmap_app. apply NoDup_app. split; [|split; [|now apply IH]].
  - destruct (getHead img svg) as [hd|]; [|constructor].
    destruct (imageHref hd) as [[q|s]|]; try solve [constructor].
    destruct (startsWith s "http"); [|constructor].
    cbn. apply NoDup_singleton.
  - intros h Hh Hin.
    assert (h = img) as ->.
    { destruct (getHead img svg) as [hd|]; [|inversion Hh].
      destruct (imageHref hd) as [[q|s]|]; try solve [inversion Hh].
      destruct (startsWith s "http"); [|inversion Hh].
      cbn in Hh. now apply list_elem_of_singleton in Hh. }
    apply Hout. apply list_elem_of_fmap in Hin as ([h' href] & -> & Hin).
    apply list_elem_of_In, in_flat_map in Hin as (img' & Hi & Hin).
    apply list_elem_of_In in Hi.
    destruct (getHead img' svg) as [hd|]; [|inversion Hin].
    destruct (imageHref hd) as [[q|s]|]; try solve [inversion Hin].
    destruct (startsWith s "http"); [|inversion Hin].
    destruct Hin as [[= -> ->]|[]]. exact Hi.
Qed.

(** X17: [inlineStyles] works on a clone that starts with one style
    element holding the rules of the readable style sheets.  It rejects
    only when the conversion of an image with an [http] locator rejects.
    When it resolves, each such image has the data URI of its conversion as
    [href] and no [xlink:href], and every other element of the clone,
    images with other locators included, is as in the original. *)
Theorem inlineStyles_converts_images (b : Browser) (sheets : StyleSheets)
    (svg : Element) :
  let clone := insertFirst (inlinedStyle sheets) svg in
  children clone = inlinedStyle sheets :: children svg /\
  head clone = head svg /\
  match inlineStyles b sheets svg with
  | Resolved out =>
      (forall h href, (h, href) ∈ externalImages clone ->
         exists dataUri hd,
           urlToDataUri b href = Resolved dataUri /\
           getHead h clone = Some hd /\
           getHead h out = Some (withDataUri dataUri hd)) /\
      (forall h, h ∉ (externalImages clone).*1 -> getHead h out = getHead h clone)
  | Rejected reason =>
      exists h href,
        (h, href) ∈ externalImages clone /\ urlToDataUri b href = Rejected reason
  end.
Proof.
  intros clone. split; [destruct svg; reflexivity|].
  split; [destruct svg; reflexivity|].
  unfold inlineStyles. cbv zeta. fold (inlinedStyle sheets). fold clone.
  pose proof (convertImages_spec b (externalImages clone) clone
                (NoDup_externalImages clone)) as S.
  destruct (convertImages b (externalImages clone) clone) as [out|r]; [|exact S].
  destruct S as [S1 S2]. split; [|exact S2].
  intros h href Hin. destruct (S1 h href Hin) as (d & Hd & Hh).
  destruct (externalImages_handles clone h href Hin) as (_ & hd & Hhd & _).
  exists d, hd. rewrite Hh, Hhd. auto.
Qed.

(** ** theme.ts: hexToRgba *)

Lemma hexDigit_spec c d :
  hexDigit c = Some d ->
  isSpace c = false /\ c <> "-"%char /\ c <> "+"%char /\
  Ascii.eqb "x" c = false /\ Ascii.eqb "X" c = false /\ (0 <= d <= 15)%Z.
Proof.
  destruct c as [[] [] [] [] [] [] [] []]; vm_compute; intros H;
    try discriminate; injection H as <-;
    repeat split; try discriminate; try reflexivity.
Qed.

Lemma parseInt16_two c1 c2 d1 d2 :
  hexDigit c1 = Some d1 -> hexDigit c2 = Some d2 ->
  parseInt16 (String c1 (String c2 EmptyString)) = Some (16 * d1 + d2)%Z.
Proof.
  intros H1 H2.
  destruct (hexDigit_spec c1 d1 H1) as (S1 & M1 & P1 & _ & _ & _).
  destruct (hexDigit_spec c2 d2 H2) as (_ & _ & _ & X2 & X2' & _).
  unfold parseInt16. cbn [trimStart]. rewrite S1.
  assert (E : (match String c1 (String c2 EmptyString) with
               | String "-" r => ((-1)%Z, r)
               | String "+" r => (1%Z, r)
               | _ => (1%Z, String c1 (String c2 EmptyString))
               end) = (1%Z, String c1 (String c2 EmptyString))).
  { destruct c1 as [[] [] [] [] [] [] [] []]; try reflexivity; congruence. }
  rewrite E. cbn [startsWith]. rewrite X2, X2'.
  assert (F : forall b : bool, (if b then false else false) = false)
    by (intros []; reflexivity).
  rewrite !F. cbn [orb hexPrefix]. rewrite H1, H2. cbn [default fmap option_fmap option_map].
  unfold id. f_equal. lia.
Qed.

(** X18: for a colour written as six digits of radix 16 after one
    leading character, [hexToRgba] gives [rgba(r, g, b, alpha)] where each
    of r, g and b is the value of its pair of digits, between 0 and 255,
    in decimal.  The leading character is not looked at, upper-case and
    lower-case digits count alike, and whatever follows the six digits is
    ignored. *)
Theorem hexToRgba_six_digits (numberToString : Q -> string)
    (c0 c1 c2 c3 c4 c5 c6 : ascii) (d1 d2 d3 d4 d5 d6 : Z)
    (rest : string) (alpha : Q)
    (H1 : hexDigit c1 = Some d1) (H2 : hexDigit c2 = Some d2)
    (H3 : hexDigit c3 = Some d3) (H4 : hexDigit c4 = Some d4)
    (H5 : hexDigit c5 = Some d5) (H6 : hexDigit c6 = Some d6) :
  let hex := String c0 (String c1 (String c2 (String c3 (String c4
               (String c5 (String c6 rest)))))) in
  let r := (16 * d1 + d2)%Z in
  let g := (16 * d3 + d4)%Z in
  let b := (16 * d5 + d6)%Z in
  hexToRgba numberToString hex alpha
  = "rgba(" ++ showInt (Some r) ++ ", " ++ showInt (Some g) ++ ", "
    ++ showInt (Some b) ++ ", " ++ numberToString alpha ++ ")" /\
  (0 <= r <= 255)%Z /\ (0 <= g <= 255)%Z /\ (0 <= b <= 255)%Z /\
  (forall c d, hexDigit c = Some d -> hexDigit (lowerAscii c) = Some d).
Proof.
  intros hex r g b. unfold hexToRgba, slice, hex.
  cbn [dropStr takeStr Nat.sub].
  rewrite (parseInt16_two c1 c2 d1 d2 H1 H2), (parseInt16_two c3 c4 d3 d4 H3 H4),
    (parseInt16_two c5 c6 d5 d6 H5 H6).
  split; [reflexivity|].
  destruct (hexDigit_spec _ _ H1) as (_ & _ & _ & _ & _ & B1).
  destruct (hexDigit_spec _ _ H2) as (_ & _ & _ & _ & _ & B2).
  destruct (hexDigit_spec _ _ H3) as (_ & _ & _ & _ & _ & B3).
  destruct (hexDigit_spec _ _ H4) as (_ & _ & _ & _ & _ & B4).
  destruct (hexDigit_spec _ _ H5) as (_ & _ & _ & _ & _ & B5).
  destruct (hexDigit_spec _ _ H6) as (_ & _ & _ & _ & _ & B6).
  subst r g b. repeat split; try lia.
  clear. intros c d.
  destruct c as [[] [] [] [] [] [] [] []]; vm_compute; intros H;
    try discriminate; exact H.
Qed.

Lemma hexToRgba_six_digits_witness :
  hexToRgba noNumber PRIMARY_teal (1 # 10)
  = "rgba(" ++ "23" ++ ", " ++ "152" ++ ", " ++ "149" ++ ", " ++ noNumber (1 # 10) ++ ")".
Proof.
  destruct (hexToRgba_six_digits noNumber "#" "1" "7" "9" "8" "9" "5"
              1 7 9 8 9 5 "" (1 # 10)
              eq_refl eq_refl eq_refl eq_refl eq_refl eq_refl) as [E _].
  exact E.
Defined.

(** X19: the three-digit shorthand is not understood: for a text of at
    most five characters the blue component is [NaN], whatever the other
    two are. *)
Theorem hexToRgba_short_input (numberToString : Q -> string) (hex : string)
    (alpha : Q) (H : (String.length hex <= 5)%nat) :
  exists r g,
    hexToRgba numberToString hex alpha
    = "rgba(" ++ r ++ ", " ++ g ++ ", " ++ "NaN" ++ ", "
      ++ numberToString alpha ++ ")".
Proof.
  unfold hexToRgba. eexists _, _.
  assert (E : slice 5 7 hex = EmptyString).
  { unfold slice.
    destruct hex as [|a [|b [|c [|d [|e [|f r]]]]]]; try reflexivity.
    cbn in H. lia. }
  rewrite E. reflexivity.
Qed.

Lemma hexToRgba_short_input_witness :
  exists r g,
    hexToRgba noNumber "#abc" (1 # 2)
    = "rgba(" ++ r ++ ", " ++ g ++ ", " ++ "NaN" ++ ", " ++ noNumber (1 # 2) ++ ")".
Proof.
  apply hexToRgba_short_input. cbn. lia.
Defined.

(** ** svgUtils.ts: edge-label boxes whose size is not a number *)

Lemma grow_not_a_number vd vp m s :
  vd = Some (VStr s) -> s <> "" -> parseFloatText s = PNaN ->
  growD vd m = Some (VStr "NaN") /\ growP vd vp m = Some (VStr "NaN").
Proof.
  intros -> Hs Hnan.
  assert (E : parseFloat (attrOr (Some (VStr s)) (VNum 0)) = None).
  { destruct s as [|c s]; [contradiction|].
    cbn [attrOr parseFloat]. rewrite Hnan. reflexivity. }
  destruct (grow_cases (Some (VStr s)) vp m) as [(_ & D & P)|[H|H]]; [auto| |];
    destruct H as (q & Hq & _); congruence.
Qed.

(** X20: an edge-label rectangle whose [width] is text that [parseFloat]
    reads as [NaN] (text with no leading number, such as [auto]) loses it:
    [enhanceEdgeLabelBoxes] writes the text [NaN] into [width] and into
    [x]; the same holds of [height] and [y]. *)
Theorem edge_label_box_not_a_number (svg : Element) (h : Handle) (rect : Head)
    (Hsel : h ∈ boxHandles svg)
    (Hrect : getHead h svg = Some rect) :
  exists rect',
    getHead h (enhanceEdgeLabelBoxes svg) = Some rect' /\
    (forall s, getAttribute "width" rect = Some (VStr s) -> s <> "" ->
       parseFloatText s = PNaN ->
       getAttribute "width" rect' = Some (VStr "NaN") /\
       getAttribute "x" rect' = Some (VStr "NaN")) /\
    (forall s, getAttribute "height" rect = Some (VStr s) -> s <> "" ->
       parseFloatText s = PNaN ->
       getAttribute "height" rect' = Some (VStr "NaN") /\
       getAttribute "y" rect' = Some (VStr "NaN")).
Proof.
  exists (enhanceEdgeLabelRect rect). split.
  { rewrite getHead_enhanceEdgeLabelBoxes, Hrect.
    rewrite bool_decide_eq_true_2 by exact Hsel. reflexivity. }
  rewrite enhanceEdgeLabelRect_actOn. unfold getAttribute, actOn. cbn [attributes].
  destruct (lookup_boxAttrs (attributes rect)) as (W & X & Ht & Y & _).
  rewrite W, X, Ht, Y.
  split; intros s Hs Hne Hnan; now apply (grow_not_a_number _ _ _ s).
Qed.

Lemma edge_label_box_not_a_number_witness :
  exists rect',
    getHead [0; 0]%nat (enhanceEdgeLabelBoxes sampleAutoBox) = Some rect' /\
    getAttribute "width" rect' = Some (VStr "NaN") /\
    getAttribute "x" rect' = Some (VStr "NaN").
Proof.
  assert (Hsel : [0; 0]%nat ∈ boxHandles sampleAutoBox).
  { replace (boxHandles sampleAutoBox) with [[0; 0]%nat] by (vm_compute; reflexivity).
    now apply list_elem_of_singleton. }
  destruct (edge_label_box_not_a_number sampleAutoBox [0; 0]%nat _ Hsel eq_refl)
    as (rect' & Hr & Hw & _).
  exists rect'. split; [exact Hr|].
  apply (Hw "auto"); [reflexivity | discriminate | reflexivity].
Defined.

(** ** index.tsx: where the image of an actor is put *)

(** Appending a subtree somewhere leaves every element in its place. *)
Lemma getHead_append_keeps c pg : forall svg h x,
  getHead h svg = Some x ->
  getHead h (updateAt pg (appendChild c) svg) = Some x.
Proof.
  induction pg as [|j pg IH]; intros svg h x Hx.
  - cbn [updateAt]. destruct svg as [hd ks]. destruct h as [|i h]; [exact Hx|].
    cbn [appendChild]. rewrite getHead_cons in Hx |- *. cbn [children] in *.
    destruct (ks !! i) as [k|] eqn:Ek; [|discriminate].
    now rewrite (lookup_app_l_Some _ _ _ _ Ek).
  - cbn [updateAt]. destruct h as [|i h].
    + destruct svg; exact Hx.
    + rewrite getHead_cons in Hx |- *. cbn [children].
      destruct (decide (i = j)) as [->|Hij].
      * rewrite list_lookup_alter_eq.
        destruct (children svg !! j) as [k|]; [|discriminate]. cbn.
        now apply IH.
      * now rewrite list_lookup_alter_ne by congruence.
Qed.

Lemma getAttribute_setAttributes l : forall hd n v,
  NoDup (l.*1) -> (n, v) ∈ l -> getAttribute n (setAttributes l hd) = Some v.
Proof.
  unfold setAttributes.
  induction l as [|[m w] l IH] using rev_ind; intros hd n v Hnd Hin.
  - inversion Hin.
  - rewrite fold_left_app. cbn [fold_left fst snd].
    rewrite getAttribute_setAttribute.
    rewrite fmap_app in Hnd. apply NoDup_app in Hnd as (Hl & Hdis & _).
    apply elem_of_app in Hin as [Hin|Hin].
    + destruct (decide (m = n)) as [->|_].
      * exfalso. apply (Hdis n).
        -- apply list_elem_of_fmap. exists (n, v). auto.
        -- cbn. now left.
      * now apply IH.
    + apply list_elem_of_singleton in Hin. injection Hin as -> ->.
      now rewrite decide_True.
Qed.

Section Placement.

Variable randomText : nat -> string.

(** X21: for an actor group with a name that has an image, in a
    graphic that has a [defs] element, the body of the loop of
    [addActorImages] appends one image as the last child of the group.
    The image is 48 by 48, starts 20 to the right of the left edge of
    the actor box and is centred on the box vertically; it shows the
    mapped locator, carries the class [actor-logo] and refers to the
    clip path made for it; and the name of the actor is moved 26 to
    the right. *)
Theorem attachActorImage_placement (imageMappings : gmap string string)
    (actor : Handle) (k : nat) (svg actorEl : Element)
    (textRel rectRel defs : Handle) (t : Element) (rectHead : Head)
    (imgPath : string) (x y height : Q)
    (Hactor : getEl actor svg = Some actorEl)
    (Htext : querySelector actorEl [tagSel "text"] = Some textRel)
    (Hrect : querySelector actorEl [tagSel "rect"] = Some rectRel)
    (Ht : getEl (actor ++ textRel)%list svg = Some t)
    (Hr : getHead (actor ++ rectRel)%list svg = Some rectHead)
    (Himg : imageMappings !! trim (textContent t) = Some imgPath)
    (Hpath : imgPath <> "")
    (Hx : numAttr "x" rectHead = Some x)
    (Hy : numAttr "y" rectHead = Some y)
    (Hh : numAttr "height" rectHead = Some height)
    (Hdefs : querySelector svg [tagSel "defs"] = Some defs) :
  exists svg' group image imageY,
    attachActorImage randomText imageMappings actor k svg = (svg', S k, false) /\
    getEl actor svg' = Some (appendChild image group) /\
    tagName (head image) = "image" /\ children image = [] /\
    classList (head image) = ["actor-logo"] /\
    getAttribute "href" (head image) = Some (VStr imgPath) /\
    getAttribute "x" (head image) = Some (VNum (x + 20)) /\
    getAttribute "y" (head image) = Some (VNum imageY) /\
    imageY + 48 / 2 == y + height / 2 /\
    getAttribute "width" (head image) = Some (VNum 48) /\
    getAttribute "height" (head image) = Some (VNum 48) /\
    getAttribute "clip-path" (head image)
    = Some (VStr ("url(#actor-logo-clip-" ++ randomText k ++ ")")) /\
    attrAt "x" (actor ++ textRel)%list svg'
    = Some (Some (toString (jsAdd (numAttr "x" (head t)) (Some ((48 + 4) / 2))))).
Proof.
  unfold attachActorImage.
  rewrite Hactor, Htext, Hrect, Ht, Himg, Hr, Hdefs, Hx, Hy, Hh.
  assert (Et : truthyString (Some imgPath) = Some imgPath)
    by (destruct imgPath; [contradiction | reflexivity]).
  rewrite Et. cbv zeta. cbn [jsAdd jsSub jsDiv jsLift2 toString].
  set (clipPath := appendChild _ (onHead (setAttribute "id" _) (createElement "clipPath"))).
  set (svg1 := updateAt defs (appendChild clipPath) svg).
  assert (H1 : getHead (actor ++ textRel)%list svg1 = Some (head t)).
  { apply getHead_append_keeps. unfold getHead. now rewrite Ht. }
  rewrite H1.
  set (v := toString _).
  set (svg2 := updateAt (actor ++ textRel)%list (onHead (setAttribute "x" v)) svg1).
  set (image := onHead _ (createElement "image")).
  assert (A1 : is_Some (getHead actor svg1)).
  { exists (head actorEl). apply getHead_append_keeps.
    unfold getHead. now rewrite Hactor. }
  assert (A2 : is_Some (getEl actor svg2)).
  { apply getHead_is_Some. unfold svg2. rewrite getHead_updateAt.
    destruct A1 as [a Ha]. rewrite Ha. destruct (decide _); cbn; eauto. }
  destruct A2 as [group Hgroup].
  exists (updateAt actor (appendChild image) svg2), group, image,
    (y + (height - 48) / 2).
  split; [reflexivity|].
  split; [now rewrite getEl_updateAt_eq, Hgroup|].
  split; [reflexivity|]. split; [reflexivity|]. split; [reflexivity|].
  assert (Nd : NoDup ([("href", VStr imgPath); ("x", VNum (x + 20));
                       ("y", VNum (y + (height - 48) / 2));
                       ("width", VNum 48); ("height", VNum 48)].*1)).
  { cbn. repeat (constructor; [rewrite ?elem_of_cons, elem_of_nil; intuition discriminate|]). constructor. }
  assert (G : forall n val,
            n <> "clip-path" ->
            (n, val) ∈ [("href", VStr imgPath); ("x", VNum (x + 20));
                        ("y", VNum (y + (height - 48) / 2));
                        ("width", VNum 48); ("height", VNum 48)] ->
            getAttribute n (head image) = Some val).
  { intros n val Hn Hin. unfold image. cbn [onHead createElement head].
    rewrite getAttribute_setAttribute, decide_False by congruence.
    unfold setClass, getAttribute. cbn [attributes].
    now apply (getAttribute_setAttributes _ _ n val Nd). }
  split; [apply G; [discriminate | repeat constructor]|].
  split; [apply G; [discriminate | repeat constructor]|].
  split; [apply G; [discriminate | repeat constructor]|].
  split; [field|].
  split; [apply G; [discriminate | repeat constructor]|].
  split; [apply G; [discriminate | repeat constructor]|].
  split.
  { unfold image. cbn [onHead createElement head].
    rewrite getAttribute_setAttribute, decide_True by reflexivity. reflexivity. }
  unfold attrAt.
  assert (H2 : getHead (actor ++ textRel)%list svg2
               = Some (setAttribute "x" v (head t))).
  { unfold svg2. now rewrite getHead_updateAt_eq, H1. }
  rewrite (getHead_append_keeps image actor svg2 _ _ H2). cbn.
  now rewrite lookup_insert_eq.
Qed.

End Placement.

Lemma attachActorImage_placement_witness :
  exists svg' group image imageY,
    attachActorImage sampleRandomText {[ "A" := "https://x/a.png" ]} [1%nat] 0
      (insertFirst (createElement "defs") scenarioRendered)
    = (svg', 1%nat, false) /\
    getEl [1%nat] svg' = Some (appendChild image group) /\
    getAttribute "x" (head image) = Some (VNum (0 + 20)) /\
    getAttribute "y" (head image) = Some (VNum imageY) /\
    imageY + 48 / 2 == 0 + 120 / 2.
Proof.
  unshelve epose proof
    (attachActorImage_placement sampleRandomText
       {[ "A" := "https://x/a.png" ]} [1%nat] 0
       (insertFirst (createElement "defs") scenarioRendered)
       _ [1; 1]%nat [1; 0]%nat [0%nat] _ _ "https://x/a.png" 0 0 120
       _ _ _ _ _ _ _ _ _ _ _) as P;
    try (vm_compute; reflexivity); try reflexivity; try discriminate.
  destruct P as (svg' & group & image & imageY & E & G & _ & _ & _ & _ & X & Y & C & _).
  exists svg', group, image, imageY. auto.
Defined.

(** ** particleUtils.ts: the three circles of a particle in a frame *)

Section Together.

Variable getPointAtLength : Handle -> Q -> option (Q * Q).


End Together.


(** ** The particle scheduler in double precision *)





Section DoubleScheduler.

Variable getTotalLength : Handle -> Double.number.

#[local] Abbreviation dwindows := (Double.windowsFrom getTotalLength).






End DoubleScheduler.











(** ** The participant micro-syntax: every declaration and nothing else *)







Lemma nonEmpty_takeStr k s :
  (1 <= k)%nat -> (k <= String.length s)%nat -> nonEmpty (takeStr k s) = true.
Proof. destruct k, s; cbn; intros; try lia; reflexivity. Qed.

Lemma runLength_le_length class s : (runLength class s <= String.length s)%nat.
Proof.
  induction s as [|c s IH]; [reflexivity|]. cbn. destruct (class c); lia.
Qed.














